(** * AMP Mini highlight pipeline: candidate construction, constrained
      selection, EDL model and render-graph compilation

    A shallow embedding of [mini/edl.py], [mini/analysis/types.py],
    [mini/analysis/combine.py], [mini/selection/select.py] and
    [mini/render/ffmpeg_cmd.py], followed by the properties of the
    specification that are checked against it.

    Conventions of the embedding.
    - Python floats are modelled by exact rationals ([Q]); [round(x, n)] is
      rounding to the nearest multiple of [10^-n], ties to even, and stands
      for that decimal; the binary64 number that holds a value is [b64] of
      it, used where a statement depends on the representation error.  All
      concrete inputs used below stay away from rounding ties and from
      comparisons closer than 1e-7, so that binary64 arithmetic takes the
      same branches.
    - Python classes are modules holding a record [t] and the methods.
    - Exceptions are the [Raise] results of an error monad.
    - [dict]s whose order is irrelevant are [gmap]s; JSON-like dictionaries,
      whose insertion order is observable, are association lists.
    - External collaborators (the seeded generator, the duration and audio
      probes, the file system, pathlib's text of a path, the environment)
      are section variables.
    - The filter graph is built as a list of lines, one constructor per
      f-string, and returned as their texts joined by [;]; the properties
      of the graph are stated on the returned text. *)

From Stdlib Require Import QArith Qround Qabs Qpower Lqa ZArith Lia List String Ascii.
From Stdlib Require Import Permutation Sorted DecimalString DecimalPos DecimalZ Bool.
From stdpp Require Import gmap strings.
Import ListNotations.

#[local] Open Scope string_scope.
#[local] Open Scope list_scope.
#[local] Open Scope Q_scope.

(* ===================================================================== *)
(** * Python runtime: exceptions, numbers, sorting, values                *)
(* ===================================================================== *)

Inductive exn : Type :=
| ValueError (msg : string)
| KeyError (key : string)
| IndexError (msg : string)
| TypeError (msg : string).

Inductive result (A : Type) : Type :=
| Ok (a : A)
| Raise (e : exn).
Arguments Ok {A} a.
Arguments Raise {A} e.

#[global] Instance result_ret : MRet result := fun A a => Ok a.
#[global] Instance result_bind : MBind result := fun A B k r =>
  match r with
  | Ok a => k a
  | Raise e => Raise e
  end.

(** Comparisons of floats, as booleans. *)
Definition Qltb (a b : Q) : bool :=
  match a ?= b with Lt => true | _ => false end.
Definition Qleb (a b : Q) : bool :=
  match a ?= b with Gt => false | _ => true end.

(** [max(a, b)] and [min(a, b)] return the first argument unless a later one
    is strictly larger (smaller). *)
Definition py_max (a b : Q) : Q := if Qltb a b then b else a.
Definition py_min (a b : Q) : Q := if Qltb b a then b else a.
Definition py_min3 (a b c : Q) : Q := py_min (py_min a b) c.

(** Nearest integer, ties to even. *)
Definition round_half_even (q : Q) : Z :=
  let f := Qfloor q in
  match ((q - inject_Z f) ?= (1 # 2))%Q with
  | Lt => f
  | Gt => (f + 1)%Z
  | Eq => if Z.even f then f else (f + 1)%Z
  end.

(** [round(q, ndigits)], as the decimal number it stands for: the float
    the code holds is the binary64 number nearest to this decimal, [b64] of
    it. *)
Definition py_round (q : Q) (ndigits : nat) : Q :=
  let s := (10 ^ Z.of_nat ndigits)%Z in
  Qmake (round_half_even (q * inject_Z s)) (Z.to_pos s).



(** [int(q)] truncates towards zero. *)
Definition Qtrunc (q : Q) : Z := if Qltb q 0%Q then Qceiling q else Qfloor q.

(** [str(n)] for an integer, and the [{x:.3f}] format. *)
Definition str_of_Z (z : Z) : string := NilZero.string_of_int (Z.to_int z).
Definition str_of_nat (n : nat) : string := str_of_Z (Z.of_nat n).

Definition pad3 (n : Z) : string :=
  if (n <? 10)%Z then "00" +:+ str_of_Z n
  else if (n <? 100)%Z then "0" +:+ str_of_Z n
  else str_of_Z n.

Definition format_3f (q : Q) : string :=
  let a := Z.abs (round_half_even (q * 1000)) in
  (if Qltb q 0 then "-" else EmptyString)
    +:+ str_of_Z (a / 1000) +:+ "." +:+ pad3 (a mod 1000).

(** [sorted(l, key=...)]: the stable sort.  [ltb x y] is [key x < key y];
    an element is inserted in front of the first one that is not smaller
    than it, so equal keys keep their original order. *)
Fixpoint insert_by {A : Type} (ltb : A -> A -> bool) (x : A) (l : list A) : list A :=
  match l with
  | [] => [x]
  | y :: l' => if ltb y x then y :: insert_by ltb x l' else x :: y :: l'
  end.

Fixpoint py_sorted {A : Type} (ltb : A -> A -> bool) (l : list A) : list A :=
  match l with
  | [] => []
  | x :: l' => insert_by ltb x (py_sorted ltb l')
  end.

(** Lexicographic comparison of tuples. *)
Definition lex (c1 c2 : comparison) : comparison :=
  match c1 with Eq => c2 | _ => c1 end.
Definition is_Lt (c : comparison) : bool :=
  match c with Lt => true | _ => false end.

(** JSON-like Python values; a dictionary keeps its insertion order. *)
#[warnings="-register-all"]
Inductive pyval : Type :=
| PNone
| PBool (b : bool)
| PInt (z : Z)
| PFloat (q : Q)
| PStr (s : string)
| PList (l : list pyval)
| PDict (d : list (string * pyval)).

Fixpoint dict_get (d : list (string * pyval)) (k : string) : option pyval :=
  match d with
  | [] => None
  | (k', v) :: d' => if String.eqb k' k then Some v else dict_get d' k
  end.

(** [d.get(k, dflt)]. *)
Definition get_or (d : list (string * pyval)) (k : string) (dflt : pyval) : pyval :=
  match dict_get d k with Some v => v | None => dflt end.

(** [float(v)], [int(v)] on numbers; the parse of a numeric string is
    outside the modelled fragment and is reported as an error. *)
Definition py_float (v : pyval) : result Q :=
  match v with
  | PFloat q => Ok q
  | PInt z => Ok (inject_Z z)
  | PBool b => Ok (if b then 1 else 0)
  | PStr _ => Raise (ValueError "could not convert string to float")
  | _ => Raise (TypeError "float() argument must be a string or a real number")
  end.

Definition py_int (v : pyval) : result Z :=
  match v with
  | PInt z => Ok z
  | PFloat q => Ok (Qtrunc q)
  | PBool b => Ok (if b then 1 else 0)%Z
  | PStr _ => Raise (ValueError "invalid literal for int()")
  | _ => Raise (TypeError "int() argument must be a string or a real number")
  end.

Definition py_str (v : pyval) : result string :=
  match v with
  | PStr s => Ok s
  | _ => Raise (TypeError "expected str")
  end.

Definition py_opt_str (v : pyval) : result (option string) :=
  match v with
  | PNone => Ok None
  | PStr s => Ok (Some s)
  | _ => Raise (TypeError "expected Optional[str]")
  end.

(** [x or dflt] on an optional string: [None] and the empty string are falsy. *)
Definition str_or (x : option string) (dflt : string) : string :=
  match x with
  | Some (String c s) => String c s
  | _ => dflt
  end.

(* ===================================================================== *)
(** * mini/edl.py                                                         *)
(* ===================================================================== *)

Definition DEFAULT_WEIGHTS : gmap string Q :=
  list_to_map
    [("audio_peak", 40 # 100); ("motion", 30 # 100); ("faces", 20 # 100);
     ("scene_novelty", 8 # 100); ("brightness_flash", 2 # 100)].


Module DiversitySettings.
Record t : Type := mk {
  min_gap_same_cam : Q;
  max_per_cam_ratio : Q
}.
Definition default : t := mk 3 (1 # 2).
End DiversitySettings.

Module BrandingSettings.
Record t : Type := mk {
  logo_path : option string;
  logo_corner : string;
  logo_size_px : Z;
  safe_area : Q;
  intro_path : option string;
  outro_path : option string;
  lut_path : option string;
  fonts : list string
}.
Definition default : t := mk None "bottom_right" 64 (8 # 10) None None None [].
End BrandingSettings.


Module Config.
Record t : Type := mk {
  project : string;
  variant : string;
  seed : Z;
  max_duration : Q;
  clip_min : Q;
  clip_max : Q;
  target_range : list Q;
  weights : gmap string Q;
  diversity : DiversitySettings.t;
  branding : BrandingSettings.t;
  deliverables : list string
}.

Definition default : t :=
  mk "Event_Recap" "deterministic" 42 60 (12 # 10) 4 [2; 35 # 10]
     DEFAULT_WEIGHTS DiversitySettings.default BrandingSettings.default ["9:16"].

End Config.

Module Segment.
Record t : Type := mk {
  src : string;
  start : Q;
  end_ : Q;
  score : Q;
  tags : list string;
  camera : option string
}.

Definition duration (self : t) : Q := py_max 0 (end_ self - start self).
End Segment.

Module EDL.
Record t : Type := mk {
  project : string;
  variant : string;
  seed : Z;
  max_duration : Q;
  clip_min : Q;
  clip_max : Q;
  segments : list Segment.t;
  metadata : list (string * pyval)
}.

(** [sum(seg.duration for seg in self.segments)]. *)
Definition total_duration (self : t) : Q :=
  fold_left (fun acc seg => acc + Segment.duration seg) (segments self) 0.

Definition segment_to_dict (seg : Segment.t) : pyval :=
  PDict
    [("src", PStr (Segment.src seg));
     ("in", PFloat (py_round (Segment.start seg) 3));
     ("out", PFloat (py_round (Segment.end_ seg) 3));
     ("score", PFloat (py_round (Segment.score seg) 4));
     ("tags", PList (map PStr (Segment.tags seg)));
     ("cam", match Segment.camera seg with Some c => PStr c | None => PNone end)].

Definition to_dict (self : t) : pyval :=
  let data :=
    [("project", PStr (project self));
     ("variant", PStr (variant self));
     ("seed", PInt (seed self));
     ("max_duration", PFloat (max_duration self));
     ("clip_min", PFloat (clip_min self));
     ("clip_max", PFloat (clip_max self));
     ("segments", PList (map segment_to_dict (segments self)))] in
  match metadata self with
  | [] => PDict data
  | _ :: _ => PDict (data ++ [("metadata", PDict (metadata self))])
  end.
End EDL.

Definition segment_from_dict (seg : pyval) : result Segment.t :=
  match seg with
  | PDict d =>
      src ← match dict_get d "src" with
             | Some v => py_str v
             | None => Raise (KeyError "src")
             end;
      start ← py_float (get_or d "in" (get_or d "start" (PFloat 0)));
      end_ ← py_float (get_or d "out" (get_or d "end" (PFloat 0)));
      score ← py_float (get_or d "score" (PFloat 0));
      tags ← match get_or d "tags" (PList []) with
              | PList l => mapM py_str l
              | _ => Raise (TypeError "tags must be a sequence of str")
              end;
      camera ← py_opt_str (get_or d "cam" PNone);
      Ok (Segment.mk src start end_ score tags camera)
  | _ => Raise (TypeError "segment must be a mapping")
  end.

Definition edl_from_dict (data : pyval) : result EDL.t :=
  match data with
  | PDict d =>
      segments ← match get_or d "segments" (PList []) with
                  | PList l => mapM segment_from_dict l
                  | _ => Raise (TypeError "segments must be a list")
                  end;
      project ← py_str (get_or d "project" (PStr "Event_Recap"));
      variant ← py_str (get_or d "variant" (PStr "deterministic"));
      seed ← py_int (get_or d "seed" (PInt 42));
      max_duration ← py_float (get_or d "max_duration" (PFloat 60));
      clip_min ← py_float (get_or d "clip_min" (PFloat (12 # 10)));
      clip_max ← py_float (get_or d "clip_max" (PFloat 4));
      metadata ← match get_or d "metadata" (PDict []) with
                  | PDict m => Ok m
                  | _ => Raise (TypeError "metadata must be a mapping")
                  end;
      Ok (EDL.mk project variant seed max_duration clip_min clip_max segments metadata)
  | _ => Raise (TypeError "EDL data must be a mapping")
  end.

(* ===================================================================== *)
(** * mini/analysis/types.py                                              *)
(* ===================================================================== *)

Module DetectionEvent.
Record t : Type := mk {
  time : Q;
  score : Q;
  tag : string
}.
End DetectionEvent.


Module CandidateClip.
Record t : Type := mk {
  src : string;
  start : Q;
  end_ : Q;
  score : Q;
  tags : list string;
  camera : option string
}.

Definition duration (self : t) : Q := py_max 0 (end_ self - start self).
End CandidateClip.

(* ===================================================================== *)
(** * mini/analysis/combine.py                                            *)
(* ===================================================================== *)


(** A path, with the stem [pathlib] computes for it. *)
Record Path : Type := mkPath {
  path_str : string;
  path_stem : string
}.



Definition _overlaps (a b : CandidateClip.t) (tolerance : Q) : bool :=
  if negb (String.eqb (CandidateClip.src a) (CandidateClip.src b)) then false
  else
    let start_diff := Qabs (CandidateClip.start a - CandidateClip.start b) in
    let end_diff := Qabs (CandidateClip.end_ a - CandidateClip.end_ b) in
    Qleb start_diff tolerance && Qleb end_diff tolerance.

(** The order of [sorted(..., key=lambda c: c.score, reverse=True)]:
    [a] goes before [b] when its score is strictly larger; equal scores
    keep their order. *)
Definition score_desc (a b : CandidateClip.t) : bool :=
  Qltb (CandidateClip.score b) (CandidateClip.score a).

(** One iteration of the loop of [_merge_similar_candidates]. *)
Definition merge_step (tolerance : Q) (result : list CandidateClip.t) (cand : CandidateClip.t)
  : list CandidateClip.t :=
  if existsb (fun existing => _overlaps cand existing tolerance) result
  then result
  else result ++ [cand].

Definition _merge_similar_candidates (candidates : list CandidateClip.t) (tolerance : Q)
  : list CandidateClip.t :=
  fold_left (merge_step tolerance) (py_sorted score_desc candidates) [].

(** The prefix of [s] before the first [d], if [d] occurs. *)
Fixpoint prefix_before (d : ascii) (s : string) : option string :=
  match s with
  | EmptyString => None
  | String c r =>
      if Ascii.eqb c d then Some EmptyString
      else match prefix_before d r with
           | Some p => Some (String c p)
           | None => None
           end
  end.

Definition _infer_camera_label (path : Path) : string :=
  let stem := path_stem path in
  match prefix_before "_" stem with
  | Some p => p
  | None =>
      match prefix_before "-" stem with
      | Some p => p
      | None =>
          match prefix_before " " stem with
          | Some p => p
          | None => stem
          end
      end
  end.





Section Combine.
(** [_probe_duration]: the external duration probe. *)
Variable _probe_duration : Path -> Q.


End Combine.

(* ===================================================================== *)
(** * mini/selection/select.py                                            *)
(* ===================================================================== *)

(** [_passes_overlap_check(cand, selected, tolerance)]. *)
Fixpoint _passes_overlap_check (cand : CandidateClip.t) (selected : list Segment.t)
    (tolerance : Q) : bool :=
  match selected with
  | [] => true
  | seg :: rest =>
      if negb (String.eqb (Segment.src seg) (CandidateClip.src cand))
      then _passes_overlap_check cand rest tolerance
      else
        let overlap :=
          py_min (Segment.end_ seg) (CandidateClip.end_ cand)
          - py_max (Segment.start seg) (CandidateClip.start cand) in
        if Qltb tolerance overlap then false
        else _passes_overlap_check cand rest tolerance
  end.

(** The metadata both [select_segments] and [_empty_edl] attach. *)
Definition run_metadata (config : Config.t) : list (string * pyval) :=
  [("target_range", PList (map PFloat (Config.target_range config)));
   ("deliverables", PList (map PStr (Config.deliverables config)))].

Definition edl_of (config : Config.t) (segments : list Segment.t) : EDL.t :=
  EDL.mk (Config.project config) (Config.variant config) (Config.seed config)
         (Config.max_duration config) (Config.clip_min config) (Config.clip_max config)
         segments (run_metadata config).

Definition _empty_edl (config : Config.t) : EDL.t := edl_of config [].

(** The running totals of the selection loop.  [camera_usage] is a
    [defaultdict(float)]: a missing key reads as [0]. *)
Record loop_state : Type := mkState {
  selected : list Segment.t;
  total_duration : Q;
  camera_usage : gmap string Q;
  last_camera_time : gmap string Q
}.

Definition usage_of (st : loop_state) (camera : string) : Q :=
  default 0 (camera_usage st !! camera).

Inductive step_result : Type :=
| Continue (st : loop_state)
| Break (st : loop_state).

(** The tail of the loop body: build the segment ending at [cand_end],
    update the totals, and stop once the reel is full. *)
Definition accept (config : Config.t) (st : loop_state) (cand : CandidateClip.t)
    (camera : string) (cand_end : Q) : step_result :=
  let segment :=
    Segment.mk (CandidateClip.src cand)
               (py_round (CandidateClip.start cand) 3)
               (py_round cand_end 3)
               (CandidateClip.score cand)
               (py_sorted String.ltb (CandidateClip.tags cand))
               (Some camera) in
  let total := total_duration st + Segment.duration segment in
  let st' :=
    mkState (selected st ++ [segment])
            total
            (<[camera := usage_of st camera + Segment.duration segment]> (camera_usage st))
            (<[camera := Segment.start segment]> (last_camera_time st)) in
  if Qleb (Config.max_duration config - (1 # 100)) total then Break st' else Continue st'.

(** One iteration of [for cand in ordered]. *)
Definition select_step (config : Config.t) (st : loop_state) (cand : CandidateClip.t)
  : step_result :=
  let max_duration := Config.max_duration config in
  let duration := CandidateClip.duration cand in
  if Qltb duration (Config.clip_min config) || Qltb (Config.clip_max config) duration
  then Continue st
  else
    let camera := str_or (CandidateClip.camera cand) "unknown" in
    if negb (_passes_overlap_check cand (selected st) (1 # 4)) then Continue st
    else
      let max_camera_share :=
        DiversitySettings.max_per_cam_ratio (Config.diversity config) * max_duration in
      if Qltb (max_camera_share + (1 # 1000000)) (usage_of st camera + duration)
      then Continue st
      else
        if match last_camera_time st !! camera with
           | Some last_time =>
               Qltb (Qabs (CandidateClip.start cand - last_time))
                    (DiversitySettings.min_gap_same_cam (Config.diversity config))
           | None => false
           end
        then Continue st
        else
          if Qltb max_duration (total_duration st + duration) then
            let remaining := max_duration - total_duration st in
            if Qltb remaining (Config.clip_min config) then Break st
            else
              let duration := py_min3 duration remaining (Config.clip_max config) in
              accept config st cand camera (CandidateClip.start cand + duration)
          else accept config st cand camera (CandidateClip.end_ cand).

Fixpoint select_loop (config : Config.t) (st : loop_state) (ordered : list CandidateClip.t)
  : loop_state :=
  match ordered with
  | [] => st
  | cand :: rest =>
      match select_step config st cand with
      | Continue st' => select_loop config st' rest
      | Break st' => st'
      end
  end.

Definition initial_state : loop_state := mkState [] 0 ∅ ∅.

Record metrics : Type := mkMetrics {
  total_candidates : nat;
  selected_segments : nat;
  selected_duration : Q
}.

(** The sort keys of [_order_candidates]:
    [(-c.score, c.src, c.start, c.end)] and
    [(-item[0], item[1].src, item[1].start)]. *)
Definition key_plain_lt (a b : CandidateClip.t) : bool :=
  is_Lt (lex (- CandidateClip.score a ?= - CandidateClip.score b)
        (lex (String.compare (CandidateClip.src a) (CandidateClip.src b))
        (lex (CandidateClip.start a ?= CandidateClip.start b)
             (CandidateClip.end_ a ?= CandidateClip.end_ b)))).

Definition key_jittered_lt (a b : Q * CandidateClip.t) : bool :=
  is_Lt (lex (- fst a ?= - fst b)
        (lex (String.compare (CandidateClip.src (snd a)) (CandidateClip.src (snd b)))
             (CandidateClip.start (snd a) ?= CandidateClip.start (snd b)))).

Section Select.
(** The seeded generator: [Random seed] is [random.Random(seed)] and
    [random s] is one call of [rng.random()], returning the draw and the
    generator's next state. *)
Variable rng_state : Type.
Variable Random : Z -> rng_state.
Variable random : rng_state -> Q * rng_state.

(** The loop of [_order_candidates] that pairs every candidate with its
    jittered score, one draw per candidate, in order. *)
Fixpoint jitter_all (ordered : list CandidateClip.t) (rng : rng_state)
  : list (Q * CandidateClip.t) * rng_state :=
  match ordered with
  | [] => ([], rng)
  | cand :: rest =>
      let '(u, rng1) := random rng in
      let jitter := u * (1 # 1000000) in
      let '(jittered, rng2) := jitter_all rest rng1 in
      ((CandidateClip.score cand + jitter, cand) :: jittered, rng2)
  end.

Definition _order_candidates (candidates : list CandidateClip.t) (rng : rng_state)
  : list CandidateClip.t :=
  let ordered := py_sorted key_plain_lt candidates in
  let jittered := fst (jitter_all ordered rng) in
  map snd (py_sorted key_jittered_lt jittered).

Definition select_segments (candidates_by_src : list (string * list CandidateClip.t))
    (config : Config.t) : EDL.t * metrics :=
  let rng := Random (Config.seed config) in
  let all_candidates := flat_map snd candidates_by_src in
  match all_candidates with
  | [] => (_empty_edl config, mkMetrics 0 0 0)
  | _ :: _ =>
      let ordered := _order_candidates all_candidates rng in
      let st := select_loop config initial_state ordered in
      (edl_of config (selected st),
       mkMetrics (length all_candidates) (length (selected st))
                 (py_round (total_duration st) 3))
  end.
End Select.

(* ===================================================================== *)
(** * mini/render/ffmpeg_cmd.py                                           *)
(* ===================================================================== *)

Definition ASPECT_DIMENSIONS : gmap string (Z * Z) :=
  list_to_map [("9:16", (1080, 1920)%Z); ("1:1", (1080, 1080)%Z); ("16:9", (1920, 1080)%Z)].

(** The output stub, split by [pathlib] into [with_suffix('')] and [suffix]. *)
Record OutputStub : Type := mkStub {
  stub_base : string;
  stub_suffix : string
}.

Fixpoint replace_char (a b : ascii) (s : string) : string :=
  match s with
  | EmptyString => EmptyString
  | String c r => String (if Ascii.eqb c a then b else c) (replace_char a b r)
  end.

Definition _derive_output_path (stub : OutputStub) (ratio : string) : string :=
  let suffix := match stub_suffix stub with
                | EmptyString => ".mp4"
                | String c r => String c r
                end in
  stub_base stub +:+ "_" +:+ replace_char ":" "x" ratio +:+ suffix.

(** The per-segment dictionary [{"src_index", "in", "out"}]. *)
Module SegmentPayload.
Record t : Type := mk {
  src_index : Z;
  in_ : Q;
  out : Q
}.
End SegmentPayload.

(** The entries of [lines]: one constructor per f-string of
    [build_filter_complex], carrying the values substituted into it. *)
Inductive filter_line : Type :=
| FSetsar (idx : Z) (base_v : string)
| FSplit (base_v : string) (count : nat) (v_labels : list string)
| FAresample (idx : Z) (base_a : string)
| FAsplit (base_a : string) (count : nat) (a_labels : list string)
| FTrim (v_branch : string) (start end_ : Q) (trim_label : string)
| FScale (trim_label scale_expr : string) (idx : nat)
| FAtrim (a_branch : string) (start end_ : Q) (idx : nat)
| FSilence (duration : Q) (idx : nat)
| FConcat (concat_inputs : list string) (n : nat)
| FOverlay (logo_idx : Z) (pos_x pos_y : string)
| FFormat (video_out : string)
| FLoudnorm
| FAnorm.

(** [''.join(f"[{label}]" for label in labels)]. *)
Definition split_expr (labels : list string) : string :=
  String.concat EmptyString (map (fun label => "[" +:+ label +:+ "]") labels).

(** The text of each f-string. *)
Definition render_line (l : filter_line) : string :=
  match l with
  | FSetsar idx base_v => "[" +:+ str_of_Z idx +:+ ":v]setsar=1[" +:+ base_v +:+ "]"
  | FSplit base_v count v_labels =>
      "[" +:+ base_v +:+ "]split=" +:+ str_of_nat count +:+ split_expr v_labels
  | FAresample idx base_a =>
      "[" +:+ str_of_Z idx +:+ ":a]aresample=48000,aformat=channel_layouts=stereo["
          +:+ base_a +:+ "]"
  | FAsplit base_a count a_labels =>
      "[" +:+ base_a +:+ "]asplit=" +:+ str_of_nat count +:+ split_expr a_labels
  | FTrim v_branch start end_ trim_label =>
      "[" +:+ v_branch +:+ "]trim=start=" +:+ format_3f start +:+ ":end=" +:+ format_3f end_
          +:+ ",setpts=PTS-STARTPTS[" +:+ trim_label +:+ "]"
  | FScale trim_label scale_expr idx =>
      "[" +:+ trim_label +:+ "]" +:+ scale_expr +:+ ",setsar=1[v" +:+ str_of_nat idx +:+ "]"
  | FAtrim a_branch start end_ idx =>
      "[" +:+ a_branch +:+ "]atrim=start=" +:+ format_3f start +:+ ":end=" +:+ format_3f end_
          +:+ ",asetpts=PTS-STARTPTS[a" +:+ str_of_nat idx +:+ "]"
  | FSilence duration idx =>
      "anullsrc=r=48000:cl=stereo,atrim=duration=" +:+ format_3f duration
          +:+ ",asetpts=PTS-STARTPTS[a" +:+ str_of_nat idx +:+ "]"
  | FConcat concat_inputs n =>
      String.concat EmptyString concat_inputs
          +:+ "concat=n=" +:+ str_of_nat n +:+ ":v=1:a=1[vcat][acat]"
  | FOverlay logo_idx pos_x pos_y =>
      "[vcat][" +:+ str_of_Z logo_idx +:+ "]overlay=x=" +:+ pos_x +:+ ":y=" +:+ pos_y
          +:+ ":format=auto[vo]"
  | FFormat video_out => video_out +:+ "format=yuv420p[vout]"
  | FLoudnorm => "[acat]loudnorm=I=-14:TP=-1.0:LRA=11[aout]"
  | FAnorm => "[acat]anorm=2[aout]"
  end.

Definition is_concat (l : filter_line) : bool :=
  match l with FConcat _ _ => true | _ => false end.

Definition lower_ascii (c : ascii) : ascii :=
  let n := nat_of_ascii c in
  if (65 <=? n)%nat && (n <=? 90)%nat then ascii_of_nat (n + 32) else c.

Fixpoint lower (s : string) : string :=
  match s with
  | EmptyString => EmptyString
  | String c r => String (lower_ascii c) (lower r)
  end.

Definition _logo_coordinates (safe_area : Q) (corner : string) : string * string :=
  let safe := py_max 0 (py_min 1 (if Qeq_bool safe_area 0 then 8 # 10 else safe_area)) in
  let margin := (1 - safe) / 2 in
  let left := "(main_w*" +:+ format_3f margin +:+ ")" in
  let right := "(main_w*(1-" +:+ format_3f margin +:+ ") - overlay_w)" in
  let top := "(main_h*" +:+ format_3f margin +:+ ")" in
  let bottom := "(main_h*(1-" +:+ format_3f margin +:+ ") - overlay_h)" in
  let corner := lower (match corner with
                       | EmptyString => "bottom_right"
                       | String c r => String c r
                       end) in
  if String.eqb corner "bottom_left" then (left, bottom)
  else if String.eqb corner "top_right" then (right, top)
  else if String.eqb corner "top_left" then (left, top)
  else (right, bottom).

(** [range(n)] over Python integers. *)
Definition py_range (n : Z) : list Z := map Z.of_nat (seq 0 (Z.to_nat n)).

(** [Counter(int(seg["src_index"]) for seg in segments).get(idx, 0)]. *)
Definition usage_count (segments : list SegmentPayload.t) (idx : Z) : nat :=
  length (List.filter (fun seg => (SegmentPayload.src_index seg =? idx)%Z) segments).

(** [[f"{prefix}{idx}b{n}" for n in range(count)]], or the base label alone
    when the source is used once. *)
Definition branch_labels (prefix : string) (idx : Z) (count : nat) : list string :=
  if (1 <? count)%nat
  then map (fun n => prefix +:+ str_of_Z idx +:+ "b" +:+ str_of_nat n) (seq 0 count)
  else [prefix +:+ str_of_Z idx +:+ "base"].

(** State of the first loop: the lines and the two branch tables. *)
Record branch_state : Type := mkBranches {
  b_lines : list filter_line;
  video_branches : gmap Z (list string);
  audio_branches : gmap Z (list string)
}.

(** One iteration of [for idx in range(inputs_count)]. *)
Definition branch_step (segments : list SegmentPayload.t) (audio_flags : gmap Z bool)
    (st : branch_state) (idx : Z) : branch_state :=
  let count := usage_count segments idx in
  match count with
  | O => st
  | S _ =>
      let base_v := "v" +:+ str_of_Z idx +:+ "base" in
      let lines := b_lines st ++ [FSetsar idx base_v] in
      let v_labels := branch_labels "v" idx count in
      let lines := if (1 <? count)%nat then lines ++ [FSplit base_v count v_labels] else lines in
      let vb := <[idx := v_labels]> (video_branches st) in
      if default true (audio_flags !! idx) then
        let base_a := "a" +:+ str_of_Z idx +:+ "base" in
        let lines := lines ++ [FAresample idx base_a] in
        let a_labels := branch_labels "a" idx count in
        let lines := if (1 <? count)%nat then lines ++ [FAsplit base_a count a_labels] else lines in
        mkBranches lines vb (<[idx := a_labels]> (audio_branches st))
      else mkBranches lines vb (<[idx := []]> (audio_branches st))
  end.

(** State of the second loop: lines, cursors and the concat inputs. *)
Record segment_state : Type := mkSegState {
  s_lines : list filter_line;
  video_cursor : gmap Z nat;
  audio_cursor : gmap Z nat;
  concat_inputs : list string
}.

Definition scale_expr_of (width height : Z) : string :=
  let w := str_of_Z width in
  let h := str_of_Z height in
  "scale=iw*min(" +:+ w +:+ "/iw\," +:+ h +:+ "/ih):"
    +:+ "ih*min(" +:+ w +:+ "/iw\," +:+ h +:+ "/ih):flags=lanczos,"
    +:+ "pad=" +:+ w +:+ ":" +:+ h +:+ ":(max(" +:+ w +:+ "-iw\,0))/2:(max(" +:+ h
    +:+ "-ih\,0))/2:black".

(** [table[key][cursor[key]]], with the errors Python raises; [missing] is
    the message of the explicit [ValueError] for an absent or empty list. *)
Definition take_branch (table : gmap Z (list string)) (cursor : gmap Z nat)
    (src_idx : Z) (missing : string) : result string :=
  match table !! src_idx with
  | None | Some [] => Raise (ValueError missing)
  | Some branch_list =>
      match cursor !! src_idx with
      | None => Raise (KeyError (str_of_Z src_idx))
      | Some c =>
          match nth_error branch_list c with
          | Some branch => Ok branch
          | None => Raise (IndexError "list index out of range")
          end
      end
  end.

Definition bump (cursor : gmap Z nat) (src_idx : Z) : gmap Z nat :=
  <[src_idx := S (default O (cursor !! src_idx))]> cursor.

(** One iteration of [for idx, seg in enumerate(segments)]. *)
Definition segment_step (branches : branch_state) (audio_flags : gmap Z bool)
    (scale_expr : string) (synth_silence_for_missing_audio : bool)
    (st : segment_state) (idx : nat) (seg : SegmentPayload.t) : result segment_state :=
  let src_idx := SegmentPayload.src_index seg in
  let start := SegmentPayload.in_ seg in
  let end_ := SegmentPayload.out seg in
  let end_ := if Qltb end_ start then start else end_ in
  let duration := py_max 0 (end_ - start) in
  v_branch ← take_branch (video_branches branches) (video_cursor st) src_idx
                         "No video branches for input";
  let vc := bump (video_cursor st) src_idx in
  let trim_label := "vtrim" +:+ str_of_nat idx in
  let lines := s_lines st ++ [FTrim v_branch start end_ trim_label;
                              FScale trim_label scale_expr idx] in
  '(lines, ac) ←
    (if default true (audio_flags !! src_idx) then
       a_branch ← take_branch (audio_branches branches) (audio_cursor st) src_idx
                              "No audio branches for input";
       Ok (lines ++ [FAtrim a_branch start end_ idx], bump (audio_cursor st) src_idx)
     else if synth_silence_for_missing_audio then
       Ok (lines ++ [FSilence duration idx], audio_cursor st)
     else Raise (ValueError "Input has no audio and silence synthesis disabled"));
  Ok (mkSegState lines vc ac
        (concat_inputs st ++ ["[v" +:+ str_of_nat idx +:+ "][a" +:+ str_of_nat idx +:+ "]"])).

Fixpoint segment_loop (branches : branch_state) (audio_flags : gmap Z bool)
    (scale_expr : string) (synth : bool)
    (st : segment_state) (idx : nat) (segments : list SegmentPayload.t)
  : result segment_state :=
  match segments with
  | [] => Ok st
  | seg :: rest =>
      st' ← segment_step branches audio_flags scale_expr synth st idx seg;
      segment_loop branches audio_flags scale_expr synth st' (S idx) rest
  end.

(** [source_audio or {i: True for i in range(inputs_count)}]. *)
Definition audio_flags_of (source_audio : option (gmap Z bool)) (inputs_count : Z)
  : gmap Z bool :=
  let all_true := list_to_map (map (fun i => (i, true)) (py_range inputs_count)) in
  match source_audio with
  | None => all_true
  | Some m => if decide (m = ∅) then all_true else m
  end.

(** The [lines] list of [build_filter_complex] at its [return]. *)
Definition build_filter_lines (segments : list SegmentPayload.t) (inputs_count : Z)
    (logo_idx : option Z) (width height : Z) (source_audio : option (gmap Z bool))
    (logo_corner : string) (logo_safe_area : Q) (loudnorm synth : bool)
  : result (list filter_line) :=
  let audio_flags := audio_flags_of source_audio inputs_count in
  let branches :=
    fold_left (branch_step segments audio_flags) (py_range inputs_count)
              (mkBranches [] ∅ ∅) in
  let st0 := mkSegState (b_lines branches)
                        ((fun _ => O) <$> video_branches branches)
                        ((fun _ => O) <$> audio_branches branches) [] in
  st ← segment_loop branches audio_flags (scale_expr_of width height) synth st0 O segments;
  let lines := s_lines st ++ [FConcat (concat_inputs st) (length segments)] in
  let '(lines, video_out) :=
    match logo_idx with
    | Some li =>
        let '(pos_x, pos_y) := _logo_coordinates logo_safe_area logo_corner in
        (lines ++ [FOverlay li pos_x pos_y], "[vo]")
    | None => (lines, "[vcat]")
    end in
  let lines := lines ++ [FFormat video_out] in
  Ok (lines ++ [if loudnorm then FLoudnorm else FAnorm]).

Definition build_filter_complex (segments : list SegmentPayload.t) (inputs_count : Z)
    (logo_idx : option Z) (width height : Z) (source_audio : option (gmap Z bool))
    (logo_corner : string) (logo_safe_area : Q) (loudnorm synth : bool)
  : result (string * string * string) :=
  lines ← build_filter_lines segments inputs_count logo_idx width height source_audio
                             logo_corner logo_safe_area loudnorm synth;
  Ok (String.concat ";" (map render_line lines), "[vout]", "[aout]").

(** [list(dict.fromkeys(l))]: the distinct elements in first-appearance order. *)
Definition ordered_distinct (l : list string) : list string :=
  fold_left (fun acc x => if existsb (String.eqb x) acc then acc else acc ++ [x]) l [].

Section Render.
(** External collaborators: the audio-presence probe, the file system,
    the text [str(Path(text))] that pathlib gives back for a path built
    from [text] (a leading [./], doubled separators and a trailing
    separator are dropped, depending on the platform), and the executable
    lookup. *)
Variable _has_audio_stream : string -> bool.
Variable path_exists : string -> bool.
Variable str_of_Path : string -> string.
Variable _ffmpeg_executable : string.

Definition _build_single_command (edl : EDL.t) (branding : BrandingSettings.t)
    (segments : list Segment.t) (width height : Z) (output_path : string)
  : result (list string) :=
  let ordered_sources := ordered_distinct (map Segment.src segments) in
  let input_map : gmap string Z :=
    list_to_map (imap (fun idx src => (src, Z.of_nat idx)) ordered_sources) in
  let input_args := flat_map (fun src => ["-i"; src]) ordered_sources in
  let '(logo_index, input_args) :=
    match BrandingSettings.logo_path branding with
    | Some (String c r) =>
        let logo_path := str_of_Path (String c r) in
        if path_exists logo_path
        then (Some (Z.of_nat (length ordered_sources)), input_args ++ ["-i"; logo_path])
        else (None, input_args)
    | _ => (None, input_args)
    end in
  audio_presence ←
    mapM (fun src => match input_map !! src with
                     | Some idx => Ok (idx, _has_audio_stream src)
                     | None => Raise (KeyError src)
                     end) ordered_sources;
  segment_payload ←
    mapM (fun seg => match input_map !! Segment.src seg with
                     | Some idx => Ok (SegmentPayload.mk idx (Segment.start seg)
                                                         (Segment.end_ seg))
                     | None => Raise (KeyError (Segment.src seg))
                     end) segments;
  '(filter_complex, video_label, audio_label) ←
    build_filter_complex segment_payload (Z.of_nat (length ordered_sources)) logo_index
      width height (Some (list_to_map audio_presence))
      (BrandingSettings.logo_corner branding) (BrandingSettings.safe_area branding)
      true true;
  Ok ([_ffmpeg_executable; "-y"] ++ input_args
      ++ ["-filter_complex"; filter_complex; "-map"; video_label; "-map"; audio_label;
          "-c:v"; "libx264"; "-preset"; "veryfast"; "-crf"; "18"; "-c:a"; "aac";
          "-b:a"; "192k"; "-movflags"; "+faststart"; "-r"; "30"; output_path]).

(** One iteration of [for ratio in config.deliverables]. *)
Definition command_step (edl : EDL.t) (config : Config.t) (output_stub : OutputStub)
    (commands : gmap string (list string)) (ratio : string)
  : result (gmap string (list string)) :=
  match ASPECT_DIMENSIONS !! ratio with
  | None => Ok commands
  | Some dims =>
      let output_path := _derive_output_path output_stub ratio in
      cmd ← _build_single_command edl (Config.branding config) (EDL.segments edl)
                                  (fst dims) (snd dims) output_path;
      Ok (<[ratio := cmd]> commands)
  end.

Fixpoint command_loop (edl : EDL.t) (config : Config.t) (output_stub : OutputStub)
    (commands : gmap string (list string)) (ratios : list string)
  : result (gmap string (list string)) :=
  match ratios with
  | [] => Ok commands
  | ratio :: rest =>
      commands' ← command_step edl config output_stub commands ratio;
      command_loop edl config output_stub commands' rest
  end.

Definition build_commands (edl : EDL.t) (config : Config.t) (output_stub : OutputStub)
  : result (gmap string (list string)) :=
  match EDL.segments edl with
  | [] => Raise (ValueError "EDL contains no segments to render")
  | _ :: _ => command_loop edl config output_stub ∅ (Config.deliverables config)
  end.
End Render.

(* ===================================================================== *)
(** * Vocabulary of the statements                                        *)
(* ===================================================================== *)

(** The multiples of one millisecond. *)
Definition on_grid (q : Q) : Prop := exists z : Z, q == z # 1000.

(** A segment as it reads back from its serialized form: timestamps at
    three decimals, score at four. *)
Definition round_segment (seg : Segment.t) : Segment.t :=
  Segment.mk (Segment.src seg)
             (py_round (Segment.start seg) 3)
             (py_round (Segment.end_ seg) 3)
             (py_round (Segment.score seg) 4)
             (Segment.tags seg)
             (Segment.camera seg).

Definition with_segments (edl : EDL.t) (segments : list Segment.t) : EDL.t :=
  EDL.mk (EDL.project edl) (EDL.variant edl) (EDL.seed edl) (EDL.max_duration edl)
         (EDL.clip_min edl) (EDL.clip_max edl) segments (EDL.metadata edl).


(** Two candidates are near-duplicates: same source, starts within the
    tolerance and ends within the tolerance. *)
Definition near_duplicate (tolerance : Q) (a b : CandidateClip.t) : Prop :=
  CandidateClip.src a = CandidateClip.src b
  /\ Qabs (CandidateClip.start a - CandidateClip.start b) <= tolerance
  /\ Qabs (CandidateClip.end_ a - CandidateClip.end_ b) <= tolerance.








(** The per-camera cap of the selector. *)
Definition camera_cap (config : Config.t) : Q :=
  DiversitySettings.max_per_cam_ratio (Config.diversity config) * Config.max_duration config
  + (1 # 1000000).


(** The segment [select_segments] appends for [cand] when it ends the clip
    at [cand_end], and the loop state after appending a segment. *)
Definition accepted_segment (cand : CandidateClip.t) (cand_end : Q) : Segment.t :=
  Segment.mk (CandidateClip.src cand)
             (py_round (CandidateClip.start cand) 3)
             (py_round cand_end 3)
             (CandidateClip.score cand)
             (py_sorted String.ltb (CandidateClip.tags cand))
             (Some (str_or (CandidateClip.camera cand) "unknown")).

Definition accepted_state (st : loop_state) (seg : Segment.t) (camera : string) : loop_state :=
  mkState (selected st ++ [seg])
          (total_duration st + Segment.duration seg)
          (<[camera := usage_of st camera + Segment.duration seg]> (camera_usage st))
          (<[camera := Segment.start seg]> (last_camera_time st)).

(** The conditions under which the loop body accepts [cand], ending it at
    [cand_end]: whole when it fits the remaining budget, trimmed to
    [min(duration, remaining, clip_max)] otherwise. *)
Definition acceptable (config : Config.t) (st : loop_state) (cand : CandidateClip.t)
    (cand_end : Q) : Prop :=
  let duration := CandidateClip.duration cand in
  let remaining := Config.max_duration config - total_duration st in
  Config.clip_min config <= duration
  /\ duration <= Config.clip_max config
  /\ _passes_overlap_check cand (selected st) (1 # 4) = true
  /\ usage_of st (str_or (CandidateClip.camera cand) "unknown") + duration
     <= camera_cap config
  /\ ((cand_end = CandidateClip.end_ cand
       /\ total_duration st + duration <= Config.max_duration config)
      \/ (cand_end = CandidateClip.start cand
                      + py_min3 duration remaining (Config.clip_max config)
          /\ Config.max_duration config < total_duration st + duration
          /\ Config.clip_min config <= remaining)).


Definition segment_on_grid (seg : Segment.t) : Prop :=
  on_grid (Segment.start seg) /\ on_grid (Segment.end_ seg).




(** The label pair segment [idx] feeds to the concatenation. *)
Definition pair_label (idx : nat) : string :=
  "[v" +:+ str_of_nat idx +:+ "][a" +:+ str_of_nat idx +:+ "]".

(** How many of the first [i] segments use source [src]. *)
Definition uses_before (segments : list SegmentPayload.t) (i : nat) (src : Z) : nat :=
  usage_count (firstn i segments) src.

(** The end of the trim of a segment: never before its start. *)
Definition trim_end (seg : SegmentPayload.t) : Q :=
  if Qltb (SegmentPayload.out seg) (SegmentPayload.in_ seg)
  then SegmentPayload.in_ seg
  else SegmentPayload.out seg.

(** The branch tables the first loop of [build_filter_complex] leaves. *)
Definition branches_of (segments : list SegmentPayload.t) (audio_flags : gmap Z bool)
    (inputs_count : Z) : branch_state :=
  fold_left (branch_step segments audio_flags) (py_range inputs_count) (mkBranches [] ∅ ∅).

(** The lines segment [i] owns in the graph: its trim, on the branch of
    its source numbered by the earlier segments of that source, its scale,
    and its audio trim on the audio branch of the same number (silence when
    the source has no audio). *)
Definition segment_lines (segments : list SegmentPayload.t) (audio_flags : gmap Z bool)
    (scale_expr : string) (i : nat) (seg : SegmentPayload.t) (lines : list filter_line)
  : Prop :=
  let src := SegmentPayload.src_index seg in
  let start := SegmentPayload.in_ seg in
  let count := usage_count segments src in
  let nth_use := uses_before segments i src in
  (exists v_branch,
      nth_error (branch_labels "v" src count) nth_use = Some v_branch
      /\ In (FTrim v_branch start (trim_end seg) ("vtrim" +:+ str_of_nat i)) lines)
  /\ In (FScale ("vtrim" +:+ str_of_nat i) scale_expr i) lines
  /\ (if default true (audio_flags !! src)
      then exists a_branch,
             nth_error (branch_labels "a" src count) nth_use = Some a_branch
             /\ In (FAtrim a_branch start (trim_end seg) i) lines
      else In (FSilence (py_max 0 (trim_end seg - start)) i) lines).

(** A linear congruential generator, standing for the seeded generator in
    the concrete runs below. *)
Definition fx_Random (seed : Z) : Z := seed.
Definition fx_random (s : Z) : Q * Z :=
  let s' := ((s * 1103515245 + 12345) mod 2147483648)%Z in
  (s' # 2147483648, s').

(** ** Fixtures, from [tests/test_pipeline.py] and [tests/test_ffmpeg_graph.py] *)

Definition fx_high : CandidateClip.t :=
  CandidateClip.mk "camA.mp4" 0 3 (9 # 10) ["audio_peak"] (Some "camA").
Definition fx_low : CandidateClip.t :=
  CandidateClip.mk "camA.mp4" (1 # 10) (31 # 10) (4 # 10) ["audio_peak"] (Some "camA").



Definition fx_path : Path := mkPath "camA_take1.mp4" "camA_take1".

(** The configuration of the tests' [base_config]. *)
Definition fx_base_config : Config.t :=
  Config.mk "Event_Recap" "deterministic" 42 12 1 4 [2; 35 # 10]
            DEFAULT_WEIGHTS (DiversitySettings.mk 1 (1 # 2)) BrandingSettings.default ["9:16"].




(** The segments of [test_concat_pairs_and_loudnorm]. *)
Definition fx_payload : list SegmentPayload.t :=
  [SegmentPayload.mk 0 1 2; SegmentPayload.mk 1 3 4; SegmentPayload.mk 0 5 6].

(** The EDL of [test_ffmpeg_filter_complex_contains_all_trims], and a
    configuration that also asks for a ratio the dimension table lacks. *)
Definition fx_edl : EDL.t :=
  EDL.mk "Event_Recap" "deterministic" 42 60 1 4
         [Segment.mk "camA.mp4" 0 (25 # 10) (8 # 10) ["motion"] (Some "camA");
          Segment.mk "camB.mp4" 5 8 (7 # 10) ["faces"] (Some "camB")] [].
Definition fx_config_two_ratios : Config.t :=
  Config.mk "Event_Recap" "deterministic" 42 12 1 4 [2; 35 # 10]
            DEFAULT_WEIGHTS (DiversitySettings.mk 1 (1 # 2)) BrandingSettings.default
            ["9:16"; "4:3"].
Definition fx_stub : OutputStub := mkStub "output" ".mp4".

(** Two candidates of one source that both fit the reel. *)
Definition fx_clip_early : CandidateClip.t :=
  CandidateClip.mk "camA.mp4" 0 3 (9 # 10) ["motion"] (Some "camA").
Definition fx_clip_late : CandidateClip.t :=
  CandidateClip.mk "camA.mp4" (29 # 10) (59 # 10) (8 # 10) ["motion"] (Some "camA").


(** A segment built from a candidate the way the selector builds it: same
    source and score, start rounded, tags sorted, camera defaulted, and a
    span that is the candidate's, rounded, or a trimmed part of it. *)
Definition built_from (config : Config.t) (seg : Segment.t) (cand : CandidateClip.t) : Prop :=
  Segment.src seg = CandidateClip.src cand
  /\ Segment.score seg = CandidateClip.score cand
  /\ Segment.start seg = py_round (CandidateClip.start cand) 3
  /\ Segment.tags seg = py_sorted String.ltb (CandidateClip.tags cand)
  /\ Segment.camera seg = Some (str_or (CandidateClip.camera cand) "unknown")
  /\ Config.clip_min config <= CandidateClip.duration cand
  /\ CandidateClip.duration cand <= Config.clip_max config
  /\ Segment.duration seg <= CandidateClip.duration cand + (1 # 1000).

(** The character [d] occurs in [s]. *)
Definition occurs (d : ascii) (s : string) : Prop := In d (list_ascii_of_string s).

(** A segment the second loop of [build_filter_complex] can process: its
    input index is in range, and its source has audio or silence may be
    synthesised. *)
Definition renderable (audio_flags : gmap Z bool) (inputs_count : Z) (synth : bool)
    (seg : SegmentPayload.t) : bool :=
  let src := SegmentPayload.src_index seg in
  (0 <=? src)%Z && (src <? inputs_count)%Z && (default true (audio_flags !! src) || synth).

(* ===================================================================== *)
(** * mini/render/shotstack.py                                            *)
(* ===================================================================== *)

Definition _primary_resolution (config : Config.t) : string :=
  let deliverable := match Config.deliverables config with
                     | d :: _ => d
                     | [] => "9:16"
                     end in
  let mapping : gmap string string :=
    list_to_map [("9:16", "vertical"); ("1:1", "square"); ("16:9", "hd")] in
  default "vertical" (mapping !! deliverable).

Definition _build_logo_overlay (branding : BrandingSettings.t) (total_length : Q)
  : option pyval :=
  match BrandingSettings.logo_path branding with
  | Some (String c r) =>
      Some (PDict
              [("asset", PDict [("type", PStr "image"); ("src", PStr (String c r));
                                ("fit", PStr "contain")]);
               ("length", PFloat (py_round total_length 3));
               ("start", PFloat 0);
               ("position",
                PStr (str_or (Some (BrandingSettings.logo_corner branding)) "bottom_right"))])
  | _ => None
  end.

(** The dictionary appended to [clips] for [segment] when the cursor stands
    at [cursor]. *)
Definition shotstack_clip (segment : Segment.t) (cursor : Q) : pyval :=
  PDict
    [("asset", PDict [("type", PStr "video"); ("src", PStr (Segment.src segment));
                      ("trim", PFloat (py_round (Segment.start segment) 3))]);
     ("length", PFloat (py_round (Segment.duration segment) 3));
     ("start", PFloat (py_round cursor 3))].

(** One iteration of [for segment in edl.segments], on [(clips, cursor)]. *)
Definition clip_step (st : list pyval * Q) (segment : Segment.t) : list pyval * Q :=
  let duration := Segment.duration segment in
  (fst st ++ [shotstack_clip segment (snd st)], snd st + duration).

Definition build_shotstack_timeline (edl : EDL.t) (config : Config.t) : pyval :=
  let '(clips, cursor) := fold_left clip_step (EDL.segments edl) ([], 0) in
  let tracks := [PDict [("clips", PList clips)]] in
  let overlay := _build_logo_overlay (Config.branding config) cursor in
  let tracks := match overlay with
                | Some o => tracks ++ [PDict [("clips", PList [o])]]
                | None => tracks
                end in
  PDict
    [("timeline",
      PDict [("background", PStr "#000000");
             ("soundtrack",
              PDict [("src", PStr (match EDL.segments edl with
                                   | s :: _ => Segment.src s
                                   | [] => EmptyString
                                   end));
                     ("effect", PStr "fade")]);
             ("tracks", PList tracks)]);
     ("output", PDict [("format", PStr "mp4");
                       ("resolution", PStr (_primary_resolution config))])].

(** Reading a payload: [v[k]] on a dictionary, [v[i]] on a list, and the
    number a value holds. *)
Definition item (v : pyval) (k : string) : option pyval :=
  match v with PDict d => dict_get d k | _ => None end.

Definition element (v : pyval) (i : nat) : option pyval :=
  match v with PList l => nth_error l i | _ => None end.

Definition number (v : pyval) : option Q :=
  match v with
  | PFloat q => Some q
  | PInt z => Some (inject_Z z)
  | _ => None
  end.

(** [payload["timeline"]["tracks"][n]["clips"]]. *)
Definition track_clips (payload : pyval) (n : nat) : option (list pyval) :=
  timeline ← item payload "timeline";
  tracks ← item timeline "tracks";
  track ← element tracks n;
  clips ← item track "clips";
  match clips with PList l => Some l | _ => None end.

(** The readings of one video clip: source, trim, start and length. *)
Definition clip_reading (clip : pyval) : option (string * Q * Q * Q) :=
  asset ← item clip "asset";
  src ← item asset "src";
  trim ← item asset "trim" ≫= number;
  start ← item clip "start" ≫= number;
  len ← item clip "length" ≫= number;
  match src with PStr s => Some (s, trim, start, len) | _ => None end.

(** The sum of the durations of the first [i] segments. *)
Definition elapsed (segments : list Segment.t) (i : nat) : Q :=
  fold_left (fun acc seg => acc + Segment.duration seg) (firstn i segments) 0.


(** The payload entry of a segment refers to the position of the segment's
    source in [sources]. *)
Definition refers_to (sources : list string) (seg : Segment.t) (p : SegmentPayload.t)
  : Prop :=
  (0 <= SegmentPayload.src_index p)%Z
  /\ nth_error sources (Z.to_nat (SegmentPayload.src_index p)) = Some (Segment.src seg)
  /\ SegmentPayload.in_ p = Segment.start seg
  /\ SegmentPayload.out p = Segment.end_ seg.

(** The encoder options every command ends with. *)
Definition encoder_args (graph output_path : string) : list string :=
  ["-filter_complex"; graph; "-map"; "[vout]"; "-map"; "[aout]";
   "-c:v"; "libx264"; "-preset"; "veryfast"; "-crf"; "18"; "-c:a"; "aac";
   "-b:a"; "192k"; "-movflags"; "+faststart"; "-r"; "30"; output_path].

(** The lines the first loop of [build_filter_complex] appends for input
    [idx]: none when no segment uses it. *)
Definition source_block (segments : list SegmentPayload.t) (audio_flags : gmap Z bool)
    (idx : Z) : list filter_line :=
  let count := usage_count segments idx in
  let base_v := "v" +:+ str_of_Z idx +:+ "base" in
  let base_a := "a" +:+ str_of_Z idx +:+ "base" in
  match count with
  | O => []
  | S _ =>
      [FSetsar idx base_v]
      ++ (if (1 <? count)%nat then [FSplit base_v count (branch_labels "v" idx count)] else [])
      ++ (if default true (audio_flags !! idx)
          then [FAresample idx base_a]
               ++ (if (1 <? count)%nat
                   then [FAsplit base_a count (branch_labels "a" idx count)] else [])
          else [])
  end.

(** A segment read back from its serialized form with nothing changed but
    the score, kept at four decimals. *)
Definition score_rounded (seg : Segment.t) : Segment.t :=
  Segment.mk (Segment.src seg) (Segment.start seg) (Segment.end_ seg)
             (py_round (Segment.score seg) 4) (Segment.tags seg) (Segment.camera seg).

(* ===================================================================== *)
(** * mini/analysis/audio.py                                              *)
(* ===================================================================== *)

(** [_local_peaks]: [values] is the array of frame energies, [values[i]]
    its entry [i]. *)
Definition _local_peaks (values : list Q) (threshold : Q) : list nat :=
  let value := fun i => nth i values 0 in
  let peaks :=
    List.filter
      (fun i => negb (Qltb (value i) threshold)
                && (Qleb (value (i - 1)%nat) (value i) && Qleb (value (i + 1)%nat) (value i)))
      (seq 1 (length values - 2)) in
  if (1 <? length peaks)%nat
  then py_sorted (fun i j => Qltb (value j) (value i)) peaks
  else peaks.



(** An EDL with one segment whose tags are not in alphabetical order. *)
Definition fx_edl_unsorted_tags : EDL.t :=
  EDL.mk "Event_Recap" "deterministic" 42 60 1 4
         [Segment.mk "camA.mp4" 0 (25 # 10) (8 # 10) ["motion"; "audio_peak"] (Some "camA")] [].

(** Alphabetical order of a tag sequence. *)
Definition alphabetical (tags : list string) : Prop :=
  StronglySorted (fun a b => String.ltb b a = false) tags.

(** What [to_dict] writes for a segment: the entry read field by field. *)
Definition serialized_as (seg : Segment.t) (entry : pyval) : Prop :=
  item entry "src" = Some (PStr (Segment.src seg))
  /\ item entry "in" = Some (PFloat (py_round (Segment.start seg) 3))
  /\ item entry "out" = Some (PFloat (py_round (Segment.end_ seg) 3))
  /\ item entry "score" = Some (PFloat (py_round (Segment.score seg) 4))
  /\ item entry "tags" = Some (PList (map PStr (Segment.tags seg)))
  /\ item entry "cam" = Some (match Segment.camera seg with
                              | Some c => PStr c
                              | None => PNone
                              end).

(** [sources] is in order of first use in [uses]: of two entries of
    [sources], the earlier one occurs in [uses] at a position up to which
    the later one does not occur. *)
Definition first_use_order (uses sources : list string) : Prop :=
  forall i j a b,
    (i < j)%nat ->
    nth_error sources i = Some a ->
    nth_error sources j = Some b ->
    exists k,
      nth_error uses k = Some a
      /\ forall k', (k' <= k)%nat -> nth_error uses k' <> Some b.

(** A branding with a logo whose configured path pathlib normalises. *)
Definition fx_branding_logo : BrandingSettings.t :=
  BrandingSettings.mk (Some "./logo.png") "bottom_right" 64 (8 # 10) None None None [].




(* ===================================================================== *)
(** * The text of a filter graph                                          *)
(* ===================================================================== *)

(** The parts of [s] between the occurrences of [sep]. *)
Fixpoint split_on (sep : ascii) (s : string) : list string :=
  match s with
  | EmptyString => [EmptyString]
  | String c r =>
      if Ascii.eqb c sep then EmptyString :: split_on sep r
      else match split_on sep r with
           | w :: ws => String c w :: ws
           | [] => [String c EmptyString]
           end
  end.

(** The statements of a graph text: its filter chains, which [;]
    separates. *)
Definition statements (graph : string) : list string := split_on ";" graph.

(** The text of a statement after its leading input pads [[label]]. *)
Fixpoint skip_pads (inside : bool) (s : string) : string :=
  match s with
  | EmptyString => EmptyString
  | String c r =>
      if inside then skip_pads (negb (Ascii.eqb c "]")) r
      else if Ascii.eqb c "[" then skip_pads true r
      else s
  end.

Definition filter_chain (statement : string) : string := skip_pads false statement.

(** The text [s] begins with [p]. *)
Fixpoint starts_with (p s : string) : bool :=
  match p, s with
  | EmptyString, _ => true
  | String a p', String b s' => Ascii.eqb a b && starts_with p' s'
  | String _ _, EmptyString => false
  end.

(** The first filter of a statement is [name]. *)
Definition is_filter (name statement : string) : bool :=
  starts_with (name +:+ "=") (filter_chain statement).

(** The first input pad of a statement is [label]. *)
Definition reads (label statement : string) : bool :=
  starts_with ("[" +:+ label +:+ "]") statement.

(** The pads [[l1][l2]...] of a sequence of labels. *)
Definition pads (labels : list string) : string :=
  fold_right (fun label rest => "[" +:+ label +:+ "]" +:+ rest) EmptyString labels.

(** The label of the base stream of input [src]. *)
Definition base_label (prefix : string) (src : Z) : string :=
  prefix +:+ str_of_Z src +:+ "base".

(** The label of branch [n] of input [src] used [count] times: the base
    stream itself when the input is used once, output [n] of its split
    otherwise. *)
Definition branch_label (prefix : string) (src : Z) (count n : nat) : string :=
  if (1 <? count)%nat then prefix +:+ str_of_Z src +:+ "b" +:+ str_of_nat n
  else base_label prefix src.

(** The statements of the graph, as texts. *)
Definition setsar_statement (src : Z) : string :=
  "[" +:+ str_of_Z src +:+ ":v]setsar=1[" +:+ base_label "v" src +:+ "]".

Definition split_statement (src : Z) (count : nat) : string :=
  "[" +:+ base_label "v" src +:+ "]" +:+ "split=" +:+ str_of_nat count
      +:+ pads (map (branch_label "v" src count) (seq 0 count)).

Definition aresample_statement (src : Z) : string :=
  "[" +:+ str_of_Z src +:+ ":a]aresample=48000,aformat=channel_layouts=stereo["
      +:+ base_label "a" src +:+ "]".

Definition asplit_statement (src : Z) (count : nat) : string :=
  "[" +:+ base_label "a" src +:+ "]" +:+ "asplit=" +:+ str_of_nat count
      +:+ pads (map (branch_label "a" src count) (seq 0 count)).

Definition trim_statement (branch : string) (seg : SegmentPayload.t) (i : nat) : string :=
  "[" +:+ branch +:+ "]" +:+ "trim=start=" +:+ format_3f (SegmentPayload.in_ seg)
      +:+ ":end=" +:+ format_3f (trim_end seg)
      +:+ ",setpts=PTS-STARTPTS[vtrim" +:+ str_of_nat i +:+ "]".

Definition scale_statement (width height : Z) (i : nat) : string :=
  "[" +:+ ("vtrim" +:+ str_of_nat i) +:+ "]" +:+ scale_expr_of width height
      +:+ ",setsar=1[v" +:+ str_of_nat i +:+ "]".

Definition atrim_statement (branch : string) (seg : SegmentPayload.t) (i : nat) : string :=
  "[" +:+ branch +:+ "]" +:+ "atrim=start=" +:+ format_3f (SegmentPayload.in_ seg)
      +:+ ":end=" +:+ format_3f (trim_end seg)
      +:+ ",asetpts=PTS-STARTPTS[a" +:+ str_of_nat i +:+ "]".

Definition silence_statement (seg : SegmentPayload.t) (i : nat) : string :=
  "anullsrc=r=48000:cl=stereo,atrim=duration="
    +:+ format_3f (py_max 0 (trim_end seg - SegmentPayload.in_ seg))
    +:+ ",asetpts=PTS-STARTPTS[a" +:+ str_of_nat i +:+ "]".

(** The concatenation of [n] video/audio pairs, in order. *)
Definition concat_statement (n : nat) : string :=
  pads (flat_map (fun i => ["v" +:+ str_of_nat i; "a" +:+ str_of_nat i]) (seq 0 n))
    +:+ "concat=n=" +:+ str_of_nat n +:+ ":v=1:a=1[vcat][acat]".

Definition overlay_statement (logo_idx : Z) (logo_corner : string) (logo_safe_area : Q)
  : string :=
  "[" +:+ "vcat" +:+ "]" +:+ "[" +:+ str_of_Z logo_idx +:+ "]" +:+ "overlay=x="
      +:+ fst (_logo_coordinates logo_safe_area logo_corner)
      +:+ ":y=" +:+ snd (_logo_coordinates logo_safe_area logo_corner)
      +:+ ":format=auto[vo]".

(** The branch a segment takes: the one numbered by the earlier segments
    of its source. *)
Definition branch_of (segments : list SegmentPayload.t) (prefix : string) (i : nat)
    (seg : SegmentPayload.t) : string :=
  let src := SegmentPayload.src_index seg in
  branch_label prefix src (usage_count segments src) (uses_before segments i src).

(** The audio statement of a segment: the trim of its audio branch, or
    silence when its source has no audio. *)
Definition audio_statement (segments : list SegmentPayload.t) (audio_flags : gmap Z bool)
    (i : nat) (seg : SegmentPayload.t) : string :=
  if default true (audio_flags !! SegmentPayload.src_index seg)
  then atrim_statement (branch_of segments "a" i seg) seg i
  else silence_statement seg i.

(** The statements of input [src], of segment [i], and of the output
    stages. *)
Definition source_statements (segments : list SegmentPayload.t) (audio_flags : gmap Z bool)
    (src : Z) : list string :=
  let count := usage_count segments src in
  match count with
  | O => []
  | S _ =>
      [setsar_statement src]
      ++ (if (1 <? count)%nat then [split_statement src count] else [])
      ++ (if default true (audio_flags !! src)
          then [aresample_statement src]
               ++ (if (1 <? count)%nat then [asplit_statement src count] else [])
          else [])
  end.

Definition segment_statements (segments : list SegmentPayload.t) (audio_flags : gmap Z bool)
    (width height : Z) (i : nat) (seg : SegmentPayload.t) : list string :=
  [trim_statement (branch_of segments "v" i seg) seg i;
   scale_statement width height i;
   audio_statement segments audio_flags i seg].

Fixpoint statements_from (segments : list SegmentPayload.t) (audio_flags : gmap Z bool)
    (width height : Z) (i : nat) (rest : list SegmentPayload.t) : list string :=
  match rest with
  | [] => []
  | seg :: rest =>
      segment_statements segments audio_flags width height i seg
      ++ statements_from segments audio_flags width height (S i) rest
  end.

Definition closing_statements (n : nat) (logo_idx : option Z) (logo_corner : string)
    (logo_safe_area : Q) (loudnorm : bool) : list string :=
  [concat_statement n]
  ++ match logo_idx with
     | Some li => [overlay_statement li logo_corner logo_safe_area;
                   "[vo]format=yuv420p[vout]"]
     | None => ["[vcat]format=yuv420p[vout]"]
     end
  ++ [if loudnorm then "[acat]loudnorm=I=-14:TP=-1.0:LRA=11[aout]" else "[acat]anorm=2[aout]"].

(** The lines the second loop of [build_filter_complex] appends for
    segment [i], and for the segments [rest] numbered from [i]. *)
Definition segment_block (segments : list SegmentPayload.t) (audio_flags : gmap Z bool)
    (scale_expr : string) (i : nat) (seg : SegmentPayload.t) : list filter_line :=
  [FTrim (branch_of segments "v" i seg) (SegmentPayload.in_ seg) (trim_end seg)
         ("vtrim" +:+ str_of_nat i);
   FScale ("vtrim" +:+ str_of_nat i) scale_expr i;
   if default true (audio_flags !! SegmentPayload.src_index seg)
   then FAtrim (branch_of segments "a" i seg) (SegmentPayload.in_ seg) (trim_end seg) i
   else FSilence (py_max 0 (trim_end seg - SegmentPayload.in_ seg)) i].

Fixpoint blocks_from (segments : list SegmentPayload.t) (audio_flags : gmap Z bool)
    (scale_expr : string) (i : nat) (rest : list SegmentPayload.t) : list filter_line :=
  match rest with
  | [] => []
  | seg :: rest =>
      segment_block segments audio_flags scale_expr i seg
      ++ blocks_from segments audio_flags scale_expr (S i) rest
  end.

(** The lines [build_filter_complex] appends after the second loop. *)
Definition closing_lines (n : nat) (logo_idx : option Z) (logo_corner : string)
    (logo_safe_area : Q) (loudnorm : bool) : list filter_line :=
  [FConcat (map pair_label (seq 0 n)) n]
  ++ match logo_idx with
     | Some li => [FOverlay li (fst (_logo_coordinates logo_safe_area logo_corner))
                            (snd (_logo_coordinates logo_safe_area logo_corner));
                   FFormat "[vo]"]
     | None => [FFormat "[vcat]"]
     end
  ++ [if loudnorm then FLoudnorm else FAnorm].

(** The characters of [s] are among those of [allowed]. *)
Definition only (allowed s : string) : bool :=
  forallb (fun c => existsb (Ascii.eqb c) (list_ascii_of_string allowed))
          (list_ascii_of_string s).

(** The characters of branch labels, those of pads, and those of graph
    texts. *)
Definition label_chars : string := "abesv-0123456789".
Definition pad_chars : string := "abcdefghijklmnopqrstuvwxyz:-0123456789".
Definition graph_chars : string :=
  "abcdefghijklmnopqrstuvwxyzABCDEFGHIJKLMNOPQRSTUVWXYZ0123456789[]:=,.-_*()/\ ".

(* ===================================================================== *)
(** * Properties                                                          *)
(* ===================================================================== *)

(* ===================================================================== *)
(** * Numbers                                                             *)
(* ===================================================================== *)

Lemma Qltb_lt (a b : Q) : Qltb a b = true <-> a < b.
Proof.
  unfold Qltb. rewrite Qlt_alt. destruct (a ?= b); split; congruence.
Qed.

Lemma Qltb_ge (a b : Q) : Qltb a b = false <-> b <= a.
Proof.
  rewrite <- not_true_iff_false, Qltb_lt. split; [apply Qnot_lt_le | apply Qle_not_lt].
Qed.

Lemma Qleb_le (a b : Q) : Qleb a b = true <-> a <= b.
Proof.
  unfold Qleb. rewrite Qle_alt. destruct (a ?= b); split; congruence.
Qed.

Lemma Qleb_gt (a b : Q) : Qleb a b = false <-> b < a.
Proof.
  rewrite <- not_true_iff_false, Qleb_le. split; [apply Qnot_le_lt | apply Qlt_not_le].
Qed.

Lemma Qltb_spec (a b : Q) : reflect (a < b) (Qltb a b).
Proof.
  destruct (Qltb a b) eqn:E; constructor.
  - now apply Qltb_lt.
  - apply Qle_not_lt. now apply Qltb_ge.
Qed.

Lemma Qleb_spec (a b : Q) : reflect (a <= b) (Qleb a b).
Proof.
  destruct (Qleb a b) eqn:E; constructor.
  - now apply Qleb_le.
  - apply Qlt_not_le. now apply Qleb_gt.
Qed.

(** Case analysis on [max] and [min]: which argument is returned. *)
Lemma py_max_case (a b : Q) :
  (a < b /\ py_max a b = b) \/ (b <= a /\ py_max a b = a).
Proof.
  unfold py_max. destruct (Qltb_spec a b); [left | right]; split; auto.
  now apply Qnot_lt_le.
Qed.

Lemma py_min_case (a b : Q) :
  (b < a /\ py_min a b = b) \/ (a <= b /\ py_min a b = a).
Proof.
  unfold py_min. destruct (Qltb_spec b a); [left | right]; split; auto.
  now apply Qnot_lt_le.
Qed.

Ltac case_max a b :=
  let H := fresh "Hmax" in let E := fresh "Emax" in
  destruct (py_max_case a b) as [[H E] | [H E]]; rewrite ?E in *.
Ltac case_min a b :=
  let H := fresh "Hmin" in let E := fresh "Emin" in
  destruct (py_min_case a b) as [[H E] | [H E]]; rewrite ?E in *.

Lemma py_max_nonneg (x : Q) : 0 <= py_max 0 x.
Proof. case_max 0 x; lra. Qed.

Lemma py_max_ge_r (a b : Q) : b <= py_max a b.
Proof. case_max a b; lra. Qed.

(** [round_half_even q] is within one half of [q]. *)
Lemma round_half_even_bounds (q : Q) :
  inject_Z (round_half_even q) - (1 # 2) <= q <= inject_Z (round_half_even q) + (1 # 2).
Proof.
  unfold round_half_even.
  pose proof (Qfloor_le q) as Hlo. pose proof (Qlt_floor q) as Hhi.
  rewrite inject_Z_plus in Hhi. change (inject_Z 1) with 1 in Hhi.
  destruct (Qcompare_spec (q - inject_Z (Qfloor q)) (1 # 2)) as [E | E | E];
    [destruct (Z.even (Qfloor q)) | |];
    rewrite ?inject_Z_plus; change (inject_Z 1) with 1; lra.
Qed.

Lemma inject_Z_lt_succ (a b : Z) : (a < b)%Z -> inject_Z a + 1 <= inject_Z b.
Proof.
  intros H. change (inject_Z a + inject_Z 1 <= inject_Z b).
  rewrite <- inject_Z_plus, <- Zle_Qle. lia.
Qed.

Lemma round_half_even_floor (q : Q) :
  (Qfloor q <= round_half_even q <= Qfloor q + 1)%Z.
Proof.
  unfold round_half_even.
  destruct (_ ?= _); [destruct (Z.even _) | |]; lia.
Qed.

Lemma round_half_even_mono (q1 q2 : Q) :
  q1 <= q2 -> (round_half_even q1 <= round_half_even q2)%Z.
Proof.
  intros H.
  pose proof (Qfloor_resp_le _ _ H) as Hf.
  destruct (Z.eq_dec (Qfloor q1) (Qfloor q2)) as [E | NE].
  - unfold round_half_even. rewrite E.
    destruct (Qcompare_spec (q1 - inject_Z (Qfloor q2)) (1 # 2)) as [E1 | E1 | E1];
      destruct (Qcompare_spec (q2 - inject_Z (Qfloor q2)) (1 # 2)) as [E2 | E2 | E2];
      try destruct (Z.even (Qfloor q2)); try lia; exfalso; lra.
  - pose proof (round_half_even_floor q1). pose proof (round_half_even_floor q2). lia.
Qed.

Lemma Qfloor_eq (q : Q) (z : Z) : q == inject_Z z -> Qfloor q = z.
Proof.
  intros E. rewrite (Qfloor_comp _ _ E). apply Qfloor_Z.
Qed.

Lemma round_half_even_Z (q : Q) (z : Z) : q == inject_Z z -> round_half_even q = z.
Proof.
  intros E. unfold round_half_even. rewrite (Qfloor_eq q z E).
  destruct (Qcompare_spec (q - inject_Z z) (1 # 2)) as [E1 | E1 | E1]; try lra.
  reflexivity.
Qed.



(** ** [round(x, 3)] *)

Lemma py_round3_unfold (q : Q) : py_round q 3 = round_half_even (q * 1000) # 1000.
Proof. reflexivity. Qed.

Lemma Qmake_1000 (z : Z) : z # 1000 == inject_Z z * (1 # 1000).
Proof. unfold Qeq, Qmult, inject_Z. simpl. lia. Qed.

Lemma py_round3_err (q : Q) :
  q - (1 # 2000) <= py_round q 3 <= q + (1 # 2000).
Proof.
  rewrite py_round3_unfold, Qmake_1000.
  pose proof (round_half_even_bounds (q * 1000)) as [H1 H2].
  split; lra.
Qed.

Lemma py_round3_mono (q1 q2 : Q) : q1 <= q2 -> py_round q1 3 <= py_round q2 3.
Proof.
  intros H. rewrite !py_round3_unfold.
  unfold Qle. simpl. apply Z.mul_le_mono_nonneg_r; [lia |].
  apply round_half_even_mono. lra.
Qed.

Lemma py_round3_on_grid (q : Q) : on_grid (py_round q 3).
Proof. rewrite py_round3_unfold. eexists. reflexivity. Qed.

Lemma py_round3_fix (q : Q) : on_grid q -> py_round q 3 == q.
Proof.
  intros [z E]. rewrite py_round3_unfold.
  rewrite (round_half_even_Z (q * 1000) z).
  - symmetry. exact E.
  - rewrite E, Qmake_1000. ring.
Qed.

Lemma py_round3_comp (q1 q2 : Q) : q1 == q2 -> py_round q1 3 == py_round q2 3.
Proof.
  intros E. apply Qle_antisym; apply py_round3_mono; lra.
Qed.



Lemma Qmake_1000_plus (x y : Z) : (x + y # 1000) == (x # 1000) + (y # 1000).
Proof. unfold Qeq, Qplus. simpl. lia. Qed.

Lemma Qmake_1000_minus (x y : Z) : (x - y # 1000) == (x # 1000) - (y # 1000).
Proof. unfold Qeq, Qminus, Qplus, Qopp. simpl. lia. Qed.


Lemma on_grid_plus (a b : Q) : on_grid a -> on_grid b -> on_grid (a + b).
Proof.
  intros [x Ea] [y Eb]. exists (x + y)%Z. now rewrite Ea, Eb, Qmake_1000_plus.
Qed.

Lemma on_grid_minus (a b : Q) : on_grid a -> on_grid b -> on_grid (a - b).
Proof.
  intros [x Ea] [y Eb]. exists (x - y)%Z. now rewrite Ea, Eb, Qmake_1000_minus.
Qed.

(* ===================================================================== *)
(** * EDL model                                                           *)
(* ===================================================================== *)

Lemma duration_nonneg (seg : Segment.t) : 0 <= Segment.duration seg.
Proof. apply py_max_nonneg. Qed.

Lemma fold_durations_ge (l : list Segment.t) (a : Q) :
  a <= fold_left (fun acc seg => acc + Segment.duration seg) l a.
Proof.
  revert a. induction l as [| seg l IH]; intros a; simpl.
  - lra.
  - pose proof (duration_nonneg seg). specialize (IH (a + Segment.duration seg)). lra.
Qed.

Lemma fold_durations_shift (l : list Segment.t) (a : Q) :
  fold_left (fun acc seg => acc + Segment.duration seg) l a
  == a + fold_left (fun acc seg => acc + Segment.duration seg) l 0.
Proof.
  revert a. induction l as [| seg l IH]; intros a; simpl.
  - lra.
  - rewrite (IH (a + _)), (IH (0 + _)). lra.
Qed.

(** C10: [Segment.duration] is [max(0, end - start)] and so never negative,
    also for a segment whose end precedes its start; such a segment is what
    [edl_from_dict] builds when a span field is missing (it reads as 0.0);
    and [EDL.total_duration], the sum of the durations, is never negative. *)
Theorem C10_durations_never_negative :
  (forall seg : Segment.t, 0 <= Segment.duration seg) /\
  (forall seg : Segment.t,
      Segment.end_ seg <= Segment.start seg -> Segment.duration seg == 0) /\
  (forall edl : EDL.t, 0 <= EDL.total_duration edl) /\
  (exists edl seg,
      edl_from_dict
        (PDict [("segments", PList [PDict [("src", PStr "camA.mp4"); ("in", PFloat 5)]])])
        = Ok edl
      /\ EDL.segments edl = [seg]
      /\ Segment.end_ seg < Segment.start seg
      /\ Segment.duration seg == 0
      /\ EDL.total_duration edl == 0).
Proof.
  split; [exact duration_nonneg |].
  split.
  { intros seg H. unfold Segment.duration.
    case_max 0 (Segment.end_ seg - Segment.start seg); lra. }
  split; [intros edl; apply fold_durations_ge |].
  eexists. eexists. split; [reflexivity |].
  split; [reflexivity |]. repeat split; reflexivity.
Qed.

Lemma witness_C10_durations_never_negative :
  Segment.duration (Segment.mk "camA.mp4" 5 0 0 [] None) == 0.
Proof.
  destruct C10_durations_never_negative as (_ & H & _).
  apply H. simpl. lra.
Defined.

Lemma Qmake_mult_den (z : Z) (p : positive) : (z # p) * inject_Z (Zpos p) == inject_Z z.
Proof. unfold Qeq, Qmult, inject_Z. simpl. lia. Qed.

Lemma py_round_idem (q : Q) (n : nat) : py_round (py_round q n) n = py_round q n.
Proof.
  unfold py_round.
  assert (0 < 10 ^ Z.of_nat n)%Z as Hs by (apply Z.pow_pos_nonneg; lia).
  set (s := (10 ^ Z.of_nat n)%Z) in *.
  f_equal. apply round_half_even_Z.
  replace (inject_Z s) with (inject_Z (Zpos (Z.to_pos s))) by (now rewrite Z2Pos.id).
  apply Qmake_mult_den.
Qed.

Lemma mapM_py_str (l : list string) : mapM py_str (map PStr l) = Ok l.
Proof.
  induction l as [| x l IH]; [reflexivity |].
  simpl. rewrite IH. reflexivity.
Qed.

Lemma segment_from_to_dict (seg : Segment.t) :
  segment_from_dict (EDL.segment_to_dict seg) = Ok (round_segment seg).
Proof.
  destruct seg as [src start end_ score tags camera].
  unfold segment_from_dict, EDL.segment_to_dict, round_segment. cbn.
  rewrite mapM_py_str. cbn. destruct camera; reflexivity.
Qed.

Lemma segments_from_to_dict (l : list Segment.t) :
  mapM segment_from_dict (map EDL.segment_to_dict l) = Ok (map round_segment l).
Proof.
  induction l as [| seg l IH]; [reflexivity |].
  change (mapM segment_from_dict (map EDL.segment_to_dict (seg :: l)))
    with (y ← segment_from_dict (EDL.segment_to_dict seg);
          k ← mapM segment_from_dict (map EDL.segment_to_dict l); mret (y :: k)).
  rewrite segment_from_to_dict, IH. reflexivity.
Qed.

Lemma segment_to_dict_round (seg : Segment.t) :
  EDL.segment_to_dict (round_segment seg) = EDL.segment_to_dict seg.
Proof.
  unfold EDL.segment_to_dict, round_segment. simpl. now rewrite !py_round_idem.
Qed.

Lemma edl_from_to_dict (edl : EDL.t) :
  edl_from_dict (EDL.to_dict edl)
  = Ok (with_segments edl (map round_segment (EDL.segments edl))).
Proof.
  destruct edl as [project variant seed max_duration clip_min clip_max segments metadata].
  unfold EDL.to_dict, with_segments. simpl.
  destruct metadata as [| m metadata]; cbn; rewrite segments_from_to_dict; reflexivity.
Qed.

(* ===================================================================== *)
(** * The stable sort                                                     *)
(* ===================================================================== *)

Section Sorting.
Context {A : Type} (ltb : A -> A -> bool).

Lemma insert_by_perm (x : A) (l : list A) : Permutation (insert_by ltb x l) (x :: l).
Proof.
  induction l as [| y l IH]; simpl; [reflexivity |].
  destruct (ltb y x); [| reflexivity].
  rewrite IH. apply perm_swap.
Qed.

Lemma py_sorted_perm (l : list A) : Permutation (py_sorted ltb l) l.
Proof.
  induction l as [| x l IH]; simpl; [reflexivity |].
  rewrite insert_by_perm. now constructor.
Qed.

Lemma py_sorted_In (x : A) (l : list A) : In x (py_sorted ltb l) <-> In x l.
Proof.
  split; apply Permutation_in; [| symmetry]; apply py_sorted_perm.
Qed.

Lemma py_sorted_length (l : list A) : length (py_sorted ltb l) = length l.
Proof. apply Permutation_length, py_sorted_perm. Qed.

(** [b] may follow [a]: it is not strictly smaller. *)
Let follows (a b : A) : Prop := ltb b a = false.

Hypothesis ltb_asym : forall a b, ltb a b = true -> ltb b a = false.
Hypothesis follows_trans : forall a b c, follows a b -> follows b c -> follows a c.

Lemma insert_by_sorted (x : A) (l : list A) :
  StronglySorted follows l -> StronglySorted follows (insert_by ltb x l).
Proof.
  induction l as [| y l IH]; intros Hs; simpl.
  - repeat constructor.
  - apply StronglySorted_inv in Hs as [Hs Hy].
    destruct (ltb y x) eqn:E.
    + constructor; [auto |].
      rewrite List.Forall_forall in *. intros z Hz.
      apply (Permutation_in _ (insert_by_perm x l)) in Hz as [<- | Hz]; auto.
      now apply ltb_asym.
    + constructor; [now constructor |].
      constructor; [exact E |].
      rewrite List.Forall_forall in *. intros z Hz.
      apply (follows_trans x y z); [exact E | auto].
Qed.

Lemma py_sorted_sorted (l : list A) : StronglySorted follows (py_sorted ltb l).
Proof.
  induction l as [| x l IH]; simpl; [constructor | now apply insert_by_sorted].
Qed.
End Sorting.





(* ===================================================================== *)
(** * Candidate builder                                                   *)
(* ===================================================================== *)

Lemma _overlaps_spec (a b : CandidateClip.t) (tolerance : Q) :
  _overlaps a b tolerance = true <-> near_duplicate tolerance a b.
Proof.
  unfold _overlaps, near_duplicate.
  destruct (String.eqb_spec (CandidateClip.src a) (CandidateClip.src b)) as [E | NE]; simpl.
  - rewrite andb_true_iff, !Qleb_le. tauto.
  - split; [discriminate | tauto].
Qed.

Lemma merge_step_blocked (tolerance : Q) (kept : list CandidateClip.t) (cand : CandidateClip.t) :
  existsb (fun existing => _overlaps cand existing tolerance) kept = true
  <-> exists k, In k kept /\ near_duplicate tolerance cand k.
Proof.
  rewrite existsb_exists. split; intros (k & Hk & H); exists k; split; auto;
    now apply _overlaps_spec.
Qed.
















(* ===================================================================== *)
(** * Selector                                                            *)
(* ===================================================================== *)

Lemma py_min3_le (a b c : Q) : py_min3 a b c <= a /\ py_min3 a b c <= b /\ py_min3 a b c <= c.
Proof.
  unfold py_min3. case_min a b; case_min b c; case_min a c; repeat split; lra.
Qed.

(** What one iteration of the loop can do: leave the state as it is
    (skipping the candidate, or stopping the loop), or accept. *)
Lemma select_step_cases (config : Config.t) (st : loop_state) (cand : CandidateClip.t) :
  select_step config st cand = Continue st
  \/ (select_step config st cand = Break st
      /\ Config.max_duration config < total_duration st + CandidateClip.duration cand
      /\ Config.max_duration config - total_duration st < Config.clip_min config)
  \/ exists cand_end,
       acceptable config st cand cand_end
       /\ let st' := accepted_state st (accepted_segment cand cand_end)
                                    (str_or (CandidateClip.camera cand) "unknown") in
          (select_step config st cand = Continue st'
           /\ total_duration st' < Config.max_duration config - (1 # 100))
          \/ (select_step config st cand = Break st'
              /\ Config.max_duration config - (1 # 100) <= total_duration st').
Proof.
  unfold select_step.
  destruct (Qltb_spec (CandidateClip.duration cand) (Config.clip_min config)) as [H1 | H1];
    [now left |].
  destruct (Qltb_spec (Config.clip_max config) (CandidateClip.duration cand)) as [H2 | H2];
    [now left |].
  simpl orb. cbv iota.
  destruct (_passes_overlap_check cand (selected st) (1 # 4)) eqn:H3; [| now left].
  simpl negb. cbv iota.
  destruct (Qltb_spec (DiversitySettings.max_per_cam_ratio (Config.diversity config)
                       * Config.max_duration config + (1 # 1000000))
                      (usage_of st (str_or (CandidateClip.camera cand) "unknown")
                       + CandidateClip.duration cand)) as [H4 | H4]; [now left |].
  destruct (match last_camera_time st !! _ with Some _ => _ | None => false end);
    [now left |].
  apply Qnot_lt_le in H1, H2, H4.
  assert (forall cand_end,
    let st' := accepted_state st (accepted_segment cand cand_end)
                              (str_or (CandidateClip.camera cand) "unknown") in
    (accept config st cand (str_or (CandidateClip.camera cand) "unknown") cand_end
       = Continue st'
     /\ total_duration st' < Config.max_duration config - (1 # 100))
    \/ (accept config st cand (str_or (CandidateClip.camera cand) "unknown") cand_end
          = Break st'
        /\ Config.max_duration config - (1 # 100) <= total_duration st')) as Hacc.
  { intros cand_end st'. unfold accept. fold (accepted_segment cand cand_end).
    fold (accepted_state st (accepted_segment cand cand_end)
                         (str_or (CandidateClip.camera cand) "unknown")). fold st'.
    destruct (Qleb_spec (Config.max_duration config - (1 # 100))
                        (total_duration st + Segment.duration (accepted_segment cand cand_end)))
      as [H | H]; [right | left]; split; auto.
    now apply Qnot_le_lt. }
  destruct (Qltb_spec (Config.max_duration config)
                      (total_duration st + CandidateClip.duration cand)) as [H5 | H5].
  - destruct (Qltb_spec (Config.max_duration config - total_duration st)
                        (Config.clip_min config)) as [H6 | H6]; [now right; left |].
    right; right. eexists. split; [| apply Hacc].
    unfold acceptable. apply Qnot_lt_le in H6. unfold camera_cap. tauto.
  - right; right. eexists. split; [| apply Hacc].
    unfold acceptable. apply Qnot_lt_le in H5. unfold camera_cap. tauto.
Qed.

(** Induction over the loop: [P] holds whenever the loop goes on, [R] when
    it ends. *)
Lemma select_loop_ind (config : Config.t) (P R : loop_state -> Prop) :
  (forall st cand st', P st -> select_step config st cand = Continue st' -> P st') ->
  (forall st cand st', P st -> select_step config st cand = Break st' -> R st') ->
  (forall st, P st -> R st) ->
  forall ordered st, P st -> R (select_loop config st ordered).
Proof.
  intros HC HB HPR. induction ordered as [| cand rest IH]; intros st HP; simpl.
  - auto.
  - destruct (select_step config st cand) eqn:E; eauto.
Qed.

(** The same, for a property of the candidates that are processed. *)
Lemma select_loop_ind_on (config : Config.t) (G : CandidateClip.t -> Prop)
    (P R : loop_state -> Prop) :
  (forall st cand st', G cand -> P st -> select_step config st cand = Continue st' -> P st') ->
  (forall st cand st', G cand -> P st -> select_step config st cand = Break st' -> R st') ->
  (forall st, P st -> R st) ->
  forall ordered st, Forall G ordered -> P st -> R (select_loop config st ordered).
Proof.
  intros HC HB HPR. induction ordered as [| cand rest IH]; intros st HG HP; simpl.
  - auto.
  - apply List.Forall_cons_iff in HG as [Hc HG].
    destruct (select_step config st cand) eqn:E; eauto.
Qed.

Lemma step_result_inj_continue (a b : loop_state) : Continue a = Continue b -> a = b.
Proof. now intros [= ->]. Qed.

(** Rounding both ends moves a duration by at most one millisecond. *)
Lemma accepted_duration_le (cand : CandidateClip.t) (cand_end : Q) :
  Segment.duration (accepted_segment cand cand_end)
  <= py_max 0 (cand_end - CandidateClip.start cand + (1 # 1000)).
Proof.
  unfold Segment.duration, accepted_segment. simpl.
  pose proof (py_round3_err (CandidateClip.start cand)).
  pose proof (py_round3_err cand_end).
  case_max 0 (py_round cand_end 3 - py_round (CandidateClip.start cand) 3);
    case_max 0 (cand_end - CandidateClip.start cand + (1 # 1000)); lra.
Qed.

(** The span kept from an acceptable candidate fits the remaining budget. *)
Lemma acceptable_fits (config : Config.t) (st : loop_state) (cand : CandidateClip.t)
    (cand_end : Q) :
  acceptable config st cand cand_end ->
  total_duration st + (cand_end - CandidateClip.start cand) <= Config.max_duration config
  /\ cand_end - CandidateClip.start cand <= CandidateClip.duration cand.
Proof.
  intros (H1 & H2 & _ & _ & [[-> H] | [-> [H H']]]).
  - pose proof (py_max_ge_r 0 (CandidateClip.end_ cand - CandidateClip.start cand)) as Hd.
    fold (CandidateClip.duration cand) in Hd. split; lra.
  - pose proof (py_min3_le (CandidateClip.duration cand)
                           (Config.max_duration config - total_duration st)
                           (Config.clip_max config)) as (A & B & C).
    split; lra.
Qed.



(** The running total is the sum of the accepted durations. *)
Lemma select_step_sum (config : Config.t) (st st' : loop_state) (cand : CandidateClip.t) :
  total_duration st == fold_left (fun acc seg => acc + Segment.duration seg) (selected st) 0 ->
  select_step config st cand = Continue st' \/ select_step config st cand = Break st' ->
  total_duration st' == fold_left (fun acc seg => acc + Segment.duration seg) (selected st') 0.
Proof.
  intros HP HE.
  destruct (select_step_cases config st cand) as [E | [[E _] | (cand_end & Hacc & [[E Ht] | [E Ht]])]];
    rewrite E in HE; destruct HE as [[= <-] | [= <-]]; auto;
    simpl; rewrite fold_left_app; simpl; rewrite HP; reflexivity.
Qed.

Lemma select_loop_sum (config : Config.t) (ordered : list CandidateClip.t) :
  total_duration (select_loop config initial_state ordered)
  == fold_left (fun acc seg => acc + Segment.duration seg)
               (selected (select_loop config initial_state ordered)) 0.
Proof.
  apply (select_loop_ind config
           (fun st => total_duration st
                      == fold_left (fun acc seg => acc + Segment.duration seg) (selected st) 0)
           (fun st => total_duration st
                      == fold_left (fun acc seg => acc + Segment.duration seg) (selected st) 0)).
  - intros st cand st' HP E. apply (select_step_sum config st st' cand HP). auto.
  - intros st cand st' HP E. apply (select_step_sum config st st' cand HP). auto.
  - auto.
  - reflexivity.
Qed.

Section OrderCandidates.
Context {rng_state : Type} (Random : Z -> rng_state) (random : rng_state -> Q * rng_state).

Lemma jitter_all_snd (l : list CandidateClip.t) (rng : rng_state) :
  map snd (fst (jitter_all rng_state random l rng)) = l.
Proof.
  revert rng. induction l as [| c l IH]; intros rng; simpl; [reflexivity |].
  destruct (random rng) as [u rng1]. specialize (IH rng1).
  destruct (jitter_all rng_state random l rng1) as [jittered rng2].
  simpl in *. now rewrite IH.
Qed.

(** The generator only decides the order: the ordered candidates are the
    given ones. *)
Lemma _order_candidates_perm (l : list CandidateClip.t) (rng : rng_state) :
  Permutation (_order_candidates rng_state random l rng) l.
Proof.
  unfold _order_candidates.
  rewrite (Permutation_map snd (py_sorted_perm key_jittered_lt _)).
  rewrite jitter_all_snd. apply py_sorted_perm.
Qed.

Lemma select_segments_edl (candidates_by_src : list (string * list CandidateClip.t))
    (config : Config.t) :
  exists ordered,
    Permutation ordered (flat_map snd candidates_by_src)
    /\ fst (select_segments rng_state Random random candidates_by_src config)
       = edl_of config (selected (select_loop config initial_state ordered)).
Proof.
  unfold select_segments.
  destruct (flat_map snd candidates_by_src) as [| c l] eqn:E.
  - exists []. split; [constructor | reflexivity].
  - eexists. split; [apply _order_candidates_perm | reflexivity].
Qed.
End OrderCandidates.





(** ** Per-camera share *)










(** ** Overlap *)




Lemma accepted_on_grid (cand : CandidateClip.t) (cand_end : Q) :
  segment_on_grid (accepted_segment cand cand_end).
Proof. split; apply py_round3_on_grid. Qed.





(** ** Binary64 *)






(** ** Determinism *)

Lemma ascii_compare_N (a b : ascii) :
  Ascii.compare a b = N.compare (N_of_ascii a) (N_of_ascii b).
Proof. reflexivity. Qed.

Lemma ascii_compare_Eq (a b : ascii) : Ascii.compare a b = Eq -> a = b.
Proof.
  rewrite ascii_compare_N, N.compare_eq_iff. intros H.
  rewrite <- (ascii_N_embedding a), <- (ascii_N_embedding b). now rewrite H.
Qed.

Lemma string_le_trans (a b c : string) :
  String.compare a b <> Gt -> String.compare b c <> Gt -> String.compare a c <> Gt.
Proof.
  revert b c. induction a as [| x a IH]; intros [| y b] [| z c]; simpl; try congruence.
  rewrite !ascii_compare_N.
  destruct (N.compare_spec (N_of_ascii x) (N_of_ascii y)) as [E1 | L1 | G1];
    destruct (N.compare_spec (N_of_ascii y) (N_of_ascii z)) as [E2 | L2 | G2];
    try congruence.
  - rewrite E1, E2, N.compare_refl. apply IH.
  - intros _ _. rewrite E1. apply N.compare_lt_iff in L2. now rewrite L2.
  - intros _ _. rewrite <- E2. apply N.compare_lt_iff in L1. now rewrite L1.
  - intros _ _. assert (N_of_ascii x < N_of_ascii z)%N as L by lia.
    apply N.compare_lt_iff in L. now rewrite L.
Qed.

Lemma string_ltb_false (a b : string) : String.ltb a b = false <-> String.compare b a <> Gt.
Proof.
  unfold String.ltb. rewrite (String.compare_antisym b a).
  destruct (String.compare a b); simpl; split; congruence.
Qed.

Lemma string_ltb_asym (a b : string) : String.ltb a b = true -> String.ltb b a = false.
Proof.
  unfold String.ltb. rewrite (String.compare_antisym a b).
  destruct (String.compare b a); simpl; congruence.
Qed.


Lemma sorted_strings_sorted (l : list string) :
  StronglySorted (fun a b => String.ltb b a = false) (py_sorted String.ltb l).
Proof.
  apply py_sorted_sorted.
  - apply string_ltb_asym.
  - intros a b c. rewrite !string_ltb_false. intros H1 H2.
    now apply (string_le_trans a b c).
Qed.



Section SortRespects.
Context {A : Type} (R : A -> A -> Prop) (ltb : A -> A -> bool).
Hypothesis ltb_respects : forall a a' b b', R a a' -> R b b' -> ltb a b = ltb a' b'.


End SortRespects.






Section Determinism.
Context {rng_state : Type} (Random : Z -> rng_state) (random : rng_state -> Q * rng_state).




End Determinism.


(* ===================================================================== *)
(** * Render-graph compiler                                               *)
(* ===================================================================== *)

Lemma usage_count_app (l1 l2 : list SegmentPayload.t) (idx : Z) :
  usage_count (l1 ++ l2) idx = (usage_count l1 idx + usage_count l2 idx)%nat.
Proof. unfold usage_count. now rewrite List.filter_app, length_app. Qed.

Lemma usage_count_cons (seg : SegmentPayload.t) (l : list SegmentPayload.t) (idx : Z) :
  usage_count (seg :: l) idx
  = ((if (SegmentPayload.src_index seg =? idx)%Z then 1 else 0) + usage_count l idx)%nat.
Proof. unfold usage_count. simpl. now destruct (_ =? _)%Z. Qed.

Lemma branch_labels_length (prefix : string) (idx : Z) (count : nat) :
  (1 <= count)%nat -> length (branch_labels prefix idx count) = count.
Proof.
  intros H. unfold branch_labels. destruct (Nat.ltb_spec 1 count).
  - now rewrite length_map, length_seq.
  - simpl. lia.
Qed.

Section Branches.
Context (segments : list SegmentPayload.t) (audio_flags : gmap Z bool).

Let fold_to (m : nat) : branch_state :=
  fold_left (branch_step segments audio_flags) (map Z.of_nat (seq 0 m)) (mkBranches [] ∅ ∅).

Lemma fold_to_S (m : nat) :
  fold_to (S m) = branch_step segments audio_flags (fold_to m) (Z.of_nat m).
Proof.
  unfold fold_to. rewrite seq_S, map_app, fold_left_app. reflexivity.
Qed.

Lemma branch_step_tables (st : branch_state) (idx k : Z) :
  let st' := branch_step segments audio_flags st idx in
  (video_branches st' !! k
   = if decide (idx = k /\ usage_count segments idx <> O)
     then Some (branch_labels "v" idx (usage_count segments idx))
     else video_branches st !! k)
  /\ (audio_branches st' !! k
      = if decide (idx = k /\ usage_count segments idx <> O)
        then Some (if default true (audio_flags !! idx)
                   then branch_labels "a" idx (usage_count segments idx)
                   else [])
        else audio_branches st !! k)
  /\ (List.filter is_concat (b_lines st) = [] -> List.filter is_concat (b_lines st') = []).
Proof.
  unfold branch_step.
  destruct (usage_count segments idx) as [| n] eqn:Ec.
  - simpl. repeat split; auto; destruct (decide _) as [[_ H] | _]; congruence.
  - destruct (default true (audio_flags !! idx)); simpl;
      rewrite !lookup_insert;
      (repeat split;
       [ destruct (decide (idx = k)); destruct (decide _) as [[? ?] | Hn]; try reflexivity;
         try congruence; exfalso; apply Hn; split; [assumption | discriminate] ..
       | intros Hf; destruct (1 <? S n)%nat;
         rewrite ?List.filter_app, ?Hf; reflexivity ]).
Qed.

Lemma fold_to_tables (m : nat) (k : Z) :
  (video_branches (fold_to m) !! k
   = if decide ((0 <= k < Z.of_nat m)%Z /\ usage_count segments k <> O)
     then Some (branch_labels "v" k (usage_count segments k))
     else None)
  /\ (audio_branches (fold_to m) !! k
      = if decide ((0 <= k < Z.of_nat m)%Z /\ usage_count segments k <> O)
        then Some (if default true (audio_flags !! k)
                   then branch_labels "a" k (usage_count segments k)
                   else [])
        else None)
  /\ List.filter is_concat (b_lines (fold_to m)) = [].
Proof.
  induction m as [| m (IHv & IHa & IHl)].
  - unfold fold_to. simpl. rewrite !lookup_empty.
    repeat split; destruct (decide _) as [[? ?] | ?]; try reflexivity; lia.
  - rewrite fold_to_S.
    destruct (branch_step_tables (fold_to m) (Z.of_nat m) k) as (Hv & Ha & Hl).
    rewrite Hv, Ha, IHv, IHa. repeat split; [| | auto].
    all: destruct (Z.eq_dec (Z.of_nat m) k) as [<- | NE];
      repeat case_decide; destruct_and?; try reflexivity; exfalso;
      intuition (try lia; try congruence).
Qed.
End Branches.

(** The branch tables: a source in range used [count >= 1] times has its
    [count] video branches (the base stream alone when [count = 1]); no
    other key is present. *)
Lemma branches_of_tables (segments : list SegmentPayload.t) (audio_flags : gmap Z bool)
    (inputs_count k : Z) :
  (video_branches (branches_of segments audio_flags inputs_count) !! k
   = if decide ((0 <= k < inputs_count)%Z /\ usage_count segments k <> O)
     then Some (branch_labels "v" k (usage_count segments k))
     else None)
  /\ (audio_branches (branches_of segments audio_flags inputs_count) !! k
      = if decide ((0 <= k < inputs_count)%Z /\ usage_count segments k <> O)
        then Some (if default true (audio_flags !! k)
                   then branch_labels "a" k (usage_count segments k)
                   else [])
        else None)
  /\ List.filter is_concat (b_lines (branches_of segments audio_flags inputs_count)) = [].
Proof.
  unfold branches_of, py_range.
  destruct (fold_to_tables segments audio_flags (Z.to_nat inputs_count) k) as (Hv & Ha & Hl).
  rewrite Hv, Ha. repeat split; [| | exact Hl].
  all: repeat case_decide; destruct_and?; subst; try reflexivity; exfalso;
        intuition (try lia; try congruence).
Qed.
Lemma take_branch_Ok (table : gmap Z (list string)) (cursor : gmap Z nat) (src : Z)
    (missing branch : string) :
  take_branch table cursor src missing = Ok branch <->
  exists l c, table !! src = Some l /\ cursor !! src = Some c /\ nth_error l c = Some branch.
Proof.
  unfold take_branch. split.
  - destruct (table !! src) as [[| x l] |]; try discriminate.
    destruct (cursor !! src) as [c |]; try discriminate.
    destruct (nth_error (x :: l) c) eqn:E; try discriminate.
    intros [= ->]. eauto.
  - intros (l & c & -> & -> & H). destruct l as [| x l]; [now destruct c |].
    now rewrite H.
Qed.

Lemma bump_lookup (cursor : gmap Z nat) (src k : Z) :
  bump cursor src !! k
  = if decide (src = k) then Some (S (default O (cursor !! src))) else cursor !! k.
Proof. unfold bump. apply lookup_insert. Qed.

Lemma firstn_prefix {A : Type} (pre rest : list A) (i : nat) :
  (i <= length pre)%nat -> firstn i (pre ++ rest) = firstn i pre.
Proof.
  intros H. rewrite firstn_app. replace (i - length pre)%nat with O by lia.
  simpl. apply app_nil_r.
Qed.

Lemma segment_lines_mono (segments : list SegmentPayload.t) (audio_flags : gmap Z bool)
    (scale_expr : string) (i : nat) (seg : SegmentPayload.t) (lines more : list filter_line) :
  segment_lines segments audio_flags scale_expr i seg lines ->
  segment_lines segments audio_flags scale_expr i seg (lines ++ more).
Proof.
  unfold segment_lines. intros ((v & Hv & Hin) & Hs & Ha).
  split; [exists v; split; [exact Hv | apply in_or_app; now left] |].
  split; [apply in_or_app; now left |].
  destruct (default true (audio_flags !! _)).
  - destruct Ha as (a & Ha & Hin'). exists a. split; [exact Ha | apply in_or_app; now left].
  - apply in_or_app. now left.
Qed.

(** The two ways an iteration of the second loop completes. *)
Lemma segment_step_Ok (branches : branch_state) (audio_flags : gmap Z bool)
    (scale_expr : string) (synth : bool) (st st' : segment_state) (idx : nat)
    (seg : SegmentPayload.t) :
  segment_step branches audio_flags scale_expr synth st idx seg = Ok st' ->
  let src := SegmentPayload.src_index seg in
  let video := fun v_branch =>
    [FTrim v_branch (SegmentPayload.in_ seg) (trim_end seg) ("vtrim" +:+ str_of_nat idx);
     FScale ("vtrim" +:+ str_of_nat idx) scale_expr idx] in
  exists v_branch,
    take_branch (video_branches branches) (video_cursor st) src
                "No video branches for input" = Ok v_branch
    /\ ((default true (audio_flags !! src) = true
         /\ exists a_branch,
              take_branch (audio_branches branches) (audio_cursor st) src
                          "No audio branches for input" = Ok a_branch
              /\ st' = mkSegState
                         ((s_lines st ++ video v_branch)
                          ++ [FAtrim a_branch (SegmentPayload.in_ seg) (trim_end seg) idx])
                         (bump (video_cursor st) src) (bump (audio_cursor st) src)
                         (concat_inputs st ++ [pair_label idx]))
        \/ (default true (audio_flags !! src) = false
            /\ synth = true
            /\ st' = mkSegState
                       ((s_lines st ++ video v_branch)
                        ++ [FSilence (py_max 0 (trim_end seg - SegmentPayload.in_ seg)) idx])
                       (bump (video_cursor st) src) (audio_cursor st)
                       (concat_inputs st ++ [pair_label idx]))).
Proof.
  unfold segment_step. intros H.
  destruct (take_branch (video_branches branches) _ _ _) as [v_branch |]; [| discriminate].
  exists v_branch. split; [reflexivity |].
  destruct (default true (audio_flags !! SegmentPayload.src_index seg)).
  - left. split; [reflexivity |].
    destruct (take_branch (audio_branches branches) _ _ _) as [a_branch |]; [| discriminate].
    exists a_branch. split; [reflexivity |]. now injection H as <-.
  - right. split; [reflexivity |].
    destruct synth; [| discriminate]. split; [reflexivity |]. now injection H as <-.
Qed.

Section SegmentLoop.
Context (segments : list SegmentPayload.t) (audio_flags : gmap Z bool) (inputs_count : Z).
Context (scale_expr : string) (synth : bool).

Let branches : branch_state := branches_of segments audio_flags inputs_count.

(** The state of the second loop once the segments [pre] are processed:
    every cursor stands at the number of uses of its source so far. *)
Let loop_inv (pre : list SegmentPayload.t) (st : segment_state) : Prop :=
  (forall k, video_cursor st !! k
             = (fun _ => usage_count pre k) <$> (video_branches branches !! k))
  /\ (forall k, default true (audio_flags !! k) = true ->
                audio_cursor st !! k
                = (fun _ => usage_count pre k) <$> (audio_branches branches !! k))
  /\ concat_inputs st = map pair_label (seq 0 (length pre))
  /\ List.filter is_concat (s_lines st) = []
  /\ forall i seg, nth_error pre i = Some seg ->
                   segment_lines segments audio_flags scale_expr i seg (s_lines st).

Lemma segment_step_inv (pre rest : list SegmentPayload.t) (seg : SegmentPayload.t)
    (st st' : segment_state) :
  segments = pre ++ seg :: rest ->
  loop_inv pre st ->
  segment_step branches audio_flags scale_expr synth st (length pre) seg = Ok st' ->
  loop_inv (pre ++ [seg]) st'.
Proof.
  intros Hseg (Hvc & Hac & Hci & Hfl & Hlines) Hstep.
  apply segment_step_Ok in Hstep as (v_branch & Ev & Hstep).
  apply take_branch_Ok in Ev as (vl & vc & Hvt & Hvcur & Hvn).
  pose proof (branches_of_tables segments audio_flags inputs_count
                (SegmentPayload.src_index seg)) as (Tv & Ta & _).
  fold branches in Tv, Ta. rewrite Hvt in Tv.
  destruct (decide _) as [[Hrange Hcount] |]; [| discriminate]. injection Tv as ->.
  rewrite Hvc, Hvt in Hvcur. injection Hvcur as <-.
  assert (uses_before segments (length pre) (SegmentPayload.src_index seg)
          = usage_count pre (SegmentPayload.src_index seg)) as Hub.
  { unfold uses_before. rewrite Hseg, firstn_prefix, firstn_all by lia. reflexivity. }
  assert (forall k, usage_count (pre ++ [seg]) k
                    = if decide (SegmentPayload.src_index seg = k)
                      then S (usage_count pre k) else usage_count pre k) as Hcnt.
  { intros k. rewrite usage_count_app, usage_count_cons. unfold usage_count at 2. simpl.
    destruct (decide _) as [-> | NE].
    - rewrite Z.eqb_refl. lia.
    - apply Z.eqb_neq in NE. rewrite NE. lia. }
  assert (forall i s lines,
            (forall i' s', nth_error pre i' = Some s' ->
                           segment_lines segments audio_flags scale_expr i' s' lines) ->
            segment_lines segments audio_flags scale_expr (length pre) seg lines ->
            nth_error (pre ++ [seg]) i = Some s ->
            segment_lines segments audio_flags scale_expr i s lines) as Hnew.
  { intros i s lines Ho Hn Hi.
    destruct (Nat.lt_ge_cases i (length pre)) as [Hlt | Hge].
    - rewrite nth_error_app1 in Hi by assumption. now apply Ho.
    - rewrite nth_error_app2 in Hi by assumption.
      destruct (i - length pre)%nat as [| d] eqn:Ed; [| destruct d; discriminate].
      injection Hi as <-. replace i with (length pre) by lia. exact Hn. }
  assert (forall k, bump (video_cursor st) (SegmentPayload.src_index seg) !! k
                    = (fun _ => usage_count (pre ++ [seg]) k) <$> (video_branches branches !! k))
    as Hvc'.
  { intros k. rewrite bump_lookup, Hcnt, Hvc, Hvt. simpl.
    destruct (decide _) as [<- | NE]; [now rewrite Hvt | apply Hvc]. }
  assert (length (pre ++ [seg]) = S (length pre)) as Hlen
    by (rewrite length_app; simpl; lia).
  destruct Hstep as [(Eflag & a_branch & Ea & ->) | (Eflag & _ & ->)].
  - apply take_branch_Ok in Ea as (al & ac & Hat & Hacur & Han).
    rewrite Hat, Eflag in Ta. injection Ta as ->.
    rewrite (Hac _ Eflag), Hat in Hacur. injection Hacur as <-.
    split; [exact Hvc' |]. split; [| split; [| split]]; simpl.
    + intros k Hk. rewrite bump_lookup, Hcnt, (Hac _ Eflag), Hat. simpl.
      destruct (decide _) as [<- | NE]; [now rewrite Hat | now apply Hac].
    + rewrite Hlen, Hci, seq_S, map_app. reflexivity.
    + rewrite !List.filter_app, Hfl. reflexivity.
    + intros i s. apply Hnew.
      * intros i' s' Hi'. rewrite <- app_assoc. now apply segment_lines_mono, Hlines.
      * unfold segment_lines. rewrite Eflag, Hub.
        split; [exists v_branch; split; [exact Hvn |] |];
          [| split; [| exists a_branch; split; [exact Han |]]];
          rewrite !in_app_iff; simpl; auto.
  - split; [exact Hvc' |]. split; [| split; [| split]]; simpl.
    + intros k Hk. rewrite Hcnt, Hac by assumption.
      destruct (decide _) as [<- | NE]; [congruence | reflexivity].
    + rewrite Hlen, Hci, seq_S, map_app. reflexivity.
    + rewrite !List.filter_app, Hfl. reflexivity.
    + intros i s. apply Hnew.
      * intros i' s' Hi'. rewrite <- app_assoc. now apply segment_lines_mono, Hlines.
      * unfold segment_lines. rewrite Eflag, Hub.
        split; [exists v_branch; split; [exact Hvn |] |]; [| split];
          rewrite !in_app_iff; simpl; auto.
Qed.

Lemma segment_loop_inv (pre rest : list SegmentPayload.t) (st st' : segment_state) :
  segments = pre ++ rest ->
  loop_inv pre st ->
  segment_loop branches audio_flags scale_expr synth st (length pre) rest = Ok st' ->
  loop_inv segments st'.
Proof.
  revert pre st. induction rest as [| seg rest IH]; intros pre st Hseg Hinv Hloop; simpl in Hloop.
  - injection Hloop as <-. now rewrite Hseg, app_nil_r.
  - destruct (segment_step branches audio_flags scale_expr synth st (length pre) seg)
      as [st1 |] eqn:E; [| discriminate].
    simpl in Hloop.
    apply (IH (pre ++ [seg]) st1).
    + now rewrite <- app_assoc.
    + now apply (segment_step_inv pre rest seg st st1).
    + rewrite length_app. simpl. now rewrite Nat.add_1_r.
Qed.

Lemma loop_inv_initial :
  loop_inv [] (mkSegState (b_lines branches)
                          ((fun _ => O) <$> video_branches branches)
                          ((fun _ => O) <$> audio_branches branches) []).
Proof.
  split; [| split; [| split; [| split]]]; simpl.
  - intros k. now rewrite lookup_fmap.
  - intros k _. now rewrite lookup_fmap.
  - reflexivity.
  - now destruct (branches_of_tables segments audio_flags inputs_count 0) as (_ & _ & H).
  - intros i seg H. destruct i; discriminate.
Qed.

(** The second loop completes when every segment refers to an input in
    range and a source without audio may be given silence. *)
Lemma segment_step_total (pre rest : list SegmentPayload.t) (seg : SegmentPayload.t)
    (st : segment_state) :
  segments = pre ++ seg :: rest ->
  loop_inv pre st ->
  (0 <= SegmentPayload.src_index seg < inputs_count)%Z ->
  default true (audio_flags !! SegmentPayload.src_index seg) = true \/ synth = true ->
  exists st', segment_step branches audio_flags scale_expr synth st (length pre) seg = Ok st'.
Proof.
  intros Hseg (Hvc & Hac & _) Hrange Haudio.
  pose proof (branches_of_tables segments audio_flags inputs_count
                (SegmentPayload.src_index seg)) as (Tv & Ta & _).
  fold branches in Tv, Ta.
  assert (usage_count segments (SegmentPayload.src_index seg)
          = S (usage_count pre (SegmentPayload.src_index seg)
               + usage_count rest (SegmentPayload.src_index seg))) as Hcount.
  { rewrite Hseg, usage_count_app, usage_count_cons, Z.eqb_refl. lia. }
  destruct (decide _) as [_ | Hn]; [| exfalso; apply Hn; split; [exact Hrange | lia]].
  assert (forall prefix, exists b,
            nth_error (branch_labels prefix (SegmentPayload.src_index seg)
                         (usage_count segments (SegmentPayload.src_index seg)))
                      (usage_count pre (SegmentPayload.src_index seg)) = Some b) as Hnth.
  { intros prefix. destruct (nth_error _ _) eqn:E; [eauto |].
    apply nth_error_None in E. rewrite branch_labels_length in E; lia. }
  unfold segment_step.
  destruct (Hnth "v") as [vb Hvb].
  assert (take_branch (video_branches branches) (video_cursor st)
            (SegmentPayload.src_index seg) "No video branches for input" = Ok vb) as ->.
  { apply take_branch_Ok. eexists. eexists. split; [exact Tv |].
    split; [rewrite Hvc, Tv; reflexivity | exact Hvb]. }
  simpl.
  destruct (default true (audio_flags !! SegmentPayload.src_index seg)) eqn:Eflag.
  - destruct (Hnth "a") as [ab Hab].
    assert (take_branch (audio_branches branches) (audio_cursor st)
              (SegmentPayload.src_index seg) "No audio branches for input" = Ok ab) as ->.
    { apply take_branch_Ok. eexists. eexists. split; [exact Ta |].
      split; [rewrite (Hac _ Eflag), Ta; reflexivity | exact Hab]. }
    simpl. eauto.
  - destruct Haudio as [? | ->]; [discriminate |]. simpl. eauto.
Qed.

Lemma segment_loop_total (pre rest : list SegmentPayload.t) (st : segment_state) :
  segments = pre ++ rest ->
  loop_inv pre st ->
  Forall (fun seg => (0 <= SegmentPayload.src_index seg < inputs_count)%Z
                     /\ (default true (audio_flags !! SegmentPayload.src_index seg) = true
                         \/ synth = true)) rest ->
  exists st', segment_loop branches audio_flags scale_expr synth st (length pre) rest = Ok st'.
Proof.
  revert pre st. induction rest as [| seg rest IH]; intros pre st Hseg Hinv Hall; simpl.
  - eauto.
  - apply List.Forall_cons_iff in Hall as [[Hr Ha] Hall].
    destruct (segment_step_total pre rest seg st Hseg Hinv Hr Ha) as [st1 E].
    rewrite E. simpl.
    replace (S (length pre)) with (length (pre ++ [seg]))
      by (rewrite length_app; simpl; lia).
    apply IH; [now rewrite <- app_assoc | | exact Hall].
    now apply (segment_step_inv pre rest seg st st1).
Qed.

(** What the second loop leaves when it completes. *)
Lemma segment_loop_spec (st : segment_state) :
  segment_loop branches audio_flags scale_expr synth
    (mkSegState (b_lines branches)
                ((fun _ => O) <$> video_branches branches)
                ((fun _ => O) <$> audio_branches branches) [])
    O segments = Ok st ->
  concat_inputs st = map pair_label (seq 0 (length segments))
  /\ List.filter is_concat (s_lines st) = []
  /\ forall i seg, nth_error segments i = Some seg ->
                   segment_lines segments audio_flags scale_expr i seg (s_lines st).
Proof.
  intros H. apply (segment_loop_inv [] segments) in H; [| reflexivity | apply loop_inv_initial].
  destruct H as (_ & _ & H1 & H2 & H3). auto.
Qed.

Lemma segment_loop_runs :
  Forall (fun seg => (0 <= SegmentPayload.src_index seg < inputs_count)%Z
                     /\ (default true (audio_flags !! SegmentPayload.src_index seg) = true
                         \/ synth = true)) segments ->
  exists st,
    segment_loop branches audio_flags scale_expr synth
      (mkSegState (b_lines branches)
                  ((fun _ => O) <$> video_branches branches)
                  ((fun _ => O) <$> audio_branches branches) [])
      O segments = Ok st.
Proof.
  intros H. apply (segment_loop_total [] segments); [reflexivity | apply loop_inv_initial | exact H].
Qed.
End SegmentLoop.
(** The lines [build_filter_complex] returns: those of the two loops, the
    concatenation, and the output stages. *)
Lemma build_filter_lines_Ok (segments : list SegmentPayload.t) (inputs_count : Z)
    (logo_idx : option Z) (width height : Z) (source_audio : option (gmap Z bool))
    (logo_corner : string) (logo_safe_area : Q) (loudnorm synth : bool)
    (lines : list filter_line) :
  build_filter_lines segments inputs_count logo_idx width height source_audio
                     logo_corner logo_safe_area loudnorm synth = Ok lines ->
  exists st tail,
    segment_loop (branches_of segments (audio_flags_of source_audio inputs_count) inputs_count)
      (audio_flags_of source_audio inputs_count) (scale_expr_of width height) synth
      (mkSegState
         (b_lines (branches_of segments (audio_flags_of source_audio inputs_count) inputs_count))
         ((fun _ => O) <$> video_branches
            (branches_of segments (audio_flags_of source_audio inputs_count) inputs_count))
         ((fun _ => O) <$> audio_branches
            (branches_of segments (audio_flags_of source_audio inputs_count) inputs_count)) [])
      O segments = Ok st
    /\ lines = s_lines st ++ FConcat (concat_inputs st) (length segments) :: tail
    /\ List.filter is_concat tail = [].
Proof.
  unfold build_filter_lines. fold (branches_of segments (audio_flags_of source_audio inputs_count)
                                     inputs_count).
  destruct (segment_loop _ _ _ _ _ _ _) as [st |]; [| discriminate].
  simpl. intros H. exists st.
  destruct logo_idx as [li |].
  - destruct (_logo_coordinates logo_safe_area logo_corner) as [pos_x pos_y].
    injection H as <-. eexists. split; [reflexivity |].
    split; [rewrite <- !app_assoc; reflexivity | now destruct loudnorm].
  - injection H as <-. eexists. split; [reflexivity |].
    split; [rewrite <- !app_assoc; reflexivity | now destruct loudnorm].
Qed.

Lemma mapM_result_Ok {A B : Type} (f : A -> result B) (l : list A) :
  (forall x, In x l -> exists y, f x = Ok y) ->
  exists ys, mapM f l = Ok ys /\ forall y, In y ys -> exists x, In x l /\ f x = Ok y.
Proof.
  induction l as [| x l IH]; intros H.
  - exists []. split; [reflexivity | intros y []].
  - destruct (H x (or_introl eq_refl)) as [y Hy].
    destruct IH as (ys & Hys & Hall); [intros z Hz; apply H; now right |].
    exists (y :: ys). split.
    + change (mapM f (x :: l)) with (y' ← f x; k ← mapM f l; mret (y' :: k)).
      now rewrite Hy, Hys.
    + intros y' [<- | Hy']; [exists x; split; [now left | exact Hy] |].
      destruct (Hall y' Hy') as (x' & Hx' & E). exists x'. split; [now right | exact E].
Qed.

Lemma ordered_distinct_fold_In (l acc : list string) (x : string) :
  In x acc \/ In x l ->
  In x (fold_left (fun acc x => if existsb (String.eqb x) acc then acc else acc ++ [x]) l acc).
Proof.
  revert acc. induction l as [| y l IH]; intros acc H; simpl.
  - destruct H as [H | []]. exact H.
  - apply IH. destruct H as [H | [-> | H]]; [| | now right]; left.
    + destruct (existsb _ acc); [exact H | apply in_or_app; now left].
    + destruct (existsb (String.eqb x) acc) eqn:E.
      * apply existsb_exists in E as (z & Hz & Ez). apply String.eqb_eq in Ez. now subst.
      * apply in_or_app. right. now left.
Qed.

Lemma ordered_distinct_In (l : list string) (x : string) :
  In x l -> In x (ordered_distinct l).
Proof. intros H. apply ordered_distinct_fold_In. now right. Qed.

(** Every source listed has an input index, within the number of inputs. *)
Lemma input_map_lookup (ordered_sources : list string) (src : string) :
  In src ordered_sources ->
  exists idx : nat,
    (list_to_map (imap (fun idx src => (src, Z.of_nat idx)) ordered_sources)
       : gmap string Z) !! src = Some (Z.of_nat idx)
    /\ (idx < length ordered_sources)%nat.
Proof.
  intros Hin.
  destruct ((list_to_map (imap (fun idx src => (src, Z.of_nat idx)) ordered_sources)
               : gmap string Z) !! src) as [z |] eqn:E.
  - apply elem_of_list_to_map_2 in E.
    apply elem_of_lookup_imap_1 in E as (idx & s & [= -> ->] & Hl).
    exists idx. split; [reflexivity |]. now apply lookup_lt_Some in Hl.
  - exfalso. apply not_elem_of_list_to_map_2 in E. apply E.
    apply list_elem_of_In in Hin. apply list_elem_of_lookup in Hin as [idx Hidx].
    apply list_elem_of_fmap. exists (src, Z.of_nat idx). split; [reflexivity |].
    now apply (elem_of_lookup_imap_2 (fun idx src => (src, Z.of_nat idx))).
Qed.

Lemma build_filter_complex_total (segments : list SegmentPayload.t) (inputs_count : Z)
    (logo_idx : option Z) (width height : Z) (source_audio : option (gmap Z bool))
    (logo_corner : string) (logo_safe_area : Q) (loudnorm synth : bool) :
  Forall (fun seg =>
            (0 <= SegmentPayload.src_index seg < inputs_count)%Z
            /\ (default true (audio_flags_of source_audio inputs_count
                              !! SegmentPayload.src_index seg) = true
                \/ synth = true)) segments ->
  exists lines,
    build_filter_lines segments inputs_count logo_idx width height source_audio
                       logo_corner logo_safe_area loudnorm synth = Ok lines
    /\ build_filter_complex segments inputs_count logo_idx width height source_audio
                            logo_corner logo_safe_area loudnorm synth
       = Ok (String.concat ";" (map render_line lines), "[vout]", "[aout]").
Proof.
  intros H.
  apply (segment_loop_runs segments (audio_flags_of source_audio inputs_count) inputs_count
           (scale_expr_of width height) synth) in H as [st Hst].
  unfold build_filter_complex, build_filter_lines.
  fold (branches_of segments (audio_flags_of source_audio inputs_count) inputs_count).
  rewrite Hst. simpl.
  destruct logo_idx as [li |]; [destruct (_logo_coordinates _ _) |]; simpl; eauto.
Qed.

Section RenderTotal.
Context (_has_audio_stream path_exists : string -> bool) (str_of_Path : string -> string)
        (_ffmpeg_executable : string).

(** Assembling one command never fails: every segment's source has an
    input index, and silence stands in for missing audio. *)
Lemma _build_single_command_total (edl : EDL.t) (branding : BrandingSettings.t)
    (segments : list Segment.t) (width height : Z) (output_path : string) :
  exists cmd,
    _build_single_command _has_audio_stream path_exists str_of_Path _ffmpeg_executable
                          edl branding segments width height output_path = Ok cmd.
Proof.
  unfold _build_single_command.
  set (ordered_sources := ordered_distinct (map Segment.src segments)).
  set (input_map := list_to_map _ : gmap string Z).
  destruct (match BrandingSettings.logo_path branding with
            | Some (String c r) => _
            | _ => _
            end) as [logo_index input_args].
  destruct (mapM_result_Ok
              (fun src => match input_map !! src with
                          | Some idx => Ok (idx, _has_audio_stream src)
                          | None => Raise (KeyError src)
                          end) ordered_sources) as (audio_presence & -> & _).
  { intros src Hsrc. destruct (input_map_lookup ordered_sources src Hsrc) as (idx & E & _).
    subst input_map. rewrite E. eauto. }
  destruct (mapM_result_Ok
              (fun seg => match input_map !! Segment.src seg with
                          | Some idx => Ok (SegmentPayload.mk idx (Segment.start seg)
                                                              (Segment.end_ seg))
                          | None => Raise (KeyError (Segment.src seg))
                          end) segments) as (payload & -> & Hpayload).
  { intros seg Hseg.
    destruct (input_map_lookup ordered_sources (Segment.src seg)) as (idx & E & _).
    - apply ordered_distinct_In, in_map, Hseg.
    - subst input_map. rewrite E. eauto. }
  simpl.
  destruct (build_filter_complex_total payload (Z.of_nat (length ordered_sources)) logo_index
              width height (Some (list_to_map audio_presence))
              (BrandingSettings.logo_corner branding) (BrandingSettings.safe_area branding)
              true true) as (lines & _ & ->).
  { apply List.Forall_forall. intros p Hp.
    destruct (Hpayload p Hp) as (seg & Hseg & E).
    destruct (input_map_lookup ordered_sources (Segment.src seg)) as (idx & Eidx & Hidx);
      [apply ordered_distinct_In, in_map, Hseg |].
    subst input_map. rewrite Eidx in E. injection E as <-. simpl.
    split; [lia | now right]. }
  simpl. eauto.
Qed.

(** The loop over the deliverables never fails; it adds an entry for each
    ratio of the dimension table and none for any other. *)
Lemma command_loop_total (edl : EDL.t) (config : Config.t) (output_stub : OutputStub)
    (ratios : list string) (commands : gmap string (list string)) :
  exists commands',
    command_loop _has_audio_stream path_exists str_of_Path _ffmpeg_executable
                 edl config output_stub commands ratios = Ok commands'
    /\ forall ratio,
         is_Some (commands' !! ratio)
         <-> is_Some (commands !! ratio)
             \/ (In ratio ratios /\ is_Some (ASPECT_DIMENSIONS !! ratio)).
Proof.
  revert commands. induction ratios as [| r ratios IH]; intros commands; simpl.
  - exists commands. split; [reflexivity |]. intros ratio. tauto.
  - unfold command_step. destruct (ASPECT_DIMENSIONS !! r) as [dims |] eqn:Edims.
    + destruct (_build_single_command_total edl (Config.branding config) (EDL.segments edl)
                  (fst dims) (snd dims) (_derive_output_path output_stub r)) as [cmd ->].
      simpl. destruct (IH (<[r := cmd]> commands)) as (commands' & -> & Hkeys).
      exists commands'. split; [reflexivity |]. intros ratio. rewrite Hkeys.
      rewrite lookup_insert. destruct (decide (r = ratio)) as [<- | NE].
      * rewrite Edims. split; [intros _ | intros _; left]; eauto.
      * split; intros [H | [H1 H2]]; auto. destruct H1 as [-> | H1]; [congruence | auto].
    + simpl. destruct (IH commands) as (commands' & -> & Hkeys).
      exists commands'. split; [reflexivity |]. intros ratio. rewrite Hkeys.
      split; intros [H | [H1 H2]]; auto.
      destruct H1 as [-> | H1]; [| auto]. rewrite Edims in H2. now destruct H2.
Qed.
End RenderTotal.

(** C8: [build_commands] raises its [ValueError] for an EDL without
    segments, whatever the deliverables; for any other EDL it returns
    commands, with an entry for exactly those requested ratios that the
    dimension table has: a ratio outside the table is skipped without error
    and gets no entry. *)
Theorem C8_empty_edl_fatal_unknown_ratio_skipped
    (_has_audio_stream path_exists : string -> bool) (str_of_Path : string -> string)
    (_ffmpeg_executable : string)
    (edl : EDL.t) (config : Config.t) (output_stub : OutputStub) :
  (EDL.segments edl = [] ->
   build_commands _has_audio_stream path_exists str_of_Path _ffmpeg_executable edl config output_stub
   = Raise (ValueError "EDL contains no segments to render"))
  /\ (EDL.segments edl <> [] ->
      exists commands,
        build_commands _has_audio_stream path_exists str_of_Path _ffmpeg_executable edl config output_stub
        = Ok commands
        /\ forall ratio,
             is_Some (commands !! ratio)
             <-> In ratio (Config.deliverables config)
                 /\ is_Some (ASPECT_DIMENSIONS !! ratio)).
Proof.
  unfold build_commands. split.
  - now intros ->.
  - intros Hne. destruct (EDL.segments edl) as [| seg segs] eqn:E; [congruence |].
    destruct (command_loop_total _has_audio_stream path_exists str_of_Path _ffmpeg_executable
                edl config output_stub (Config.deliverables config) ∅)
      as (commands & -> & Hkeys).
    exists commands. split; [reflexivity |]. intros ratio. rewrite Hkeys, lookup_empty.
    split; [intros [[? H] | H]; [discriminate | exact H] | auto].
Qed.
Lemma witness_C8_empty_edl_fatal_unknown_ratio_skipped :
  exists commands,
    build_commands (fun _ => true) (fun _ => false) (fun text => text) "ffmpeg" fx_edl fx_config_two_ratios fx_stub
    = Ok commands
    /\ is_Some (commands !! "9:16")
    /\ commands !! "4:3" = None.
Proof.
  assert (EDL.segments fx_edl <> []) as Hne by discriminate.
  destruct (proj2 (C8_empty_edl_fatal_unknown_ratio_skipped
                     (fun _ => true) (fun _ => false) (fun text => text) "ffmpeg"
                     fx_edl fx_config_two_ratios fx_stub) Hne) as (commands & E & Hkeys).
  exists commands. split; [exact E |]. split.
  - apply Hkeys. split; [left; reflexivity | eexists; vm_compute; reflexivity].
  - destruct (commands !! "4:3") as [cmd |] eqn:E43; [exfalso | reflexivity].
    assert (is_Some (commands !! "4:3")) as H by (rewrite E43; eauto).
    apply Hkeys in H as [_ [dims Hd]]. vm_compute in Hd. discriminate Hd.
Defined.

(** ** Further properties of the selector *)

Lemma select_step_grows (config : Config.t) (st st' : loop_state) (cand : CandidateClip.t) :
  select_step config st cand = Continue st' \/ select_step config st cand = Break st' ->
  st' = st
  \/ exists cand_end,
       acceptable config st cand cand_end
       /\ st' = accepted_state st (accepted_segment cand cand_end)
                               (str_or (CandidateClip.camera cand) "unknown").
Proof.
  intros HE.
  destruct (select_step_cases config st cand)
    as [E | [[E _] | (cand_end & Hacc & [[E Ht] | [E Ht]])]];
    rewrite E in HE; destruct HE as [[= <-] | [= <-]]; eauto.
Qed.

Lemma accepted_built_from (config : Config.t) (st : loop_state) (cand : CandidateClip.t)
    (cand_end : Q) :
  acceptable config st cand cand_end ->
  built_from config (accepted_segment cand cand_end) cand.
Proof.
  intros Hacc. pose proof (acceptable_fits config st cand cand_end Hacc) as [_ Hle].
  destruct Hacc as (H1 & H2 & _).
  unfold built_from. simpl. repeat split; auto.
  pose proof (accepted_duration_le cand cand_end) as Hd.
  unfold CandidateClip.duration in *.
  case_max 0 (cand_end - CandidateClip.start cand + (1 # 1000));
    case_max 0 (CandidateClip.end_ cand - CandidateClip.start cand); lra.
Qed.

Lemma select_loop_built_from (config : Config.t) (candidates ordered : list CandidateClip.t) :
  (forall c, In c ordered -> In c candidates) ->
  Forall (fun seg => exists cand, In cand candidates /\ built_from config seg cand)
         (selected (select_loop config initial_state ordered)).
Proof.
  intros Hsub.
  apply (select_loop_ind_on config (fun c => In c candidates)
           (fun st => Forall (fun seg => exists cand, In cand candidates
                                                      /\ built_from config seg cand)
                             (selected st))
           (fun st => Forall (fun seg => exists cand, In cand candidates
                                                      /\ built_from config seg cand)
                             (selected st)));
    [| | auto | now apply List.Forall_forall | constructor].
  - intros st cand st' Hc HP E.
    destruct (select_step_grows config st st' cand (or_introl E)) as [-> | (ce & Hacc & ->)];
      [exact HP |].
    simpl. apply Forall_app. split; [exact HP |]. constructor; [| constructor].
    exists cand. split; [exact Hc | now apply (accepted_built_from config st)].
  - intros st cand st' Hc HP E.
    destruct (select_step_grows config st st' cand (or_intror E)) as [-> | (ce & Hacc & ->)];
      [exact HP |].
    simpl. apply Forall_app. split; [exact HP |]. constructor; [| constructor].
    exists cand. split; [exact Hc | now apply (accepted_built_from config st)].
Qed.

(** C7, as the code has it: [to_dict] writes every segment with its
    timestamps rounded to three decimals, its score to four, and its tags
    in the order the segment holds them; it does not sort them (the tags of
    the segments that [select_segments] builds are already in alphabetical
    order).  Deserializing a serialized EDL succeeds and gives back the same
    header fields and metadata and a segment sequence of the same length in
    the same order, each segment with the same [src], [tags] (in the same
    order) and [cam], its timestamps rounded to three decimals and its
    score to four; serializing the result again gives the very same
    dictionary. *)
Theorem C7_serialization_round_trip :
  (forall edl : EDL.t,
      (exists entries,
          item (EDL.to_dict edl) "segments" = Some (PList entries)
          /\ Forall2 serialized_as (EDL.segments edl) entries)
      /\ exists edl',
           edl_from_dict (EDL.to_dict edl) = Ok edl'
           /\ edl' = with_segments edl (EDL.segments edl')
           /\ length (EDL.segments edl') = length (EDL.segments edl)
           /\ (forall i seg,
                  nth_error (EDL.segments edl) i = Some seg ->
                  exists seg',
                    nth_error (EDL.segments edl') i = Some seg'
                    /\ Segment.src seg' = Segment.src seg
                    /\ Segment.start seg' = py_round (Segment.start seg) 3
                    /\ Segment.end_ seg' = py_round (Segment.end_ seg) 3
                    /\ Segment.score seg' = py_round (Segment.score seg) 4
                    /\ Segment.tags seg' = Segment.tags seg
                    /\ Segment.camera seg' = Segment.camera seg)
           /\ EDL.to_dict edl' = EDL.to_dict edl)
  /\ (forall (rng_state : Type) (Random : Z -> rng_state)
             (random : rng_state -> Q * rng_state)
             (candidates_by_src : list (string * list CandidateClip.t)) (config : Config.t)
             (seg : Segment.t),
         In seg (EDL.segments
                   (fst (select_segments rng_state Random random candidates_by_src config))) ->
         alphabetical (Segment.tags seg)).
Proof.
  split.
  - intros edl. split.
    + exists (map EDL.segment_to_dict (EDL.segments edl)). split.
      * unfold EDL.to_dict. destruct (EDL.metadata edl); reflexivity.
      * induction (EDL.segments edl) as [| seg l IH]; constructor; [| exact IH].
        unfold serialized_as. repeat split; reflexivity.
    + exists (with_segments edl (map round_segment (EDL.segments edl))).
      split; [apply edl_from_to_dict |].
      split; [reflexivity |].
      split; [simpl; apply length_map |].
      split.
      * intros i seg H. exists (round_segment seg). split.
        -- simpl. rewrite nth_error_map, H. reflexivity.
        -- repeat split; reflexivity.
      * unfold EDL.to_dict, with_segments. simpl.
        rewrite map_map.
        rewrite (map_ext _ _ segment_to_dict_round). reflexivity.
  - intros rng_state Random random candidates_by_src config seg Hin.
    destruct (select_segments_edl Random random candidates_by_src config)
      as (ordered & Hperm & E).
    rewrite E in Hin. simpl in Hin.
    pose proof (select_loop_built_from config ordered ordered (fun c H => H)) as Hall.
    rewrite List.Forall_forall in Hall.
    destruct (Hall seg Hin) as (cand & _ & Hb).
    destruct Hb as (_ & _ & _ & -> & _). apply sorted_strings_sorted.
Qed.

(** C7 as claimed fails: [to_dict] does not sort the tags.  A segment that
    holds the tags [motion, audio_peak] is written with its tags in that
    order, which is not alphabetical. *)
Lemma C7_counterexample :
  exists entry,
    item (EDL.to_dict fx_edl_unsorted_tags) "segments" = Some (PList [entry])
    /\ item entry "tags" = Some (PList [PStr "motion"; PStr "audio_peak"])
    /\ ~ alphabetical ["motion"; "audio_peak"].
Proof.
  eexists. split; [reflexivity |]. split; [reflexivity |].
  unfold alphabetical. intros H. apply StronglySorted_inv in H as [_ H].
  apply List.Forall_inv in H. vm_compute in H. discriminate.
Qed.


Lemma select_loop_count (config : Config.t) (ordered : list CandidateClip.t) (st : loop_state) :
  (length (selected (select_loop config st ordered))
   <= length (selected st) + length ordered)%nat.
Proof.
  revert st. induction ordered as [| cand rest IH]; intros st; simpl; [lia |].
  destruct (select_step config st cand) as [st' | st'] eqn:E.
  - specialize (IH st').
    destruct (select_step_grows config st st' cand (or_introl E)) as [-> | (ce & _ & ->)];
      simpl in *; rewrite ?length_app in *; simpl in *; lia.
  - destruct (select_step_grows config st st' cand (or_intror E)) as [-> | (ce & _ & ->)];
      simpl; rewrite ?length_app; simpl; lia.
Qed.

(** X2: the metrics agree with the EDL: [total_candidates] counts the
    candidates of all sources, [selected_segments] is the number of segments
    of the EDL and never exceeds [total_candidates], and
    [selected_duration] is the EDL's total duration rounded to 3 decimals;
    without candidates the EDL has no segments and the metrics are zero. *)
Theorem select_segments_metrics_agree
    (rng_state : Type) (Random : Z -> rng_state) (random : rng_state -> Q * rng_state)
    (candidates_by_src : list (string * list CandidateClip.t)) (config : Config.t) :
  let edl := fst (select_segments rng_state Random random candidates_by_src config) in
  let m := snd (select_segments rng_state Random random candidates_by_src config) in
  total_candidates m = length (flat_map snd candidates_by_src)
  /\ selected_segments m = length (EDL.segments edl)
  /\ (selected_segments m <= total_candidates m)%nat
  /\ selected_duration m == py_round (EDL.total_duration edl) 3
  /\ (flat_map snd candidates_by_src = [] ->
      EDL.segments edl = [] /\ m = mkMetrics 0 0 0).
Proof.
  unfold select_segments.
  destruct (flat_map snd candidates_by_src) as [| c l] eqn:E; simpl.
  - repeat split; try reflexivity; lia.
  - set (ordered := _order_candidates _ _ _ _).
    split; [reflexivity |]. split; [reflexivity |]. split; [| split; [| discriminate]].
    + pose proof (select_loop_count config ordered initial_state) as H.
      pose proof (Permutation_length
                    (_order_candidates_perm random (c :: l) (Random (Config.seed config)))) as Hl.
      fold ordered in Hl. simpl in *. lia.
    + apply py_round3_comp. unfold EDL.total_duration. simpl. apply select_loop_sum.
Qed.






(** ** Ordering *)

Section SortedBy.
Context {A : Type} (ltb : A -> A -> bool) (R : A -> A -> Prop).
Hypothesis R_trans : forall a b c, R a b -> R b c -> R a c.
Hypothesis ltb_true : forall a b, ltb a b = true -> R a b.
Hypothesis ltb_false : forall a b, ltb a b = false -> R b a.

Lemma insert_by_sorted_rel (x : A) (l : list A) :
  StronglySorted R l -> StronglySorted R (insert_by ltb x l).
Proof.
  induction l as [| y l IH]; intros Hs; simpl.
  - repeat constructor.
  - apply StronglySorted_inv in Hs as [Hs Hy].
    destruct (ltb y x) eqn:E.
    + constructor; [auto |].
      rewrite List.Forall_forall in *. intros z Hz.
      apply (Permutation_in _ (insert_by_perm ltb x l)) in Hz as [<- | Hz]; auto.
    + constructor; [now constructor |].
      constructor; [now apply ltb_false |].
      rewrite List.Forall_forall in *. intros z Hz.
      apply (R_trans x y z); [now apply ltb_false | auto].
Qed.

Lemma py_sorted_sorted_rel (l : list A) : StronglySorted R (py_sorted ltb l).
Proof.
  induction l as [| x l IH]; simpl; [constructor | now apply insert_by_sorted_rel].
Qed.
End SortedBy.





(** ** Further properties of the candidate builder *)

Lemma near_duplicate_sym (tolerance : Q) (a b : CandidateClip.t) :
  near_duplicate tolerance a b -> near_duplicate tolerance b a.
Proof.
  unfold near_duplicate. intros (-> & H1 & H2). split; [reflexivity |].
  rewrite <- (Qabs_opp (CandidateClip.start b - CandidateClip.start a)),
          <- (Qabs_opp (CandidateClip.end_ b - CandidateClip.end_ a)).
  assert (- (CandidateClip.start b - CandidateClip.start a)
          == CandidateClip.start a - CandidateClip.start b) as -> by ring.
  assert (- (CandidateClip.end_ b - CandidateClip.end_ a)
          == CandidateClip.end_ a - CandidateClip.end_ b) as -> by ring.
  auto.
Qed.

Lemma merge_step_not_blocked (tolerance : Q) (kept : list CandidateClip.t)
    (cand : CandidateClip.t) :
  existsb (fun existing => _overlaps cand existing tolerance) kept = false ->
  forall k, In k kept -> ~ near_duplicate tolerance cand k.
Proof.
  intros H k Hk Hdup. apply not_true_iff_false in H. apply H.
  apply merge_step_blocked. eauto.
Qed.

Lemma merge_fold_distinct (tolerance : Q) (l acc : list CandidateClip.t) :
  (forall i j a b, (i < j)%nat -> nth_error acc i = Some a -> nth_error acc j = Some b ->
                   ~ near_duplicate tolerance b a) ->
  forall i j a b,
    (i < j)%nat ->
    nth_error (fold_left (merge_step tolerance) l acc) i = Some a ->
    nth_error (fold_left (merge_step tolerance) l acc) j = Some b ->
    ~ near_duplicate tolerance b a.
Proof.
  revert acc. induction l as [| c l IH]; intros acc Hacc; simpl; [exact Hacc |].
  apply IH. unfold merge_step.
  destruct (existsb _ acc) eqn:E; [exact Hacc |].
  intros i j a b Hij Ha Hb.
  destruct (Nat.lt_ge_cases j (length acc)) as [Hj | Hj].
  - rewrite nth_error_app1 in Hb by lia. rewrite nth_error_app1 in Ha by lia.
    now apply (Hacc i j).
  - rewrite nth_error_app2 in Hb by assumption.
    destruct (j - length acc)%nat as [| d] eqn:Ej; [| destruct d; discriminate].
    injection Hb as <-.
    assert (i < length acc)%nat as Hi.
    { assert (nth_error (acc ++ [c]) i <> None) as Hn by congruence.
      apply nth_error_Some in Hn. rewrite length_app in Hn. simpl in Hn. lia. }
    rewrite nth_error_app1 in Ha by assumption.
    apply (merge_step_not_blocked tolerance acc c E). now apply nth_error_In in Ha.
Qed.

(** X5: no two of the candidates [_merge_similar_candidates] keeps are
    near-duplicates of each other (same source, starts within the tolerance
    and ends within the tolerance). *)
Theorem _merge_similar_candidates_no_near_duplicates
    (candidates : list CandidateClip.t) (tolerance : Q) (i j : nat) (a b : CandidateClip.t) :
  i <> j ->
  nth_error (_merge_similar_candidates candidates tolerance) i = Some a ->
  nth_error (_merge_similar_candidates candidates tolerance) j = Some b ->
  ~ near_duplicate tolerance a b.
Proof.
  intros Hij Ha Hb.
  assert (forall i j a b, (i < j)%nat ->
            nth_error (_merge_similar_candidates candidates tolerance) i = Some a ->
            nth_error (_merge_similar_candidates candidates tolerance) j = Some b ->
            ~ near_duplicate tolerance b a) as H.
  { apply merge_fold_distinct. intros i' j' a' b' _ Hn. destruct i'; discriminate. }
  destruct (Nat.lt_gt_cases i j) as [Hcases _]. destruct (Hcases Hij) as [Hlt | Hgt].
  - intros Hd. apply (H i j a b Hlt Ha Hb). now apply near_duplicate_sym.
  - now apply (H j i b a).
Qed.

Lemma witness__merge_similar_candidates_no_near_duplicates :
  exists a b,
    _merge_similar_candidates [fx_clip_early; fx_clip_late] (1 # 2) = [a; b]
    /\ ~ near_duplicate (1 # 2) a b.
Proof.
  eexists. eexists. split; [vm_compute; reflexivity |].
  apply (_merge_similar_candidates_no_near_duplicates [fx_clip_early; fx_clip_late] (1 # 2)
           0%nat 1%nat); [discriminate | vm_compute; reflexivity | vm_compute; reflexivity].
Defined.











Lemma prefix_before_spec (d : ascii) (s : string) :
  match prefix_before d s with
  | Some p => ~ occurs d p /\ exists rest, s = p +:+ String d rest
  | None => ~ occurs d s
  end.
Proof.
  induction s as [| c s IH]; simpl.
  - intros [].
  - destruct (Ascii.eqb_spec c d) as [-> | NE].
    + split; [intros [] | exists s; reflexivity].
    + destruct (prefix_before d s) as [p |].
      * destruct IH as [Hno [rest ->]]. split.
        -- intros [H | H]; [congruence | auto].
        -- exists rest. reflexivity.
      * intros [H | H]; [congruence | auto].
Qed.

(** X8: the camera label is the part of the stem before the first
    underscore; without an underscore, before the first hyphen; without
    either, before the first space; and the whole stem when it has none of
    the three.  The label never contains the delimiter it was cut at. *)
Theorem _infer_camera_label_is_prefix (path : Path) :
  let stem := path_stem path in
  let label := _infer_camera_label path in
  (occurs "_" stem ->
   ~ occurs "_" label /\ exists rest, stem = label +:+ String "_" rest)
  /\ (~ occurs "_" stem -> occurs "-" stem ->
      ~ occurs "-" label /\ exists rest, stem = label +:+ String "-" rest)
  /\ (~ occurs "_" stem -> ~ occurs "-" stem -> occurs " " stem ->
      ~ occurs " " label /\ exists rest, stem = label +:+ String " " rest)
  /\ (~ occurs "_" stem -> ~ occurs "-" stem -> ~ occurs " " stem -> label = stem).
Proof.
  intros stem label. subst label. unfold _infer_camera_label. fold stem.
  pose proof (prefix_before_spec "_" stem) as H1.
  pose proof (prefix_before_spec "-" stem) as H2.
  pose proof (prefix_before_spec " " stem) as H3.
  assert (Hocc : forall d p rest, occurs d (p +:+ String d rest)).
  { intros d p rest. unfold occurs. induction p; simpl; auto. }
  destruct (prefix_before "_" stem) as [p1 |].
  { destruct H1 as [Hn [rest E]].
    assert (occurs "_" stem) by (rewrite E; apply Hocc).
    split; [intros _; split; [exact Hn | exists rest; exact E] |].
    repeat split; intros; contradiction. }
  destruct (prefix_before "-" stem) as [p2 |].
  { destruct H2 as [Hn [rest E]].
    assert (occurs "-" stem) by (rewrite E; apply Hocc).
    split; [intros; contradiction |].
    split; [intros _ _; split; [exact Hn | exists rest; exact E] |].
    repeat split; intros; contradiction. }
  destruct (prefix_before " " stem) as [p3 |].
  { destruct H3 as [Hn [rest E]].
    assert (occurs " " stem) by (rewrite E; apply Hocc).
    split; [intros; contradiction |].
    split; [intros; contradiction |].
    split; [intros _ _ _; split; [exact Hn | exists rest; exact E] |].
    intros; contradiction. }
  repeat split; intros; try contradiction; reflexivity.
Qed.

Lemma witness__infer_camera_label_is_prefix :
  _infer_camera_label fx_path = "camA".
Proof.
  destruct (_infer_camera_label_is_prefix fx_path) as [H _].
  destruct H as [_ [rest E]]; [unfold occurs; simpl; tauto |].
  reflexivity.
Defined.
Lemma renderable_spec (audio_flags : gmap Z bool) (inputs_count : Z) (synth : bool)
    (seg : SegmentPayload.t) :
  renderable audio_flags inputs_count synth seg = true <->
  (0 <= SegmentPayload.src_index seg < inputs_count)%Z
  /\ (default true (audio_flags !! SegmentPayload.src_index seg) = true \/ synth = true).
Proof.
  unfold renderable. rewrite !andb_true_iff, orb_true_iff, Z.leb_le, Z.ltb_lt. tauto.
Qed.

Section SegmentLoopFailure.
Context (segments : list SegmentPayload.t) (audio_flags : gmap Z bool) (inputs_count : Z).
Context (scale_expr : string) (synth : bool).

Let branches : branch_state := branches_of segments audio_flags inputs_count.

Let cursors_at (pre : list SegmentPayload.t) (st : segment_state) : Prop :=
  (forall k, video_cursor st !! k
             = (fun _ => usage_count pre k) <$> (video_branches branches !! k))
  /\ (forall k, default true (audio_flags !! k) = true ->
                audio_cursor st !! k
                = (fun _ => usage_count pre k) <$> (audio_branches branches !! k))
  /\ concat_inputs st = map pair_label (seq 0 (length pre))
  /\ List.filter is_concat (s_lines st) = []
  /\ forall i seg, nth_error pre i = Some seg ->
                   segment_lines segments audio_flags scale_expr i seg (s_lines st).

(** An iteration on a segment that is not renderable raises [ValueError]. *)
Lemma segment_step_fails (pre rest : list SegmentPayload.t) (seg : SegmentPayload.t)
    (st : segment_state) :
  segments = pre ++ seg :: rest ->
  cursors_at pre st ->
  renderable audio_flags inputs_count synth seg = false ->
  exists msg,
    segment_step branches audio_flags scale_expr synth st (length pre) seg
    = Raise (ValueError msg).
Proof.
  intros Hseg (Hvc & Hac & _) Hno.
  pose proof (branches_of_tables segments audio_flags inputs_count
                (SegmentPayload.src_index seg)) as (Tv & Ta & _).
  fold branches in Tv, Ta.
  assert (usage_count segments (SegmentPayload.src_index seg)
          = S (usage_count pre (SegmentPayload.src_index seg)
               + usage_count rest (SegmentPayload.src_index seg))) as Hcount.
  { rewrite Hseg, usage_count_app, usage_count_cons, Z.eqb_refl. lia. }
  unfold segment_step.
  destruct (decide _) as [[Hrange _] | Hout].
  - assert (exists vb,
              nth_error (branch_labels "v" (SegmentPayload.src_index seg)
                           (usage_count segments (SegmentPayload.src_index seg)))
                        (usage_count pre (SegmentPayload.src_index seg)) = Some vb)
      as [vb Hvb].
    { destruct (nth_error _ _) eqn:E; [eauto |].
      apply nth_error_None in E. rewrite branch_labels_length in E; lia. }
    assert (take_branch (video_branches branches) (video_cursor st)
              (SegmentPayload.src_index seg) "No video branches for input" = Ok vb) as ->.
    { apply take_branch_Ok. eexists. eexists. split; [exact Tv |].
      split; [rewrite Hvc, Tv; reflexivity | exact Hvb]. }
    simpl.
    destruct (default true (audio_flags !! SegmentPayload.src_index seg)) eqn:Eflag.
    + exfalso. revert Hno. unfold renderable. rewrite Eflag.
      destruct (Z.leb_spec 0 (SegmentPayload.src_index seg));
        destruct (Z.ltb_spec (SegmentPayload.src_index seg) inputs_count);
        simpl; try discriminate; lia.
    + destruct synth eqn:Es; [| simpl; eauto].
      exfalso. revert Hno. unfold renderable. rewrite Eflag.
      destruct (Z.leb_spec 0 (SegmentPayload.src_index seg));
        destruct (Z.ltb_spec (SegmentPayload.src_index seg) inputs_count);
        simpl; try discriminate; lia.
  - unfold take_branch. rewrite Tv. simpl. eauto.
Qed.

(** The second loop stops with [ValueError] at the first segment that is
    not renderable. *)
Lemma segment_loop_fails (pre rest : list SegmentPayload.t) (st : segment_state) :
  segments = pre ++ rest ->
  cursors_at pre st ->
  forallb (renderable audio_flags inputs_count synth) rest = false ->
  exists msg,
    segment_loop branches audio_flags scale_expr synth st (length pre) rest
    = Raise (ValueError msg).
Proof.
  revert pre st. induction rest as [| seg rest IH]; intros pre st Hseg Hinv Hno.
  - discriminate.
  - cbn [forallb] in Hno. cbn [segment_loop].
    destruct (renderable audio_flags inputs_count synth seg) eqn:Er.
    + apply renderable_spec in Er as [Hr Ha]. simpl in Hno.
      destruct (segment_step_total segments audio_flags inputs_count scale_expr synth
                  pre rest seg st Hseg Hinv Hr Ha) as [st1 E].
      fold branches in E. rewrite E. simpl.
      replace (S (length pre)) with (length (pre ++ [seg]))
        by (rewrite length_app; simpl; lia).
      apply IH; [now rewrite <- app_assoc | | exact Hno].
      apply (segment_step_inv segments audio_flags inputs_count scale_expr synth
               pre rest seg st st1 Hseg Hinv E).
    + destruct (segment_step_fails pre rest seg st Hseg Hinv Er) as [msg E].
      rewrite E. simpl. eauto.
Qed.

Lemma segment_loop_stops :
  forallb (renderable audio_flags inputs_count synth) segments = false ->
  exists msg,
    segment_loop branches audio_flags scale_expr synth
      (mkSegState (b_lines branches)
                  ((fun _ => O) <$> video_branches branches)
                  ((fun _ => O) <$> audio_branches branches) [])
      O segments = Raise (ValueError msg).
Proof.
  intros H. apply (segment_loop_fails [] segments); [reflexivity | | exact H].
  apply (loop_inv_initial segments audio_flags inputs_count scale_expr).
Qed.
End SegmentLoopFailure.

(** X9: [build_filter_complex] returns a graph exactly when every segment
    names an input in [0, inputs_count) and, where that input has no audio,
    silence synthesis is enabled; otherwise it raises [ValueError], and no
    other exception: the branch cursors never run past their lists. *)
Theorem build_filter_complex_fails_only_on_unrenderable
    (segments : list SegmentPayload.t) (inputs_count : Z)
    (logo_idx : option Z) (width height : Z) (source_audio : option (gmap Z bool))
    (logo_corner : string) (logo_safe_area : Q) (loudnorm synth : bool) :
  let audio_flags := audio_flags_of source_audio inputs_count in
  let run := build_filter_complex segments inputs_count logo_idx width height source_audio
                                  logo_corner logo_safe_area loudnorm synth in
  if forallb (renderable audio_flags inputs_count synth) segments
  then exists graph, run = Ok (graph, "[vout]", "[aout]")
  else exists msg, run = Raise (ValueError msg).
Proof.
  intros audio_flags run.
  destruct (forallb _ segments) eqn:E.
  - rewrite forallb_forall in E.
    destruct (build_filter_complex_total segments inputs_count logo_idx width height
                source_audio logo_corner logo_safe_area loudnorm synth) as (lines & _ & H).
    + apply List.Forall_forall. intros seg Hin.
      apply renderable_spec, E, Hin.
    + eexists. exact H.
  - destruct (segment_loop_stops segments audio_flags inputs_count
                (scale_expr_of width height) synth E) as [msg H].
    exists msg. subst run. unfold build_filter_complex, build_filter_lines.
    fold audio_flags. fold (branches_of segments audio_flags inputs_count).
    rewrite H. reflexivity.
Qed.

Lemma witness_build_filter_complex_fails_only_on_unrenderable :
  (exists graph,
     build_filter_complex fx_payload 2 None 1080 1920
       (Some (list_to_map [(0%Z, true); (1%Z, true)])) "bottom_right" (8 # 10) true true
     = Ok (graph, "[vout]", "[aout]"))
  /\ (exists msg,
        build_filter_complex fx_payload 1 None 1080 1920
          (Some (list_to_map [(0%Z, true)])) "bottom_right" (8 # 10) true true
        = Raise (ValueError msg))
  /\ (exists msg,
        build_filter_complex fx_payload 2 None 1080 1920
          (Some (list_to_map [(0%Z, true); (1%Z, false)])) "bottom_right" (8 # 10) true false
        = Raise (ValueError msg)).
Proof.
  split; [| split].
  - exact (build_filter_complex_fails_only_on_unrenderable fx_payload 2 None 1080 1920
             (Some (list_to_map [(0%Z, true); (1%Z, true)])) "bottom_right" (8 # 10)
             true true).
  - exact (build_filter_complex_fails_only_on_unrenderable fx_payload 1 None 1080 1920
             (Some (list_to_map [(0%Z, true)])) "bottom_right" (8 # 10) true true).
  - exact (build_filter_complex_fails_only_on_unrenderable fx_payload 2 None 1080 1920
             (Some (list_to_map [(0%Z, true); (1%Z, false)])) "bottom_right" (8 # 10)
             true false).
Defined.
Lemma duration_on_grid (seg : Segment.t) :
  segment_on_grid seg -> on_grid (Segment.duration seg).
Proof.
  intros [Hs He]. unfold Segment.duration.
  case_max 0 (Segment.end_ seg - Segment.start seg).
  - now apply on_grid_minus.
  - exists 0%Z. reflexivity.
Qed.

Lemma elapsed_on_grid (segments : list Segment.t) (i : nat) :
  Forall segment_on_grid segments -> on_grid (elapsed segments i).
Proof.
  unfold elapsed. intros H.
  assert (Forall segment_on_grid (firstn i segments)) as Hf.
  { now apply Forall_take. }
  clear H. revert Hf. generalize (firstn i segments) as l.
  assert (forall l a, on_grid a -> Forall segment_on_grid l ->
            on_grid (fold_left (fun acc seg => acc + Segment.duration seg) l a)) as G.
  { induction l as [| seg l IH]; intros a Ha Hl; simpl; [exact Ha |].
    apply List.Forall_cons_iff in Hl as [Hseg Hl].
    apply IH; [| exact Hl]. apply on_grid_plus; [exact Ha | now apply duration_on_grid]. }
  intros l Hl. apply G; [exists 0%Z; reflexivity | exact Hl].
Qed.

(** The first loop of [build_shotstack_timeline]: one clip per segment,
    each placed at the cursor the earlier durations add up to. *)
Lemma clip_fold (segments : list Segment.t) (clips0 : list pyval) (c0 : Q) :
  exists clips c,
    fold_left clip_step segments (clips0, c0) = (clips0 ++ clips, c)
    /\ length clips = length segments
    /\ c == c0 + elapsed segments (length segments)
    /\ forall i seg,
         nth_error segments i = Some seg ->
         exists cursor,
           nth_error clips i = Some (shotstack_clip seg cursor)
           /\ cursor == c0 + elapsed segments i.
Proof.
  revert clips0 c0. induction segments as [| s segments IH]; intros clips0 c0.
  - exists [], c0. simpl. rewrite app_nil_r. repeat split.
    + unfold elapsed. simpl. lra.
    + intros i seg H. destruct i; discriminate.
  - destruct (IH (clips0 ++ [shotstack_clip s c0]) (c0 + Segment.duration s))
      as (clips & c & E & Hlen & Hc & Hnth).
    exists (shotstack_clip s c0 :: clips), c. cbn [fold_left]. unfold clip_step at 2.
    cbn [fst snd]. rewrite E, <- app_assoc. repeat split.
    + simpl. now rewrite Hlen.
    + rewrite Hc. unfold elapsed. cbn [length firstn fold_left].
      rewrite (fold_durations_shift _ (0 + _)). lra.
    + intros [| i] seg H.
      * injection H as <-. exists c0. split; [reflexivity |]. unfold elapsed. simpl. lra.
      * destruct (Hnth i seg H) as (cursor & En & Ec). exists cursor.
        split; [exact En |]. rewrite Ec. unfold elapsed. cbn [firstn fold_left].
        rewrite (fold_durations_shift _ (0 + _)). lra.
Qed.

(** X10: for an EDL whose timestamps carry three decimals (as the selector
    and the EDL reader of a serialized EDL produce them), the Shotstack
    payload has one video clip per segment, in EDL order, trimmed at the
    segment's start and as long as the segment, and the clips lie back to
    back from 0: each starts where the durations before it add up to.  The
    logo overlay, present exactly when a logo path is set, spans the whole
    reel. *)
Theorem build_shotstack_timeline_clips_back_to_back (edl : EDL.t) (config : Config.t) :
  Forall segment_on_grid (EDL.segments edl) ->
  let payload := build_shotstack_timeline edl config in
  (exists clips,
      track_clips payload 0 = Some clips
      /\ length clips = length (EDL.segments edl)
      /\ forall i seg,
           nth_error (EDL.segments edl) i = Some seg ->
           exists clip trim start len,
             nth_error clips i = Some clip
             /\ clip_reading clip = Some (Segment.src seg, trim, start, len)
             /\ trim == Segment.start seg
             /\ start == elapsed (EDL.segments edl) i
             /\ len == Segment.duration seg)
  /\ match BrandingSettings.logo_path (Config.branding config) with
     | Some (String c r) =>
         exists overlay len,
           track_clips payload 1 = Some [overlay]
           /\ item overlay "length" ≫= number = Some len
           /\ len == EDL.total_duration edl
     | _ => track_clips payload 1 = None
     end.
Proof.
  intros Hgrid payload. subst payload. unfold build_shotstack_timeline.
  destruct (clip_fold (EDL.segments edl) [] 0) as (clips & c & E & Hlen & Hc & Hnth).
  rewrite E. cbn [app]. split.
  - exists clips. split; [| split; [exact Hlen |]].
    + unfold _build_logo_overlay.
      destruct (BrandingSettings.logo_path _) as [[| ? ?] |]; reflexivity.
    + intros i seg Hi. destruct (Hnth i seg Hi) as (cursor & En & Ec).
      exists (shotstack_clip seg cursor). do 3 eexists.
      split; [exact En |]. split; [reflexivity |].
      rewrite List.Forall_forall in Hgrid.
      assert (segment_on_grid seg) as Hseg by (apply Hgrid; eapply nth_error_In; eauto).
      split; [apply py_round3_fix, Hseg |].
      split; [| apply py_round3_fix, duration_on_grid, Hseg].
      rewrite (py_round3_comp cursor (elapsed (EDL.segments edl) i)) by (rewrite Ec; lra).
      apply py_round3_fix, elapsed_on_grid. now apply List.Forall_forall.
  - unfold _build_logo_overlay.
    destruct (BrandingSettings.logo_path _) as [[| ch r] |]; try reflexivity.
    eexists. eexists. split; [reflexivity |]. split; [reflexivity |].
    rewrite (py_round3_comp c (elapsed (EDL.segments edl) (length (EDL.segments edl))))
      by (rewrite Hc; lra).
    rewrite py_round3_fix by now apply elapsed_on_grid.
    unfold elapsed, EDL.total_duration. now rewrite firstn_all.
Qed.

Lemma witness_build_shotstack_timeline_clips_back_to_back :
  Forall segment_on_grid (EDL.segments fx_edl)
  /\ exists clips,
       track_clips (build_shotstack_timeline fx_edl fx_base_config) 0 = Some clips
       /\ length clips = 2%nat.
Proof.
  assert (Forall segment_on_grid (EDL.segments fx_edl)) as H.
  { repeat constructor; simpl.
    - exists 0%Z. reflexivity.
    - exists 2500%Z. reflexivity.
    - exists 5000%Z. reflexivity.
    - exists 8000%Z. reflexivity. }
  split; [exact H |].
  destruct (build_shotstack_timeline_clips_back_to_back fx_edl fx_base_config H)
    as [(clips & E & L & _) _].
  exists clips. split; [exact E | exact L].
Defined.




Lemma nth_error_list_lookup {A : Type} (l : list A) (i : nat) : nth_error l i = l !! i.
Proof. revert i. induction l as [| x l IH]; intros [| i]; simpl; auto. Qed.

Lemma mapM_result_Forall2 {A B : Type} (f : A -> result B) (l : list A) (ys : list B) :
  mapM f l = Ok ys -> Forall2 (fun x y => f x = Ok y) l ys.
Proof.
  revert ys. induction l as [| x l IH]; intros ys H.
  - injection H as <-. constructor.
  - change (mapM f (x :: l)) with (y' ← f x; k ← mapM f l; mret (y' :: k)) in H.
    destruct (f x) as [y |] eqn:Ey; [| discriminate]. simpl in H.
    destruct (mapM f l) as [k |]; [| discriminate]. injection H as <-.
    constructor; [exact Ey | now apply IH].
Qed.

Lemma ordered_distinct_fold_spec (l acc : list string) :
  NoDup acc ->
  NoDup (fold_left (fun acc x => if existsb (String.eqb x) acc then acc else acc ++ [x]) l acc)
  /\ forall x,
       In x (fold_left (fun acc x => if existsb (String.eqb x) acc then acc else acc ++ [x])
                       l acc)
       -> In x acc \/ In x l.
Proof.
  revert acc. induction l as [| y l IH]; intros acc Hacc; simpl.
  - split; [exact Hacc | auto].
  - destruct (existsb (String.eqb y) acc) eqn:E.
    + destruct (IH acc Hacc) as [H1 H2]. split; [exact H1 |].
      intros x Hx. destruct (H2 x Hx); auto.
    + destruct (IH (acc ++ [y])) as [H1 H2].
      { apply NoDup_app. split; [exact Hacc |]. split; [| apply NoDup_singleton].
        intros x Hx Hy. apply list_elem_of_In in Hx, Hy. destruct Hy as [<- | []].
        assert (existsb (String.eqb y) acc = true) as C
          by (apply existsb_exists; exists y; split; [exact Hx | apply String.eqb_refl]).
        congruence. }
      split; [exact H1 |]. intros x Hx.
      destruct (H2 x Hx) as [H | H]; [| auto].
      apply in_app_or in H as [H | [-> | []]]; auto.
Qed.

(** [list(dict.fromkeys(l))] lists the elements of [l], each once. *)
Lemma ordered_distinct_spec (l : list string) :
  NoDup (ordered_distinct l) /\ forall x, In x (ordered_distinct l) <-> In x l.
Proof.
  destruct (ordered_distinct_fold_spec l [] (NoDup_nil_2)) as [H1 H2].
  split; [exact H1 |]. intros x. split; [| apply ordered_distinct_In].
  intros H. destruct (H2 x H) as [[] | H']. exact H'.
Qed.

Lemma imap_keys (sources : list string) (f : nat -> Z) :
  (imap (fun idx src => (src, f idx)) sources).*1 = sources.
Proof.
  revert f. induction sources as [| s sources IH]; intros f; [reflexivity |].
  simpl. f_equal. apply (IH (f ∘ S)).
Qed.

(** The input index of a source is its position among the distinct
    sources. *)
Lemma input_map_position (sources : list string) (src : string) (idx : Z) :
  NoDup sources ->
  (list_to_map (imap (fun idx src => (src, Z.of_nat idx)) sources) : gmap string Z) !! src
  = Some idx
  <-> (0 <= idx)%Z /\ nth_error sources (Z.to_nat idx) = Some src.
Proof.
  intros Hnd. split.
  - intros E. apply elem_of_list_to_map_2 in E.
    apply elem_of_lookup_imap_1 in E as (i & s & [= -> ->] & Hl).
    split; [lia |]. now rewrite Nat2Z.id, nth_error_list_lookup.
  - intros [Hpos Hn]. apply elem_of_list_to_map_1.
    + now rewrite imap_keys.
    + rewrite nth_error_list_lookup in Hn.
      replace idx with (Z.of_nat (Z.to_nat idx)) by lia.
      now apply (elem_of_lookup_imap_2 (fun idx src => (src, Z.of_nat idx))).
Qed.

(** What [list(dict.fromkeys(l))] appends to the keys it already holds:
    new keys only, in order of first use. *)
Lemma ordered_distinct_fold_order (l acc : list string) :
  exists new,
    fold_left (fun acc x => if existsb (String.eqb x) acc then acc else acc ++ [x]) l acc
    = acc ++ new
    /\ (forall x, In x new -> ~ In x acc)
    /\ first_use_order l new.
Proof.
  revert acc. induction l as [| x l IH]; intros acc; simpl.
  - exists []. split; [now rewrite app_nil_r |]. split; [intros ? [] |].
    intros i j a b _ Hi. destruct i; discriminate Hi.
  - destruct (existsb (String.eqb x) acc) eqn:E.
    + destruct (IH acc) as (new & Hf & Hnew & Hord).
      exists new. split; [exact Hf |]. split; [exact Hnew |].
      intros i j a b Hij Hi Hj.
      destruct (Hord i j a b Hij Hi Hj) as (k & Hk & Hbefore).
      exists (S k). split; [exact Hk |].
      intros [| k'] Hle; simpl.
      * intros [= ->]. apply (Hnew b); [eapply nth_error_In; exact Hj |].
        apply existsb_exists in E as (y & Hy & Exy).
        apply String.eqb_eq in Exy. now subst.
      * apply Hbefore. lia.
    + destruct (IH (acc ++ [x])) as (new & Hf & Hnew & Hord).
      exists (x :: new). split; [now rewrite Hf, <- app_assoc |].
      assert (forall b, In b new -> x <> b) as Hx.
      { intros b Hb ->. apply (Hnew b Hb), in_or_app. right. now left. }
      split.
      { intros y [<- | Hy] Hin.
        - assert (existsb (String.eqb x) acc = true) as C
            by (apply existsb_exists; exists x; split; [exact Hin | apply String.eqb_refl]).
          congruence.
        - apply (Hnew y Hy), in_or_app. now left. }
      intros i j a b Hij Hi Hj.
      destruct j as [| j]; [lia |]. simpl in Hj.
      assert (x <> b) as Hxb by (apply Hx; eapply nth_error_In; exact Hj).
      destruct i as [| i]; simpl in Hi.
      * injection Hi as <-. exists 0%nat. split; [reflexivity |].
        intros k' Hle. assert (k' = 0%nat) as -> by lia. simpl. congruence.
      * destruct (Hord i j a b ltac:(lia) Hi Hj) as (k & Hk & Hbefore).
        exists (S k). split; [exact Hk |].
        intros [| k'] Hle; simpl; [congruence | apply Hbefore; lia].
Qed.

(** [list(dict.fromkeys(l))] lists the elements of [l] in order of first
    use. *)
Lemma ordered_distinct_order (l : list string) : first_use_order l (ordered_distinct l).
Proof.
  destruct (ordered_distinct_fold_order l []) as (new & Hf & _ & Hord).
  unfold ordered_distinct. now rewrite Hf.
Qed.

Section RenderInputs.
Context (_has_audio_stream path_exists : string -> bool) (str_of_Path : string -> string)
        (_ffmpeg_executable : string).

(** X12: the command [_build_single_command] returns lists as inputs the
    sources of the segments, each once and in order of first use (of two
    inputs, the earlier one is the source of a segment before any segment
    of the later one), then the logo when it is configured and its file
    exists, as the text of the path built from the configured one; and the
    graph it carries is the one [build_filter_complex] builds from a
    payload in which every segment, with its own start and end, refers to
    the position of its source among those inputs, with the audio flag of
    each input being the probe's answer for that source and the logo, if
    any, as the input after the last source. *)
Theorem _build_single_command_inputs_match_graph (edl : EDL.t) (branding : BrandingSettings.t)
    (segments : list Segment.t) (width height : Z) (output_path : string)
    (cmd : list string) :
  _build_single_command _has_audio_stream path_exists str_of_Path _ffmpeg_executable
                        edl branding segments width height output_path = Ok cmd ->
  let logo :=
    match BrandingSettings.logo_path branding with
    | None => None
    | Some configured =>
        if String.eqb configured EmptyString then None
        else if path_exists (str_of_Path configured) then Some (str_of_Path configured)
        else None
    end in
  exists sources payload audio graph,
    NoDup sources
    /\ (forall src, In src sources <-> exists seg, In seg segments /\ Segment.src seg = src)
    /\ first_use_order (map Segment.src segments) sources
    /\ Forall2 (refers_to sources) segments payload
    /\ (forall i src, nth_error sources i = Some src ->
                      audio !! Z.of_nat i = Some (_has_audio_stream src))
    /\ build_filter_complex payload (Z.of_nat (length sources))
         ((fun _ => Z.of_nat (length sources)) <$> logo) width height (Some audio)
         (BrandingSettings.logo_corner branding) (BrandingSettings.safe_area branding)
         true true
       = Ok (graph, "[vout]", "[aout]")
    /\ cmd = [_ffmpeg_executable; "-y"]
             ++ flat_map (fun src => ["-i"; src]) sources
             ++ match logo with Some p => ["-i"; p] | None => [] end
             ++ encoder_args graph output_path.
Proof.
  intros H logo.
  set (sources := ordered_distinct (map Segment.src segments)).
  destruct (ordered_distinct_spec (map Segment.src segments)) as [Hnd Hin].
  pose proof (ordered_distinct_order (map Segment.src segments)) as Hord.
  fold sources in Hnd, Hin, Hord.
  unfold _build_single_command in H. fold sources in H.
  set (input_map := list_to_map _ : gmap string Z) in H.
  assert (forall src idx, input_map !! src = Some idx
                          <-> (0 <= idx)%Z /\ nth_error sources (Z.to_nat idx) = Some src)
    as Hmap by (intros src idx; now apply input_map_position).
  set (logo_pair := match BrandingSettings.logo_path branding with
                    | Some (String c r) => _
                    | _ => _
                    end) in H.
  assert (logo_pair = ((fun _ => Z.of_nat (length sources)) <$> logo,
                       flat_map (fun src => ["-i"; src]) sources
                       ++ match logo with Some p => ["-i"; p] | None => [] end)) as El.
  { subst logo_pair logo.
    destruct (BrandingSettings.logo_path branding) as [[| c r] |];
      [| simpl; destruct (path_exists (str_of_Path (String c r))) |];
      simpl; rewrite ?app_nil_r; reflexivity. }
  rewrite El in H. clear El logo_pair.
  destruct (mapM _ sources) as [audio_presence |] eqn:Ea; [| discriminate].
  simpl in H.
  destruct (mapM _ segments) as [payload |] eqn:Ep; [| discriminate].
  simpl in H.
  destruct (build_filter_complex _ _ _ _ _ _ _ _ _ _) as [[[graph vl] al] |] eqn:Eg;
    [| discriminate].
  simpl in H. injection H as <-.
  assert (vl = "[vout]" /\ al = "[aout]") as [-> ->].
  { unfold build_filter_complex in Eg.
    destruct (build_filter_lines _ _ _ _ _ _ _ _ _ _); [| discriminate].
    simpl in Eg. injection Eg as _ <- <-. split; reflexivity. }
  apply mapM_result_Forall2 in Ea, Ep.
  exists sources, payload, (list_to_map audio_presence), graph.
  split; [exact Hnd |]. split.
  { intros src. rewrite Hin, in_map_iff. split; intros (seg & A & B); eauto. }
  split; [exact Hord |].
  split; [| split; [| split; [exact Eg |]]].
  - eapply List.Forall2_impl; [| exact Ep]. intros seg p E. cbv beta in E.
    destruct (input_map !! Segment.src seg) as [idx |] eqn:Ei; [| discriminate].
    injection E as <-. apply Hmap in Ei as [Hpos Hn].
    unfold refers_to. simpl. auto.
  - intros i src Hi.
    assert (input_map !! src = Some (Z.of_nat i)) as Ei
      by (apply Hmap; split; [lia | now rewrite Nat2Z.id]).
    assert (exists b, (Z.of_nat i, b) ∈ audio_presence) as [b Hb].
    { rewrite nth_error_list_lookup in Hi.
      destruct (Forall2_lookup_l _ _ _ _ _ Ea Hi) as (y & Hy & Ey).
      cbv beta in Ey. rewrite Ei in Ey. injection Ey as <-.
      eexists. eapply list_elem_of_lookup_2. exact Hy. }
    destruct ((list_to_map audio_presence : gmap Z bool) !! Z.of_nat i) as [b' |] eqn:E.
    + apply elem_of_list_to_map_2 in E. apply list_elem_of_lookup in E as [j Hj].
      destruct (Forall2_lookup_r _ _ _ _ _ Ea Hj) as (src' & Hs' & Ey).
      cbv beta in Ey. destruct (input_map !! src') as [idx |] eqn:Ei'; [| discriminate].
      injection Ey as -> <-. apply Hmap in Ei' as [_ Hn].
      rewrite Nat2Z.id in Hn. congruence.
    + exfalso. apply not_elem_of_list_to_map_2 in E. apply E.
      apply list_elem_of_fmap. exists (Z.of_nat i, b). split; [reflexivity | exact Hb].
  - unfold encoder_args. rewrite <- !app_assoc. reflexivity.
Qed.
End RenderInputs.

Lemma witness__build_single_command_inputs_match_graph :
  exists cmd sources graph,
    _build_single_command (fun _ => true) (String.eqb "logo.png") (fun _ => "logo.png") "ffmpeg"
      fx_edl fx_branding_logo (EDL.segments fx_edl) 1080 1920 "out_9x16.mp4" = Ok cmd
    /\ first_use_order (map Segment.src (EDL.segments fx_edl)) sources
    /\ cmd = ["ffmpeg"; "-y"] ++ flat_map (fun src => ["-i"; src]) sources
             ++ ["-i"; "logo.png"] ++ encoder_args graph "out_9x16.mp4".
Proof.
  destruct (_build_single_command_total (fun _ => true) (String.eqb "logo.png")
              (fun _ => "logo.png") "ffmpeg" fx_edl
              fx_branding_logo (EDL.segments fx_edl) 1080 1920 "out_9x16.mp4")
    as [cmd E].
  destruct (_build_single_command_inputs_match_graph (fun _ => true) (String.eqb "logo.png")
              (fun _ => "logo.png") "ffmpeg"
              fx_edl fx_branding_logo (EDL.segments fx_edl) 1080 1920 "out_9x16.mp4"
              cmd E) as (sources & payload & audio & graph & _ & _ & Ho & _ & _ & _ & Hc).
  exists cmd, sources, graph. split; [exact E |]. split; [exact Ho | exact Hc].
Defined.
(** ** Branch labels are told apart by source and branch number *)

Lemma str_of_Z_inj (a b : Z) : str_of_Z a = str_of_Z b -> a = b.
Proof.
  unfold str_of_Z. intros H.
  assert (forall z, NilZero.int_of_string (NilZero.string_of_int (Z.to_int z))
                    = Some (Z.to_int z)) as R.
  { intros z. apply NilZero.isi; destruct z; simpl; try discriminate;
      intros [= E]; now apply DecimalPos.Unsigned.to_uint_nonnil in E. }
  pose proof (R a) as Ra. rewrite H, R in Ra. injection Ra as E.
  rewrite <- (DecimalZ.of_to a), <- (DecimalZ.of_to b). now rewrite E.
Qed.

Lemma str_of_nat_inj (n m : nat) : str_of_nat n = str_of_nat m -> n = m.
Proof. unfold str_of_nat. intros H. apply str_of_Z_inj in H. lia. Qed.

(** The decimal text of an integer holds digits and a sign only. *)
Lemma str_of_Z_chars (z : Z) (c : ascii) :
  occurs c (str_of_Z z) -> occurs c "-0123456789".
Proof.
  unfold str_of_Z, occurs.
  assert (forall d, In c (list_ascii_of_string (NilEmpty.string_of_uint d)) ->
                    In c (list_ascii_of_string "-0123456789")) as Hu.
  { induction d; simpl; intros H; [destruct H | ..];
      (destruct H as [<- | H]; [repeat first [left; reflexivity | right] | exact (IHd H)]). }
  assert (forall d, In c (list_ascii_of_string (NilZero.string_of_uint d)) ->
                    In c (list_ascii_of_string "-0123456789")) as Hz.
  { intros d. destruct d; try apply Hu. simpl. intros [<- | []].
    repeat first [left; reflexivity | right]. }
  destruct (Z.to_int z) as [d | d]; simpl.
  - apply Hz.
  - intros [<- | H]; [now left | exact (Hz d H)].
Qed.

Lemma append_inj_l (p s1 s2 : string) : p +:+ s1 = p +:+ s2 -> s1 = s2.
Proof. induction p as [| c p IH]; simpl; [auto | intros [= H]; auto]. Qed.

Lemma append_split_at (d : ascii) (s1 s2 r1 r2 : string) :
  ~ occurs d s1 -> ~ occurs d s2 ->
  s1 +:+ String d r1 = s2 +:+ String d r2 -> s1 = s2 /\ r1 = r2.
Proof.
  unfold occurs. revert s2. induction s1 as [| c s1 IH]; intros [| c2 s2] H1 H2 E; simpl in *.
  - injection E as <-. auto.
  - injection E as <- _. exfalso. apply H2. now left.
  - injection E as -> _. exfalso. apply H1. now left.
  - injection E as <- E. destruct (IH s2) as [<- <-]; auto.
Qed.

(** The text of a branch label: the base label of a source used once, the
    numbered output of its split otherwise. *)
Lemma branch_labels_nth (prefix : string) (idx : Z) (count n : nat) (label : string) :
  nth_error (branch_labels prefix idx count) n = Some label ->
  exists rest,
    label = prefix +:+ str_of_Z idx +:+ String "b" rest
    /\ (((1 < count)%nat /\ (n < count)%nat /\ rest = str_of_nat n)
        \/ ((count <= 1)%nat /\ n = O /\ rest = "ase")).
Proof.
  unfold branch_labels. destruct (Nat.ltb_spec 1 count) as [H | H]; intros E.
  - assert (n < count)%nat as Hn.
    { assert (nth_error (map (fun n => prefix +:+ str_of_Z idx +:+ "b" +:+ str_of_nat n)
                                (seq 0 count)) n <> None) as Hn by congruence.
      apply nth_error_Some in Hn. now rewrite length_map, length_seq in Hn. }
    rewrite nth_error_map, nth_error_seq in E.
    destruct (Nat.ltb_spec n count) as [_ | C]; [| lia]. simpl in E. injection E as <-.
    eexists. split; [reflexivity |]. left. auto.
  - destruct n as [| n]; [| destruct n; discriminate]. injection E as <-.
    eexists. split; [reflexivity |]. right. auto.
Qed.

Lemma branch_labels_inj (prefix : string) (idx idx' : Z) (count count' n n' : nat)
    (label : string) :
  nth_error (branch_labels prefix idx count) n = Some label ->
  nth_error (branch_labels prefix idx' count') n' = Some label ->
  idx = idx' /\ (count = count' -> n = n').
Proof.
  intros H H'.
  apply branch_labels_nth in H as (rest & -> & Hr).
  apply branch_labels_nth in H' as (rest' & E & Hr').
  apply append_inj_l in E.
  assert (forall z, ~ occurs "b" (str_of_Z z)) as Hb.
  { intros z Hz. apply str_of_Z_chars in Hz. unfold occurs in Hz. simpl in Hz.
    repeat (destruct Hz as [Hz | Hz]; [discriminate |]). destruct Hz. }
  apply append_split_at in E as [Ei Er]; [| apply Hb | apply Hb].
  apply str_of_Z_inj in Ei. split; [congruence |]. intros <-.
  destruct Hr as [(? & ? & ->) | (? & -> & ->)], Hr' as [(? & ? & ->) | (? & -> & ->)];
    try lia; try reflexivity.
  now apply str_of_nat_inj.
Qed.
(** ** Every branch of the graph is read once *)

Lemma branch_step_lines (segments : list SegmentPayload.t) (audio_flags : gmap Z bool)
    (st : branch_state) (idx : Z) :
  b_lines (branch_step segments audio_flags st idx)
  = b_lines st ++ source_block segments audio_flags idx.
Proof.
  unfold branch_step, source_block.
  destruct (usage_count segments idx) as [| n]; [now rewrite app_nil_r |].
  destruct (default true (audio_flags !! idx)); destruct (1 <? S n)%nat; simpl;
    rewrite <- ?app_assoc; reflexivity.
Qed.

Lemma branch_fold_lines (segments : list SegmentPayload.t) (audio_flags : gmap Z bool)
    (l : list Z) (st : branch_state) :
  b_lines (fold_left (branch_step segments audio_flags) l st)
  = b_lines st ++ flat_map (source_block segments audio_flags) l.
Proof.
  revert st. induction l as [| idx l IH]; intros st; simpl; [now rewrite app_nil_r |].
  now rewrite IH, branch_step_lines, <- app_assoc.
Qed.

(** The first loop writes the blocks of the inputs, in input order. *)
Lemma branches_of_lines (segments : list SegmentPayload.t) (audio_flags : gmap Z bool)
    (inputs_count : Z) :
  b_lines (branches_of segments audio_flags inputs_count)
  = flat_map (source_block segments audio_flags) (py_range inputs_count).
Proof. unfold branches_of. now rewrite branch_fold_lines. Qed.

(** ** The selector's EDL through its serialized form *)

Lemma select_loop_accepted (config : Config.t) (ordered : list CandidateClip.t) :
  Forall (fun seg => exists cand cand_end, seg = accepted_segment cand cand_end)
         (selected (select_loop config initial_state ordered)).
Proof.
  set (P := fun st : loop_state =>
              Forall (fun seg => exists cand cand_end, seg = accepted_segment cand cand_end)
                     (selected st)).
  assert (forall st cand st',
            P st ->
            select_step config st cand = Continue st'
            \/ select_step config st cand = Break st' -> P st') as Hstep.
  { intros st cand st' HP E.
    destruct (select_step_grows config st st' cand E) as [-> | (ce & _ & ->)];
      [exact HP |].
    unfold P. simpl. apply Forall_app. split; [exact HP |].
    constructor; [eauto | constructor]. }
  apply (select_loop_ind config P P); [| | auto | constructor].
  - intros st cand st' HP E. apply (Hstep st cand st' HP). now left.
  - intros st cand st' HP E. apply (Hstep st cand st' HP). now right.
Qed.

(** X14: writing the EDL [select_segments] returns with [to_dict] and
    reading it back with [edl_from_dict] succeeds and changes nothing but
    the scores, which come back at four decimals: the header fields, the
    metadata, and every segment's source, start, end, tags and camera are
    the same, so the cuts the renderer makes are exactly those selected. *)
Theorem select_segments_round_trip_keeps_cuts
    (rng_state : Type) (Random : Z -> rng_state) (random : rng_state -> Q * rng_state)
    (candidates_by_src : list (string * list CandidateClip.t)) (config : Config.t) :
  let edl := fst (select_segments rng_state Random random candidates_by_src config) in
  edl_from_dict (EDL.to_dict edl)
  = Ok (with_segments edl (map score_rounded (EDL.segments edl))).
Proof.
  intros edl. rewrite edl_from_to_dict. do 2 f_equal.
  apply map_ext_in. intros seg Hin. subst edl.
  destruct (select_segments_edl Random random candidates_by_src config)
    as (ordered & _ & E).
  rewrite E in Hin. simpl in Hin.
  pose proof (select_loop_accepted config ordered) as Hall.
  rewrite List.Forall_forall in Hall.
  destruct (Hall seg Hin) as (cand & ce & ->).
  unfold round_segment, score_rounded, accepted_segment. simpl.
  now rewrite !py_round_idem.
Qed.
(** ** The commands of [build_commands] *)

Section RenderEntries.
Context (_has_audio_stream path_exists : string -> bool) (str_of_Path : string -> string)
        (_ffmpeg_executable : string).

Lemma command_loop_entries (edl : EDL.t) (config : Config.t) (output_stub : OutputStub)
    (ratios : list string) (commands commands' : gmap string (list string)) :
  command_loop _has_audio_stream path_exists str_of_Path _ffmpeg_executable
               edl config output_stub commands ratios = Ok commands' ->
  forall ratio cmd,
    commands' !! ratio = Some cmd ->
    commands !! ratio = Some cmd
    \/ (In ratio ratios
        /\ exists width height,
             ASPECT_DIMENSIONS !! ratio = Some (width, height)
             /\ _build_single_command _has_audio_stream path_exists str_of_Path _ffmpeg_executable
                  edl (Config.branding config) (EDL.segments edl) width height
                  (_derive_output_path output_stub ratio) = Ok cmd).
Proof.
  revert commands. induction ratios as [| r ratios IH]; intros commands H ratio cmd Hc.
  - injection H as <-. now left.
  - cbn [command_loop] in H.
    destruct (command_step _ _ _ _ edl config output_stub commands r) as [c1 |] eqn:E;
      [| discriminate].
    simpl in H. destruct (IH c1 H ratio cmd Hc) as [Hin | (Hin & Hrest)];
      [| right; split; [now right | exact Hrest]].
    unfold command_step in E.
    destruct (ASPECT_DIMENSIONS !! r) as [[width height] |] eqn:Ed.
    + destruct (_build_single_command _ _ _ _ _ _ _ _ _ _) as [c |] eqn:Eb; [| discriminate].
      simpl in E. injection E as <-.
      rewrite lookup_insert in Hin. destruct (decide (r = ratio)) as [-> | NE].
      * injection Hin as <-. right. split; [now left |]. eauto.
      * now left.
    + injection E as <-. now left.
Qed.

(** X15: every entry of the mapping [build_commands] returns belongs to a
    requested ratio of the dimension table, and is the command
    [_build_single_command] assembles for all the segments of the EDL at
    that ratio's width and height, writing to the output path derived from
    the stub and that ratio. *)
Theorem build_commands_entries (edl : EDL.t) (config : Config.t) (output_stub : OutputStub)
    (commands : gmap string (list string)) (ratio : string) (cmd : list string) :
  build_commands _has_audio_stream path_exists str_of_Path _ffmpeg_executable edl config output_stub
  = Ok commands ->
  commands !! ratio = Some cmd ->
  In ratio (Config.deliverables config)
  /\ exists width height,
       ASPECT_DIMENSIONS !! ratio = Some (width, height)
       /\ _build_single_command _has_audio_stream path_exists str_of_Path _ffmpeg_executable
            edl (Config.branding config) (EDL.segments edl) width height
            (_derive_output_path output_stub ratio) = Ok cmd
       /\ last cmd = Some (_derive_output_path output_stub ratio).
Proof.
  intros H Hc.
  assert (command_loop _has_audio_stream path_exists str_of_Path _ffmpeg_executable edl config
            output_stub ∅ (Config.deliverables config) = Ok commands) as H'.
  { unfold build_commands in H. destruct (EDL.segments edl); [discriminate | exact H]. }
  destruct (command_loop_entries edl config output_stub _ _ _ H' ratio cmd Hc)
    as [Hempty | (Hin & width & height & Ed & Eb)].
  - rewrite lookup_empty in Hempty. discriminate.
  - split; [exact Hin |]. exists width, height.
    split; [exact Ed |]. split; [exact Eb |].
    clear H H'. generalize dependent (EDL.segments edl). intros segments Eb.
    unfold _build_single_command in Eb.
    destruct (match BrandingSettings.logo_path (Config.branding config) with
              | Some (String c r) => _
              | _ => _
              end) as [logo_index input_args].
    destruct (mapM _ (ordered_distinct _)) as [audio_presence |]; [| discriminate].
    simpl in Eb.
    destruct (mapM _ segments) as [payload |]; [| discriminate].
    simpl in Eb.
    destruct (build_filter_complex _ _ _ _ _ _ _ _ _ _) as [[[graph vl] al] |];
      [| discriminate].
    simpl in Eb. injection Eb as <-.
    rewrite !last_cons, last_app. reflexivity.
Qed.
End RenderEntries.

Lemma witness_build_commands_entries :
  exists commands cmd,
    build_commands (fun _ => true) (fun _ => false) (fun text => text) "ffmpeg" fx_edl fx_config_two_ratios fx_stub
    = Ok commands
    /\ commands !! "9:16" = Some cmd
    /\ last cmd = Some (_derive_output_path fx_stub "9:16").
Proof.
  destruct (build_commands (fun _ => true) (fun _ => false) (fun text => text) "ffmpeg" fx_edl
              fx_config_two_ratios fx_stub) as [commands |] eqn:E.
  - destruct (commands !! "9:16") as [cmd |] eqn:Ec.
    + exists commands, cmd. split; [reflexivity |]. split; [exact Ec |].
      now destruct (build_commands_entries _ _ _ _ fx_edl fx_config_two_ratios fx_stub
                      commands "9:16" cmd E Ec) as (_ & w & h & _ & _ & Hl).
    + exfalso. vm_compute in E. injection E as <-. vm_compute in Ec. discriminate.
  - exfalso. vm_compute in E. discriminate.
Defined.

(** X16: the deliverables never overwrite each other: for any output stub,
    two different ratios of the dimension table are given different output
    paths. *)
Theorem _derive_output_path_distinct (stub : OutputStub) (r1 r2 : string) :
  is_Some (ASPECT_DIMENSIONS !! r1) ->
  is_Some (ASPECT_DIMENSIONS !! r2) ->
  r1 <> r2 ->
  _derive_output_path stub r1 <> _derive_output_path stub r2.
Proof.
  assert (forall r, is_Some (ASPECT_DIMENSIONS !! r) ->
                    r = "9:16" \/ r = "1:1" \/ r = "16:9") as Hkeys.
  { intros r [d Hd]. apply elem_of_list_to_map_2 in Hd.
    apply list_elem_of_In in Hd. simpl in Hd.
    destruct Hd as [[= <- _] | [[= <- _] | [[= <- _] | []]]]; auto. }
  intros H1 H2 NE E. apply Hkeys in H1, H2.
  unfold _derive_output_path in E. apply append_inj_l in E.
  destruct H1 as [-> | [-> | ->]], H2 as [-> | [-> | ->]];
    try congruence; simpl in E; discriminate.
Qed.

Lemma witness__derive_output_path_distinct :
  _derive_output_path fx_stub "9:16" <> _derive_output_path fx_stub "16:9".
Proof.
  apply _derive_output_path_distinct; [eexists; reflexivity | eexists; reflexivity |].
  discriminate.
Defined.
(** ** The selection does not depend on the order of its input *)

Section LexOrder.
Context {A : Type} (c1 c2 : A -> A -> comparison).
Hypothesis c1_opp : forall x y, c1 y x = CompOpp (c1 x y).
Hypothesis c1_trans : forall x y z, c1 x y <> Gt -> c1 y z <> Gt -> c1 x z <> Gt.
Hypothesis c2_opp : forall x y, c2 y x = CompOpp (c2 x y).
Hypothesis c2_trans : forall x y z, c2 x y <> Gt -> c2 y z <> Gt -> c2 x z <> Gt.

Lemma lex_opp (x y : A) : lex (c1 y x) (c2 y x) = CompOpp (lex (c1 x y) (c2 x y)).
Proof. unfold lex. rewrite c1_opp, c2_opp. now destruct (c1 x y). Qed.

Lemma lex_trans (x y z : A) :
  lex (c1 x y) (c2 x y) <> Gt -> lex (c1 y z) (c2 y z) <> Gt ->
  lex (c1 x z) (c2 x z) <> Gt.
Proof.
  unfold lex. intros Hxy Hyz.
  assert (c1 x y <> Gt) as H1 by (destruct (c1 x y); congruence).
  assert (c1 y z <> Gt) as H2 by (destruct (c1 y z); congruence).
  pose proof (c1_trans x y z H1 H2) as H3.
  destruct (c1 x z) eqn:Exz; try congruence.
  assert (c1 z x <> Gt) as Hzx by (rewrite c1_opp, Exz; discriminate).
  pose proof (c1_trans z x y Hzx H1) as Hzy. rewrite c1_opp in Hzy.
  pose proof (c1_trans y z x H2 Hzx) as Hyx. rewrite c1_opp in Hyx.
  destruct (c1 x y) eqn:Exy; simpl in *; try congruence.
  destruct (c1 y z) eqn:Eyz; simpl in *; try congruence.
  now apply (c2_trans x y z).
Qed.
End LexOrder.

Lemma Qcompare_opp (f : CandidateClip.t -> Q) (x y : CandidateClip.t) :
  (f y ?= f x) = CompOpp (f x ?= f y).
Proof. symmetry. apply Qcompare_antisym. Qed.

Lemma Qcompare_trans (f : CandidateClip.t -> Q) (x y z : CandidateClip.t) :
  (f x ?= f y) <> Gt -> (f y ?= f z) <> Gt -> (f x ?= f z) <> Gt.
Proof. rewrite <- !Qle_alt. apply Qle_trans. Qed.

(** The first sort key of [_order_candidates] is a total preorder. *)
Lemma key_plain_order :
  (forall a b, key_plain_lt a b = true -> key_plain_lt b a = false)
  /\ (forall a b c, key_plain_lt b a = false -> key_plain_lt c b = false ->
                    key_plain_lt c a = false).
Proof.
  set (c4 := fun a b : CandidateClip.t => CandidateClip.end_ a ?= CandidateClip.end_ b).
  set (c3 := fun a b : CandidateClip.t => CandidateClip.start a ?= CandidateClip.start b).
  set (c2 := fun a b : CandidateClip.t =>
               String.compare (CandidateClip.src a) (CandidateClip.src b)).
  set (c1 := fun a b : CandidateClip.t => - CandidateClip.score a ?= - CandidateClip.score b).
  set (c34 := fun a b => lex (c3 a b) (c4 a b)).
  set (c234 := fun a b => lex (c2 a b) (c34 a b)).
  set (c := fun a b => lex (c1 a b) (c234 a b)).
  assert (forall x y, c4 y x = CompOpp (c4 x y)) as O4
    by (intros; apply (Qcompare_opp CandidateClip.end_)).
  assert (forall x y z, c4 x y <> Gt -> c4 y z <> Gt -> c4 x z <> Gt) as T4
    by (intros x y z; apply (Qcompare_trans CandidateClip.end_)).
  assert (forall x y, c3 y x = CompOpp (c3 x y)) as O3
    by (intros; apply (Qcompare_opp CandidateClip.start)).
  assert (forall x y z, c3 x y <> Gt -> c3 y z <> Gt -> c3 x z <> Gt) as T3
    by (intros x y z; apply (Qcompare_trans CandidateClip.start)).
  assert (forall x y, c2 y x = CompOpp (c2 x y)) as O2
    by (intros; apply String.compare_antisym).
  assert (forall x y z, c2 x y <> Gt -> c2 y z <> Gt -> c2 x z <> Gt) as T2
    by (intros x y z; apply string_le_trans).
  assert (forall x y, c1 y x = CompOpp (c1 x y)) as O1
    by (intros; apply (Qcompare_opp (fun k => - CandidateClip.score k))).
  assert (forall x y z, c1 x y <> Gt -> c1 y z <> Gt -> c1 x z <> Gt) as T1
    by (intros x y z; apply (Qcompare_trans (fun k => - CandidateClip.score k))).
  assert (forall x y, c34 y x = CompOpp (c34 x y)) as O34 by exact (lex_opp c3 c4 O3 O4).
  assert (forall x y z, c34 x y <> Gt -> c34 y z <> Gt -> c34 x z <> Gt) as T34
    by exact (lex_trans c3 c4 O3 T3 T4).
  assert (forall x y, c234 y x = CompOpp (c234 x y)) as O234
    by exact (lex_opp c2 c34 O2 O34).
  assert (forall x y z, c234 x y <> Gt -> c234 y z <> Gt -> c234 x z <> Gt) as T234
    by exact (lex_trans c2 c34 O2 T2 T34).
  assert (forall x y, c y x = CompOpp (c x y)) as O by exact (lex_opp c1 c234 O1 O234).
  assert (forall x y z, c x y <> Gt -> c y z <> Gt -> c x z <> Gt) as T
    by exact (lex_trans c1 c234 O1 T1 T234).
  assert (forall a b, key_plain_lt a b = is_Lt (c a b)) as K by reflexivity.
  clearbody c. split.
  - intros a b. rewrite !K, (O a b). now destruct (c a b).
  - intros a b d. rewrite !K. intros H1 H2.
    assert (c a b <> Gt) as G1 by (rewrite (O a b) in H1; now destruct (c a b)).
    assert (c b d <> Gt) as G2 by (rewrite (O b d) in H2; now destruct (c b d)).
    pose proof (T a b d G1 G2) as G.
    rewrite (O a d). now destruct (c a d).
Qed.

(** Two candidates that no key field tells apart. *)
Lemma key_plain_tie (a b : CandidateClip.t) :
  key_plain_lt a b = false -> key_plain_lt b a = false ->
  CandidateClip.score a == CandidateClip.score b
  /\ CandidateClip.src a = CandidateClip.src b
  /\ CandidateClip.start a == CandidateClip.start b
  /\ CandidateClip.end_ a == CandidateClip.end_ b.
Proof.
  unfold key_plain_lt, lex.
  rewrite <- (Qcompare_antisym (- CandidateClip.score a) (- CandidateClip.score b)).
  rewrite (String.compare_antisym (CandidateClip.src b) (CandidateClip.src a)).
  rewrite <- (Qcompare_antisym (CandidateClip.start a) (CandidateClip.start b)).
  rewrite <- (Qcompare_antisym (CandidateClip.end_ a) (CandidateClip.end_ b)).
  destruct (Qcompare_spec (- CandidateClip.score a) (- CandidateClip.score b)) as [E1 | |];
    simpl; try discriminate.
  destruct (String.compare (CandidateClip.src a) (CandidateClip.src b)) eqn:E2;
    simpl; try discriminate.
  destruct (Qcompare_spec (CandidateClip.start a) (CandidateClip.start b)) as [E3 | |];
    simpl; try discriminate.
  destruct (Qcompare_spec (CandidateClip.end_ a) (CandidateClip.end_ b)) as [E4 | |];
    simpl; try discriminate.
  intros _ _. apply String.compare_eq_iff in E2. repeat split; auto. lra.
Qed.

Lemma key_sorted_unique (l1 l2 : list CandidateClip.t) :
  (forall a b, In a l1 -> In b l1 ->
               key_plain_lt a b = false -> key_plain_lt b a = false -> a = b) ->
  StronglySorted (fun a b => key_plain_lt b a = false) l1 ->
  StronglySorted (fun a b => key_plain_lt b a = false) l2 ->
  Permutation l1 l2 -> l1 = l2.
Proof.
  revert l2. induction l1 as [| x l1 IH]; intros l2 Hd H1 H2 Hp.
  - now apply Permutation_nil in Hp.
  - destruct l2 as [| y l2]; [now apply Permutation_sym, Permutation_nil in Hp |].
    apply StronglySorted_inv in H1 as [H1 Hx].
    apply StronglySorted_inv in H2 as [H2 Hy].
    rewrite List.Forall_forall in Hx, Hy.
    assert (In y (x :: l1)) as Hyin
      by (apply (Permutation_in _ (Permutation_sym Hp)); now left).
    assert (In x (y :: l2)) as Hxin by (apply (Permutation_in _ Hp); now left).
    assert (x = y) as <-.
    { destruct Hyin as [E | Hy1]; [exact E |].
      destruct Hxin as [E | Hx2]; [now symmetry |].
      apply Hd; [now left | now right | now apply Hy | now apply Hx]. }
    f_equal. apply IH; auto.
    + intros a b Ha Hb. apply Hd; now right.
    + now apply Permutation_cons_inv in Hp.
Qed.

(** X17: the selection does not depend on the order in which the
    candidates are supplied, nor on how they are grouped by source, as long
    as the sort key (score, source, start, end) tells different candidates
    apart: two collections holding the same candidates give the same EDL
    and the same metrics. *)
Theorem select_segments_order_independent
    (rng_state : Type) (Random : Z -> rng_state) (random : rng_state -> Q * rng_state)
    (candidates1 candidates2 : list (string * list CandidateClip.t)) (config : Config.t) :
  Permutation (flat_map snd candidates1) (flat_map snd candidates2) ->
  (forall a b,
      In a (flat_map snd candidates1) -> In b (flat_map snd candidates1) ->
      CandidateClip.score a == CandidateClip.score b ->
      CandidateClip.src a = CandidateClip.src b ->
      CandidateClip.start a == CandidateClip.start b ->
      CandidateClip.end_ a == CandidateClip.end_ b ->
      a = b) ->
  select_segments rng_state Random random candidates1 config
  = select_segments rng_state Random random candidates2 config.
Proof.
  intros Hp Hd. unfold select_segments.
  assert (py_sorted key_plain_lt (flat_map snd candidates1)
          = py_sorted key_plain_lt (flat_map snd candidates2)) as Es.
  { destruct key_plain_order as [Hasym Htrans].
    apply key_sorted_unique.
    - intros a b Ha Hb H1 H2. apply py_sorted_In in Ha, Hb.
      destruct (key_plain_tie a b H1 H2) as (E1 & E2 & E3 & E4). now apply Hd.
    - now apply py_sorted_sorted.
    - now apply py_sorted_sorted.
    - now rewrite !py_sorted_perm. }
  pose proof (Permutation_length Hp) as Hlen.
  destruct (flat_map snd candidates1) as [| c1 l1] eqn:E1;
    destruct (flat_map snd candidates2) as [| c2 l2] eqn:E2.
  - reflexivity.
  - now apply Permutation_nil in Hp.
  - now apply Permutation_sym, Permutation_nil in Hp.
  - unfold _order_candidates. rewrite Es, Hlen. reflexivity.
Qed.

Lemma witness_select_segments_order_independent :
  select_segments Z fx_Random fx_random [("camA.mp4", [fx_high; fx_low])] fx_base_config
  = select_segments Z fx_Random fx_random
      [("camA.mp4", [fx_low]); ("camA.mp4", [fx_high])] fx_base_config.
Proof.
  apply select_segments_order_independent.
  - simpl. apply perm_swap.
  - simpl. intros a b [<- | [<- | []]] [<- | [<- | []]] Hs; try reflexivity;
      exfalso; revert Hs; unfold Qeq; simpl; lia.
Defined.
(** ** The window of a candidate *)




(** ** The peak picker of the audio detector *)

(** X19: [_local_peaks] returns exactly the interior indices whose value is
    not below the threshold and not below either neighbour (the first and
    the last index are never peaks, and both ends of a plateau are), each
    once, ordered by descending value. *)
Theorem _local_peaks_are_the_interior_maxima (values : list Q) (threshold : Q) :
  let value := fun i => nth i values 0 in
  let peaks := _local_peaks values threshold in
  (forall i,
      In i peaks
      <-> (1 <= i)%nat /\ (i + 1 < length values)%nat
          /\ threshold <= value i
          /\ value (i - 1)%nat <= value i
          /\ value (i + 1)%nat <= value i)
  /\ NoDup peaks
  /\ StronglySorted (fun i j => value j <= value i) peaks.
Proof.
  intros value peaks.
  pose (keep := fun i => negb (Qltb (value i) threshold)
                         && (Qleb (value (i - 1)%nat) (value i)
                             && Qleb (value (i + 1)%nat) (value i))).
  pose (found := List.filter keep (seq 1 (length values - 2))).
  assert (peaks = if (1 <? length found)%nat
                  then py_sorted (fun i j => Qltb (value j) (value i)) found
                  else found) as E by reflexivity.
  rewrite E. clear E peaks.
  assert (forall i, In i found
                    <-> (1 <= i)%nat /\ (i + 1 < length values)%nat
                        /\ threshold <= value i
                        /\ value (i - 1)%nat <= value i
                        /\ value (i + 1)%nat <= value i) as Hin.
  { intros i. unfold found, keep. rewrite filter_In, in_seq, !andb_true_iff, negb_true_iff.
    rewrite Qltb_ge, !Qleb_le. split; intros H; repeat split; try tauto; lia. }
  assert (NoDup found) as Hnd.
  { apply NoDup_ListNoDup. unfold found. apply List.NoDup_filter, seq_NoDup. }
  destruct (1 <? length found)%nat eqn:El.
  - split; [| split].
    + intros i. now rewrite py_sorted_In.
    + apply NoDup_ListNoDup.
      apply (Permutation_NoDup (Permutation_sym (py_sorted_perm _ found))).
      now apply NoDup_ListNoDup.
    + apply (py_sorted_sorted_rel (fun i j => Qltb (value j) (value i))
               (fun i j => value j <= value i)).
      * intros a b c H1 H2. lra.
      * intros a b H. apply Qltb_lt in H. lra.
      * intros a b H. now apply Qltb_ge in H.
  - split; [exact Hin |]. split; [exact Hnd |].
    apply Nat.ltb_ge in El.
    destruct found as [| a [| b l]]; [constructor | repeat constructor | simpl in El; lia].
Qed.

(* ===================================================================== *)
(** * The text of the filter graph                                        *)
(* ===================================================================== *)

Lemma filter_none {A : Type} (f : A -> bool) (l : list A) :
  (forall x, In x l -> f x = false) -> List.filter f l = [].
Proof.
  induction l as [| x l IH]; intros H; simpl; [reflexivity |].
  rewrite (H x (or_introl eq_refl)). apply IH. intros y Hy. apply H. now right.
Qed.

Lemma py_range_In (n idx : Z) : In idx (py_range n) <-> (0 <= idx < n)%Z.
Proof.
  unfold py_range. rewrite in_map_iff. split.
  - intros (i & <- & Hi). apply in_seq in Hi. lia.
  - intros H. exists (Z.to_nat idx). split; [lia |]. apply in_seq. lia.
Qed.

(** ** Characters *)

Lemma list_ascii_app (a b : string) :
  list_ascii_of_string (a +:+ b) = list_ascii_of_string a ++ list_ascii_of_string b.
Proof.
  induction a as [| c a IH]; [reflexivity |].
  change (String c a +:+ b) with (String c (a +:+ b)). simpl. now rewrite IH.
Qed.

Lemma only_app (allowed a b : string) :
  only allowed (a +:+ b) = only allowed a && only allowed b.
Proof. unfold only. now rewrite list_ascii_app, forallb_app. Qed.

Lemma only_occurs (allowed s : string) (c : ascii) :
  only allowed s = true -> occurs c s -> occurs c allowed.
Proof.
  unfold only, occurs. intros H Hc.
  rewrite forallb_forall in H. specialize (H c Hc).
  apply existsb_exists in H as (d & Hd & E). apply Ascii.eqb_eq in E. now subst.
Qed.

Lemma occurs_only (allowed s : string) :
  (forall c, occurs c s -> occurs c allowed) -> only allowed s = true.
Proof.
  unfold only, occurs. intros H. apply forallb_forall. intros c Hc.
  apply existsb_exists. exists c. split; [now apply H | apply Ascii.eqb_refl].
Qed.

Lemma only_mono (small large s : string) :
  only large small = true -> only small s = true -> only large s = true.
Proof.
  intros Hl Hs. apply occurs_only. intros c Hc.
  eapply only_occurs; [exact Hl |]. eapply only_occurs; [exact Hs | exact Hc].
Qed.

Lemma only_str_of_Z (z : Z) : only "-0123456789" (str_of_Z z) = true.
Proof. apply occurs_only. intros c. apply str_of_Z_chars. Qed.

Lemma only_str_of_nat (n : nat) : only "-0123456789" (str_of_nat n) = true.
Proof. apply only_str_of_Z. Qed.

Lemma only_format_3f (q : Q) : only ".-0123456789" (format_3f q) = true.
Proof.
  unfold format_3f, pad3. rewrite !only_app.
  assert (forall z, only ".-0123456789" (str_of_Z z) = true) as Hz
    by (intros z; eapply only_mono; [| apply only_str_of_Z]; reflexivity).
  repeat match goal with |- context [if ?b then _ else _] => destruct b end;
    rewrite ?only_app, ?Hz; reflexivity.
Qed.

(** A text made of the characters of [allowed] lacks any other. *)
Lemma only_lacks (allowed s : string) (c : ascii) :
  only allowed s = true ->
  existsb (Ascii.eqb c) (list_ascii_of_string allowed) = false ->
  ~ occurs c s.
Proof.
  intros H Hc Hs. apply (only_occurs _ _ _ H) in Hs. unfold occurs in Hs.
  assert (existsb (Ascii.eqb c) (list_ascii_of_string allowed) = true) as C
    by (apply existsb_exists; exists c; split; [exact Hs | apply Ascii.eqb_refl]).
  congruence.
Qed.

(** ** Splitting a text *)

Lemma split_on_clean (sep : ascii) (s : string) :
  ~ occurs sep s -> split_on sep s = [s].
Proof.
  unfold occurs. induction s as [| c s IH]; simpl; intros H; [reflexivity |].
  destruct (Ascii.eqb_spec c sep) as [-> | NE]; [exfalso; apply H; now left |].
  rewrite IH by (intros C; apply H; now right). reflexivity.
Qed.

Lemma split_on_app (sep : ascii) (s rest : string) :
  ~ occurs sep s -> split_on sep (s +:+ String sep rest) = s :: split_on sep rest.
Proof.
  unfold occurs. induction s as [| c s IH]; intros H.
  - change (EmptyString +:+ String sep rest) with (String sep rest).
    cbn [split_on]. now rewrite Ascii.eqb_refl.
  - change (String c s +:+ String sep rest) with (String c (s +:+ String sep rest)).
    cbn [split_on].
    destruct (Ascii.eqb_spec c sep) as [-> | NE]; [exfalso; apply H; now left |].
    rewrite IH by (intros C; apply H; now right). reflexivity.
Qed.

Lemma split_on_concat (sep : ascii) (parts : list string) :
  parts <> [] ->
  Forall (fun s => ~ occurs sep s) parts ->
  split_on sep (String.concat (String sep EmptyString) parts) = parts.
Proof.
  induction parts as [| x parts IH]; intros Hne Hall; [congruence |].
  apply List.Forall_cons_iff in Hall as [Hx Hall].
  destruct parts as [| y parts].
  - simpl. now apply split_on_clean.
  - change (String.concat (String sep EmptyString) (x :: y :: parts))
      with (x +:+ String sep (String.concat (String sep EmptyString) (y :: parts))).
    rewrite split_on_app by exact Hx. f_equal. apply IH; [discriminate | exact Hall].
Qed.

(** ** Pads *)

Lemma skip_pads_label (label rest : string) :
  ~ occurs "]" label ->
  skip_pads true (label +:+ "]" +:+ rest) = skip_pads false rest.
Proof.
  unfold occurs. induction label as [| c label IH]; intros H.
  - change (EmptyString +:+ "]" +:+ rest) with (String "]" rest). reflexivity.
  - change (String c label +:+ "]" +:+ rest) with (String c (label +:+ "]" +:+ rest)).
    cbn [skip_pads].
    destruct (Ascii.eqb_spec c "]") as [-> | NE]; [exfalso; apply H; now left |].
    cbn [negb]. apply IH. intros C. apply H. now right.
Qed.

Lemma filter_chain_pad (label rest : string) :
  ~ occurs "]" label ->
  filter_chain ("[" +:+ label +:+ "]" +:+ rest) = filter_chain rest.
Proof.
  intros H. unfold filter_chain.
  change ("[" +:+ label +:+ "]" +:+ rest) with (String "[" (label +:+ "]" +:+ rest)).
  cbn [skip_pads]. now apply skip_pads_label.
Qed.

Lemma starts_with_cons (a b : ascii) (p s : string) :
  starts_with (String a p) (String b s) = Ascii.eqb a b && starts_with p s.
Proof. reflexivity. Qed.

Lemma starts_with_app (p s : string) : starts_with p (p +:+ s) = true.
Proof.
  induction p as [| c p IH]; [reflexivity |].
  change (String c p +:+ s) with (String c (p +:+ s)).
  now rewrite starts_with_cons, Ascii.eqb_refl.
Qed.

(** The first pad of a statement is its label and no other. *)
Lemma reads_pad (label pad rest : string) :
  ~ occurs "]" label -> ~ occurs "]" pad ->
  reads label ("[" +:+ pad +:+ "]" +:+ rest) = String.eqb label pad.
Proof.
  unfold reads, occurs.
  change ("[" +:+ label +:+ "]") with (String "[" (label +:+ "]")).
  change ("[" +:+ pad +:+ "]" +:+ rest) with (String "[" (pad +:+ String "]" rest)).
  rewrite starts_with_cons, Ascii.eqb_refl. cbn [andb].
  revert pad. induction label as [| c label IH]; intros [| d pad] Hl Hp.
  - change (starts_with (String "]" EmptyString) (String "]" rest) = true).
    now rewrite starts_with_cons, Ascii.eqb_refl.
  - change (starts_with (String "]" EmptyString) (String d (pad +:+ String "]" rest)) = false).
    rewrite starts_with_cons.
    destruct (Ascii.eqb_spec "]" d) as [<- | NE]; [exfalso; apply Hp; now left | reflexivity].
  - change (starts_with (String c (label +:+ "]")) (String "]" rest) = false).
    rewrite starts_with_cons.
    destruct (Ascii.eqb_spec c "]") as [-> | NE]; [exfalso; apply Hl; now left |].
    reflexivity.
  - change (starts_with (String c (label +:+ "]")) (String d (pad +:+ String "]" rest))
            = String.eqb (String c label) (String d pad)).
    rewrite starts_with_cons.
    change (String.eqb (String c label) (String d pad))
      with (if Ascii.eqb c d then String.eqb label pad else false).
    destruct (Ascii.eqb_spec c d) as [<- | NE]; [| reflexivity].
    cbn [andb]. apply IH; intros C; [apply Hl | apply Hp]; now right.
Qed.

(** ** The lines of the graph, in closed form *)

Lemma branch_labels_label (prefix : string) (idx : Z) (count n : nat) (label : string) :
  nth_error (branch_labels prefix idx count) n = Some label ->
  label = branch_label prefix idx count n.
Proof.
  unfold branch_labels, branch_label. destruct (1 <? count)%nat; intros E.
  - rewrite nth_error_map in E. destruct (nth_error (seq 0 count) n) as [k |] eqn:Ek;
      [| discriminate].
    injection E as <-.
    assert (n < count)%nat as Hn.
    { assert (nth_error (seq 0 count) n <> None) as Hn by congruence.
      apply nth_error_Some in Hn. now rewrite length_seq in Hn. }
    rewrite nth_error_seq in Ek. destruct (Nat.ltb_spec n count); [| lia].
    injection Ek as <-. reflexivity.
  - destruct n as [| n]; [| destruct n; discriminate]. now injection E as <-.
Qed.

Section SegmentLoopBlocks.
Context (segments : list SegmentPayload.t) (audio_flags : gmap Z bool) (inputs_count : Z).
Context (scale_expr : string) (synth : bool).

Let branches : branch_state := branches_of segments audio_flags inputs_count.

Let cursors_at (pre : list SegmentPayload.t) (st : segment_state) : Prop :=
  (forall k, video_cursor st !! k
             = (fun _ => usage_count pre k) <$> (video_branches branches !! k))
  /\ (forall k, default true (audio_flags !! k) = true ->
                audio_cursor st !! k
                = (fun _ => usage_count pre k) <$> (audio_branches branches !! k))
  /\ concat_inputs st = map pair_label (seq 0 (length pre))
  /\ List.filter is_concat (s_lines st) = []
  /\ forall i seg, nth_error pre i = Some seg ->
                   segment_lines segments audio_flags scale_expr i seg (s_lines st).

(** An iteration of the second loop appends the block of its segment. *)
Lemma segment_step_block (pre rest : list SegmentPayload.t) (seg : SegmentPayload.t)
    (st st' : segment_state) :
  segments = pre ++ seg :: rest ->
  cursors_at pre st ->
  segment_step branches audio_flags scale_expr synth st (length pre) seg = Ok st' ->
  s_lines st' = s_lines st ++ segment_block segments audio_flags scale_expr (length pre) seg.
Proof.
  intros Hseg (Hvc & Hac & _) Hstep.
  apply segment_step_Ok in Hstep as (v_branch & Ev & Hstep).
  apply take_branch_Ok in Ev as (vl & vc & Hvt & Hvcur & Hvn).
  pose proof (branches_of_tables segments audio_flags inputs_count
                (SegmentPayload.src_index seg)) as (Tv & Ta & _).
  fold branches in Tv, Ta. rewrite Hvt in Tv.
  destruct (decide _) as [[Hrange Hcount] |]; [| discriminate]. injection Tv as ->.
  rewrite Hvc, Hvt in Hvcur. injection Hvcur as <-.
  assert (uses_before segments (length pre) (SegmentPayload.src_index seg)
          = usage_count pre (SegmentPayload.src_index seg)) as Hub.
  { unfold uses_before. rewrite Hseg, firstn_prefix, firstn_all by lia. reflexivity. }
  apply branch_labels_label in Hvn. rewrite <- Hub in Hvn.
  unfold segment_block, branch_of.
  destruct Hstep as [(Eflag & a_branch & Ea & ->) | (Eflag & _ & ->)]; simpl; rewrite Eflag.
  - apply take_branch_Ok in Ea as (al & ac & Hat & Hacur & Han).
    rewrite Hat, Eflag in Ta. injection Ta as ->.
    rewrite (Hac _ Eflag), Hat in Hacur. injection Hacur as <-.
    apply branch_labels_label in Han. rewrite <- Hub in Han.
    rewrite <- Hvn, <- Han, <- app_assoc. reflexivity.
  - rewrite <- Hvn, <- app_assoc. reflexivity.
Qed.

Lemma segment_loop_blocks (pre rest : list SegmentPayload.t) (st st' : segment_state) :
  segments = pre ++ rest ->
  cursors_at pre st ->
  segment_loop branches audio_flags scale_expr synth st (length pre) rest = Ok st' ->
  s_lines st' = s_lines st ++ blocks_from segments audio_flags scale_expr (length pre) rest
  /\ concat_inputs st' = map pair_label (seq 0 (length segments)).
Proof.
  revert pre st. induction rest as [| seg rest IH]; intros pre st Hseg Hc Hloop;
    simpl in Hloop.
  - injection Hloop as <-. simpl. rewrite app_nil_r. split; [reflexivity |].
    destruct Hc as (_ & _ & Hci & _). now rewrite Hseg, app_nil_r.
  - destruct (segment_step branches audio_flags scale_expr synth st (length pre) seg)
      as [st1 |] eqn:E; [| discriminate].
    simpl in Hloop.
    pose proof (segment_step_block pre rest seg st st1 Hseg Hc E) as Hb.
    destruct (IH (pre ++ [seg]) st1) as [Hl Hci].
    + now rewrite <- app_assoc.
    + apply (segment_step_inv segments audio_flags inputs_count scale_expr synth
               pre rest seg st st1 Hseg Hc E).
    + rewrite length_app. simpl. now rewrite Nat.add_1_r.
    + split; [| exact Hci]. rewrite Hl, Hb, <- app_assoc. simpl.
      rewrite length_app. simpl. now rewrite Nat.add_1_r.
Qed.
End SegmentLoopBlocks.

(** The lines of the graph: the blocks of the inputs, the blocks of the
    segments, the concatenation and the output stages. *)
Lemma build_filter_lines_closed (segments : list SegmentPayload.t) (inputs_count : Z)
    (logo_idx : option Z) (width height : Z) (source_audio : option (gmap Z bool))
    (logo_corner : string) (logo_safe_area : Q) (loudnorm synth : bool)
    (lines : list filter_line) :
  build_filter_lines segments inputs_count logo_idx width height source_audio
                     logo_corner logo_safe_area loudnorm synth = Ok lines ->
  let audio_flags := audio_flags_of source_audio inputs_count in
  lines = flat_map (source_block segments audio_flags) (py_range inputs_count)
          ++ blocks_from segments audio_flags (scale_expr_of width height) 0 segments
          ++ closing_lines (length segments) logo_idx logo_corner logo_safe_area loudnorm.
Proof.
  intros H audio_flags.
  unfold build_filter_lines in H. fold audio_flags in H.
  fold (branches_of segments audio_flags inputs_count) in H.
  destruct (segment_loop _ _ _ _ _ _ _) as [st |] eqn:Hst; [| discriminate].
  simpl in H.
  destruct (segment_loop_blocks segments audio_flags inputs_count (scale_expr_of width height)
              synth [] segments _ st eq_refl
              (loop_inv_initial segments audio_flags inputs_count (scale_expr_of width height))
              Hst) as [Hl Hci].
  simpl in Hl. rewrite branches_of_lines in Hl.
  unfold closing_lines.
  destruct logo_idx as [li |]; [destruct (_logo_coordinates _ _) |];
    injection H as <-; rewrite Hl, Hci, <- !app_assoc; reflexivity.
Qed.

(** ** The texts of the lines *)

Lemma append_cons (c : ascii) (a b : string) : String c a +:+ b = String c (a +:+ b).
Proof. reflexivity. Qed.

Lemma append_nil_r (s : string) : s +:+ EmptyString = s.
Proof. induction s as [| c s IH]; [reflexivity | now rewrite append_cons, IH]. Qed.

Lemma append_assoc (a b c : string) : (a +:+ b) +:+ c = a +:+ b +:+ c.
Proof. induction a as [| x a IH]; [reflexivity | now rewrite !append_cons, IH]. Qed.

Lemma concat_empty_cons (x : string) (xs : list string) :
  String.concat EmptyString (x :: xs) = x +:+ String.concat EmptyString xs.
Proof.
  destruct xs as [| y xs]; [symmetry; apply append_nil_r | reflexivity].
Qed.

Lemma split_expr_pads (labels : list string) : split_expr labels = pads labels.
Proof.
  unfold split_expr. induction labels as [| l labels IH]; [reflexivity |].
  cbn [map]. rewrite concat_empty_cons, IH. cbn [pads fold_right].
  now rewrite !append_assoc.
Qed.

Lemma branch_labels_map (prefix : string) (idx : Z) (count : nat) :
  (1 < count)%nat ->
  branch_labels prefix idx count = map (branch_label prefix idx count) (seq 0 count).
Proof.
  intros H. unfold branch_labels, branch_label.
  apply Nat.ltb_lt in H. now rewrite H.
Qed.

Lemma pads_app (l1 l2 : list string) : pads (l1 ++ l2) = pads l1 +:+ pads l2.
Proof.
  induction l1 as [| x l1 IH]; [reflexivity |].
  cbn [pads fold_right app]. fold (pads (l1 ++ l2)). fold (pads l1).
  now rewrite IH, !append_assoc.
Qed.

Lemma concat_pairs (a n : nat) :
  String.concat EmptyString (map pair_label (seq a n))
  = pads (flat_map (fun i => ["v" +:+ str_of_nat i; "a" +:+ str_of_nat i]) (seq a n)).
Proof.
  revert a. induction n as [| n IH]; intros a; [reflexivity |].
  cbn [seq map flat_map]. rewrite concat_empty_cons, IH, pads_app.
  f_equal.
Qed.

Lemma render_source_block (segments : list SegmentPayload.t) (audio_flags : gmap Z bool)
    (idx : Z) :
  map render_line (source_block segments audio_flags idx)
  = source_statements segments audio_flags idx.
Proof.
  unfold source_block, source_statements.
  destruct (usage_count segments idx) as [| c] eqn:Ec; [reflexivity |].
  assert (forall prefix, (1 <? S c)%nat = true ->
            split_expr (branch_labels prefix idx (S c))
            = pads (map (branch_label prefix idx (S c)) (seq 0 (S c)))) as Hs.
  { intros prefix H. apply Nat.ltb_lt in H.
    now rewrite split_expr_pads, branch_labels_map. }
  destruct (1 <? S c)%nat eqn:E1; destruct (default true (audio_flags !! idx));
    cbn [map app render_line]; rewrite ?Hs by reflexivity; reflexivity.
Qed.

Lemma render_segment_block (segments : list SegmentPayload.t) (audio_flags : gmap Z bool)
    (width height : Z) (i : nat) (seg : SegmentPayload.t) :
  map render_line (segment_block segments audio_flags (scale_expr_of width height) i seg)
  = segment_statements segments audio_flags width height i seg.
Proof.
  unfold segment_block, segment_statements, audio_statement.
  destruct (default true (audio_flags !! SegmentPayload.src_index seg)); reflexivity.
Qed.

Lemma render_closing_lines (n : nat) (logo_idx : option Z) (logo_corner : string)
    (logo_safe_area : Q) (loudnorm : bool) :
  map render_line (closing_lines n logo_idx logo_corner logo_safe_area loudnorm)
  = closing_statements n logo_idx logo_corner logo_safe_area loudnorm.
Proof.
  unfold closing_lines, closing_statements, concat_statement.
  rewrite <- concat_pairs.
  destruct logo_idx, loudnorm; reflexivity.
Qed.

Lemma render_blocks_from (segments : list SegmentPayload.t) (audio_flags : gmap Z bool)
    (width height : Z) (i : nat) (rest : list SegmentPayload.t) :
  map render_line (blocks_from segments audio_flags (scale_expr_of width height) i rest)
  = statements_from segments audio_flags width height i rest.
Proof.
  revert i. induction rest as [| seg rest IH]; intros i; [reflexivity |].
  cbn [blocks_from statements_from]. now rewrite map_app, render_segment_block, IH.
Qed.

(** ** The statements of the graph text *)

Lemma only_graph_Z (z : Z) : only graph_chars (str_of_Z z) = true.
Proof. eapply only_mono; [| apply only_str_of_Z]. reflexivity. Qed.

Lemma only_graph_nat (n : nat) : only graph_chars (str_of_nat n) = true.
Proof. apply only_graph_Z. Qed.

Lemma only_graph_3f (q : Q) : only graph_chars (format_3f q) = true.
Proof. eapply only_mono; [| apply only_format_3f]. reflexivity. Qed.

Ltac graph_only :=
  repeat rewrite only_app;
  rewrite ?only_graph_Z, ?only_graph_nat, ?only_graph_3f;
  reflexivity.

Lemma only_graph_base (prefix : string) (src : Z) :
  only graph_chars prefix = true -> only graph_chars (base_label prefix src) = true.
Proof. intros H. unfold base_label. rewrite !only_app, H. graph_only. Qed.

Lemma only_graph_branch (prefix : string) (src : Z) (count n : nat) :
  only graph_chars prefix = true ->
  only graph_chars (branch_label prefix src count n) = true.
Proof.
  intros H. unfold branch_label. destruct (1 <? count)%nat; [| now apply only_graph_base].
  rewrite !only_app, H. graph_only.
Qed.

Lemma only_graph_pads (labels : list string) :
  Forall (fun label => only graph_chars label = true) labels ->
  only graph_chars (pads labels) = true.
Proof.
  induction 1 as [| l labels Hl _ IH]; [reflexivity |].
  cbn [pads fold_right]. fold (pads labels). rewrite !only_app, Hl, IH. reflexivity.
Qed.

Lemma only_graph_branches (prefix : string) (src : Z) (count : nat) (l : list nat) :
  only graph_chars prefix = true ->
  only graph_chars (pads (map (branch_label prefix src count) l)) = true.
Proof.
  intros H. apply only_graph_pads, List.Forall_map, List.Forall_forall.
  intros n _. now apply only_graph_branch.
Qed.

Lemma only_graph_scale (width height : Z) :
  only graph_chars (scale_expr_of width height) = true.
Proof. unfold scale_expr_of. graph_only. Qed.

Lemma only_graph_coordinates (safe_area : Q) (corner : string) :
  only graph_chars (fst (_logo_coordinates safe_area corner)) = true
  /\ only graph_chars (snd (_logo_coordinates safe_area corner)) = true.
Proof.
  unfold _logo_coordinates.
  repeat match goal with |- context [if String.eqb ?a ?b then _ else _] =>
                           destruct (String.eqb a b) end;
    cbn [fst snd]; split; graph_only.
Qed.

Lemma source_statements_clean (segments : list SegmentPayload.t) (audio_flags : gmap Z bool)
    (src : Z) :
  Forall (fun s => only graph_chars s = true) (source_statements segments audio_flags src).
Proof.
  unfold source_statements.
  destruct (usage_count segments src) as [| c]; [constructor |].
  assert (forall prefix, only graph_chars prefix = true ->
            only graph_chars (pads (map (branch_label prefix src (S c)) (seq 0 (S c)))) = true)
    as Hp by (intros; now apply only_graph_branches).
  assert (forall prefix, only graph_chars prefix = true ->
            only graph_chars (base_label prefix src) = true) as Hb
    by (intros; now apply only_graph_base).
  destruct (1 <? S c)%nat; destruct (default true (audio_flags !! src)); cbn [app];
    repeat constructor;
    unfold setsar_statement, split_statement, aresample_statement, asplit_statement;
    repeat rewrite only_app; rewrite ?Hp, ?Hb by reflexivity; graph_only.
Qed.

Lemma segment_statements_clean (segments : list SegmentPayload.t) (audio_flags : gmap Z bool)
    (width height : Z) (i : nat) (seg : SegmentPayload.t) :
  Forall (fun s => only graph_chars s = true)
         (segment_statements segments audio_flags width height i seg).
Proof.
  unfold segment_statements, audio_statement, branch_of.
  assert (forall prefix src count n, only graph_chars prefix = true ->
            only graph_chars (branch_label prefix src count n) = true) as Hb
    by (intros; now apply only_graph_branch).
  destruct (default true (audio_flags !! _)); repeat constructor;
    unfold trim_statement, scale_statement, atrim_statement, silence_statement;
    repeat rewrite only_app; rewrite ?Hb, ?only_graph_scale by reflexivity; graph_only.
Qed.

Lemma statements_from_clean (segments : list SegmentPayload.t) (audio_flags : gmap Z bool)
    (width height : Z) (i : nat) (rest : list SegmentPayload.t) :
  Forall (fun s => only graph_chars s = true)
         (statements_from segments audio_flags width height i rest).
Proof.
  revert i. induction rest as [| seg rest IH]; intros i; [constructor |].
  cbn [statements_from]. apply List.Forall_app. split; [| apply IH].
  apply segment_statements_clean.
Qed.

Lemma closing_statements_clean (n : nat) (logo_idx : option Z) (logo_corner : string)
    (logo_safe_area : Q) (loudnorm : bool) :
  Forall (fun s => only graph_chars s = true)
         (closing_statements n logo_idx logo_corner logo_safe_area loudnorm).
Proof.
  unfold closing_statements.
  assert (only graph_chars (concat_statement n) = true) as Hc.
  { unfold concat_statement. rewrite !only_app, only_graph_pads; [graph_only |].
    apply List.Forall_forall. intros l Hl. apply in_flat_map in Hl as (i & _ & Hl).
    destruct Hl as [<- | [<- | []]]; graph_only. }
  destruct (only_graph_coordinates logo_safe_area logo_corner) as [Hx Hy].
  destruct logo_idx, loudnorm; cbn [app]; repeat constructor; try exact Hc;
    unfold overlay_statement; repeat rewrite only_app; rewrite ?Hx, ?Hy; graph_only.
Qed.

Lemma clean_no_semicolon (l : list string) :
  Forall (fun s => only graph_chars s = true) l -> Forall (fun s => ~ occurs ";" s) l.
Proof.
  apply List.Forall_impl. intros s H. eapply only_lacks; [exact H | reflexivity].
Qed.

(** The statements of the graph text [build_filter_complex] returns: those
    of the inputs, in input order, those of the segments, in segment
    order, and those of the output stages. *)
Lemma build_filter_complex_statements
    (segments : list SegmentPayload.t) (inputs_count : Z)
    (logo_idx : option Z) (width height : Z) (source_audio : option (gmap Z bool))
    (logo_corner : string) (logo_safe_area : Q) (loudnorm synth : bool)
    (graph video_label audio_label : string) :
  build_filter_complex segments inputs_count logo_idx width height source_audio
                       logo_corner logo_safe_area loudnorm synth
  = Ok (graph, video_label, audio_label) ->
  let audio_flags := audio_flags_of source_audio inputs_count in
  statements graph
  = flat_map (source_statements segments audio_flags) (py_range inputs_count)
    ++ statements_from segments audio_flags width height 0 segments
    ++ closing_statements (length segments) logo_idx logo_corner logo_safe_area loudnorm.
Proof.
  intros H audio_flags. unfold build_filter_complex in H.
  destruct (build_filter_lines _ _ _ _ _ _ _ _ _ _) as [lines |] eqn:El; [| discriminate].
  simpl in H. injection H as <- _ _.
  apply build_filter_lines_closed in El. fold audio_flags in El.
  assert (map render_line lines
          = flat_map (source_statements segments audio_flags) (py_range inputs_count)
            ++ statements_from segments audio_flags width height 0 segments
            ++ closing_statements (length segments) logo_idx logo_corner logo_safe_area
                                  loudnorm) as Hr.
  { rewrite El, !map_app, render_blocks_from, render_closing_lines.
    assert (forall l, map render_line (flat_map (source_block segments audio_flags) l)
                      = flat_map (source_statements segments audio_flags) l) as Hs.
    { induction l as [| idx l IH]; [reflexivity |].
      cbn [flat_map]. now rewrite map_app, render_source_block, IH. }
    rewrite Hs. reflexivity. }
  rewrite Hr. unfold statements. apply split_on_concat.
  - unfold closing_statements. intros E.
    apply app_eq_nil in E as [_ E]. apply app_eq_nil in E as [_ E]. discriminate.
  - apply clean_no_semicolon. rewrite !List.Forall_app. split; [| split].
    + apply List.Forall_forall. intros s Hs. apply in_flat_map in Hs as (idx & _ & Hs).
      revert s Hs. apply List.Forall_forall, source_statements_clean.
    + apply statements_from_clean.
    + apply closing_statements_clean.
Qed.

(** ** The filter and the first pad of each statement *)

Lemma only_pad_Z (z : Z) : only pad_chars (str_of_Z z) = true.
Proof. eapply only_mono; [| apply only_str_of_Z]. reflexivity. Qed.

Lemma only_pad_nat (n : nat) : only pad_chars (str_of_nat n) = true.
Proof. apply only_pad_Z. Qed.

Lemma only_label_Z (z : Z) : only label_chars (str_of_Z z) = true.
Proof. eapply only_mono; [| apply only_str_of_Z]. reflexivity. Qed.

Lemma only_label_nat (n : nat) : only label_chars (str_of_nat n) = true.
Proof. apply only_label_Z. Qed.

Lemma only_label_branch (prefix : string) (src : Z) (count n : nat) :
  only label_chars prefix = true ->
  only label_chars (branch_label prefix src count n) = true.
Proof.
  intros H. unfold branch_label, base_label. destruct (1 <? count)%nat;
    rewrite !only_app, H, ?only_label_Z, ?only_label_nat; reflexivity.
Qed.

Lemma only_pad_branch (prefix : string) (src : Z) (count n : nat) :
  only label_chars prefix = true ->
  only pad_chars (branch_label prefix src count n) = true.
Proof.
  intros H. eapply only_mono; [| now apply only_label_branch]. reflexivity.
Qed.

Lemma only_pad_base (prefix : string) (src : Z) :
  only label_chars prefix = true -> only pad_chars (base_label prefix src) = true.
Proof. intros H. apply (only_pad_branch prefix src 0 0 H). Qed.

(** The texts used as pads hold no closing bracket. *)
Ltac pad_clean :=
  apply (only_lacks pad_chars); [| reflexivity];
  first [ apply only_pad_branch; reflexivity
        | apply only_pad_base; reflexivity
        | repeat rewrite only_app; rewrite ?only_pad_Z, ?only_pad_nat; reflexivity ].

Lemma setsar_statement_pad (src : Z) :
  setsar_statement src
  = "[" +:+ (str_of_Z src +:+ ":v") +:+ "]" +:+ "setsar=1[" +:+ base_label "v" src +:+ "]".
Proof. unfold setsar_statement. now rewrite append_assoc. Qed.

Lemma aresample_statement_pad (src : Z) :
  aresample_statement src
  = "[" +:+ (str_of_Z src +:+ ":a") +:+ "]"
        +:+ "aresample=48000,aformat=channel_layouts=stereo[" +:+ base_label "a" src +:+ "]".
Proof. unfold aresample_statement. now rewrite append_assoc. Qed.

Lemma filter_chain_pads (labels : list string) (rest : string) :
  Forall (fun label => ~ occurs "]" label) labels ->
  filter_chain (pads labels +:+ rest) = filter_chain rest.
Proof.
  induction 1 as [| l labels Hl _ IH]; [reflexivity |].
  cbn [pads fold_right]. fold (pads labels).
  rewrite !append_assoc, filter_chain_pad by exact Hl. exact IH.
Qed.

Lemma filter_chain_setsar (src : Z) :
  filter_chain (setsar_statement src) = "setsar=1[" +:+ base_label "v" src +:+ "]".
Proof. rewrite setsar_statement_pad, filter_chain_pad by pad_clean. reflexivity. Qed.

Lemma filter_chain_split (src : Z) (count : nat) :
  filter_chain (split_statement src count)
  = "split=" +:+ str_of_nat count +:+ pads (map (branch_label "v" src count) (seq 0 count)).
Proof. unfold split_statement. rewrite filter_chain_pad by pad_clean. reflexivity. Qed.

Lemma filter_chain_aresample (src : Z) :
  filter_chain (aresample_statement src)
  = "aresample=48000,aformat=channel_layouts=stereo[" +:+ base_label "a" src +:+ "]".
Proof. rewrite aresample_statement_pad, filter_chain_pad by pad_clean. reflexivity. Qed.

Lemma filter_chain_asplit (src : Z) (count : nat) :
  filter_chain (asplit_statement src count)
  = "asplit=" +:+ str_of_nat count +:+ pads (map (branch_label "a" src count) (seq 0 count)).
Proof. unfold asplit_statement. rewrite filter_chain_pad by pad_clean. reflexivity. Qed.

Lemma filter_chain_trim (branch : string) (seg : SegmentPayload.t) (i : nat) :
  ~ occurs "]" branch ->
  filter_chain (trim_statement branch seg i)
  = "trim=start=" +:+ format_3f (SegmentPayload.in_ seg)
      +:+ ":end=" +:+ format_3f (trim_end seg)
      +:+ ",setpts=PTS-STARTPTS[vtrim" +:+ str_of_nat i +:+ "]".
Proof. intros H. unfold trim_statement. rewrite filter_chain_pad by exact H. reflexivity. Qed.

Lemma filter_chain_scale (width height : Z) (i : nat) :
  filter_chain (scale_statement width height i)
  = scale_expr_of width height +:+ ",setsar=1[v" +:+ str_of_nat i +:+ "]".
Proof. unfold scale_statement. rewrite filter_chain_pad by pad_clean. reflexivity. Qed.

Lemma filter_chain_atrim (branch : string) (seg : SegmentPayload.t) (i : nat) :
  ~ occurs "]" branch ->
  filter_chain (atrim_statement branch seg i)
  = "atrim=start=" +:+ format_3f (SegmentPayload.in_ seg)
      +:+ ":end=" +:+ format_3f (trim_end seg)
      +:+ ",asetpts=PTS-STARTPTS[a" +:+ str_of_nat i +:+ "]".
Proof. intros H. unfold atrim_statement. rewrite filter_chain_pad by exact H. reflexivity. Qed.

Lemma filter_chain_concat (n : nat) :
  filter_chain (concat_statement n)
  = "concat=n=" +:+ str_of_nat n +:+ ":v=1:a=1[vcat][acat]".
Proof.
  unfold concat_statement. rewrite filter_chain_pads; [reflexivity |].
  apply List.Forall_forall. intros l Hl. apply in_flat_map in Hl as (i & _ & Hl).
  destruct Hl as [<- | [<- | []]]; pad_clean.
Qed.

Lemma filter_chain_overlay (logo_idx : Z) (logo_corner : string) (logo_safe_area : Q) :
  filter_chain (overlay_statement logo_idx logo_corner logo_safe_area)
  = "overlay=x=" +:+ fst (_logo_coordinates logo_safe_area logo_corner)
      +:+ ":y=" +:+ snd (_logo_coordinates logo_safe_area logo_corner)
      +:+ ":format=auto[vo]".
Proof.
  unfold overlay_statement. rewrite !filter_chain_pad by pad_clean. reflexivity.
Qed.

(** The branch a segment takes holds no closing bracket. *)
Lemma branch_of_clean (segments : list SegmentPayload.t) (prefix : string) (i : nat)
    (seg : SegmentPayload.t) :
  only label_chars prefix = true -> ~ occurs "]" (branch_of segments prefix i seg).
Proof.
  intros H. apply (only_lacks pad_chars); [| reflexivity]. now apply only_pad_branch.
Qed.

(** Which statements are of a given filter.  [name] is one of the filter
    names below. *)
Ltac filter_eval :=
  unfold is_filter;
  rewrite ?filter_chain_setsar, ?filter_chain_split, ?filter_chain_aresample,
    ?filter_chain_asplit, ?filter_chain_scale, ?filter_chain_concat, ?filter_chain_overlay,
    ?filter_chain_trim, ?filter_chain_atrim by (apply branch_of_clean; reflexivity);
  reflexivity.

Lemma source_statements_filter (name : string) (segments : list SegmentPayload.t)
    (audio_flags : gmap Z bool) (src : Z) :
  In name ["concat"; "trim"; "scale"; "atrim"; "anullsrc"] ->
  List.filter (is_filter name) (source_statements segments audio_flags src) = [].
Proof.
  intros Hn. unfold source_statements.
  destruct (usage_count segments src) as [| c]; [reflexivity |].
  assert (is_filter name (setsar_statement src) = false
          /\ is_filter name (split_statement src (S c)) = false
          /\ is_filter name (aresample_statement src) = false
          /\ is_filter name (asplit_statement src (S c)) = false) as (H1 & H2 & H3 & H4).
  { simpl in Hn. repeat (destruct Hn as [<- | Hn]; [repeat split; filter_eval |]).
    destruct Hn. }
  destruct (1 <? S c)%nat; destruct (default true (audio_flags !! src));
    cbn [app List.filter]; rewrite ?H1, ?H2, ?H3, ?H4; reflexivity.
Qed.

Lemma segment_statements_filter (segments : list SegmentPayload.t)
    (audio_flags : gmap Z bool) (width height : Z) (i : nat) (seg : SegmentPayload.t) :
  List.filter (is_filter "concat") (segment_statements segments audio_flags width height i seg)
  = []
  /\ List.filter (is_filter "trim")
                 (segment_statements segments audio_flags width height i seg)
     = [trim_statement (branch_of segments "v" i seg) seg i]
  /\ List.filter (is_filter "scale")
                 (segment_statements segments audio_flags width height i seg)
     = [scale_statement width height i]
  /\ List.filter (fun s => is_filter "atrim" s || is_filter "anullsrc" s)
                 (segment_statements segments audio_flags width height i seg)
     = [audio_statement segments audio_flags i seg].
Proof.
  unfold segment_statements.
  assert (forall name, In name ["concat"; "trim"; "scale"; "atrim"; "anullsrc"] ->
            is_filter name (trim_statement (branch_of segments "v" i seg) seg i)
            = String.eqb name "trim"
            /\ is_filter name (scale_statement width height i) = String.eqb name "scale"
            /\ is_filter name (audio_statement segments audio_flags i seg)
               = if default true (audio_flags !! SegmentPayload.src_index seg)
                 then String.eqb name "atrim" else String.eqb name "anullsrc") as H.
  { intros name Hn. unfold audio_statement. simpl in Hn.
    destruct (default true (audio_flags !! SegmentPayload.src_index seg));
      repeat (destruct Hn as [<- | Hn]; [repeat split; filter_eval |]); destruct Hn. }
  pose proof (H "concat" ltac:(simpl; tauto)) as (C1 & C2 & C3).
  pose proof (H "trim" ltac:(simpl; tauto)) as (T1 & T2 & T3).
  pose proof (H "scale" ltac:(simpl; tauto)) as (S1 & S2 & S3).
  pose proof (H "atrim" ltac:(simpl; tauto)) as (A1 & A2 & A3).
  pose proof (H "anullsrc" ltac:(simpl; tauto)) as (N1 & N2 & N3).
  cbn [List.filter].
  rewrite C1, C2, C3, T1, T2, T3, S1, S2, S3, A1, A2, A3, N1, N2, N3.
  destruct (default true (audio_flags !! SegmentPayload.src_index seg)); repeat split.
Qed.

Lemma closing_statements_filter (n : nat) (logo_idx : option Z) (logo_corner : string)
    (logo_safe_area : Q) (loudnorm : bool) :
  List.filter (is_filter "concat")
              (closing_statements n logo_idx logo_corner logo_safe_area loudnorm)
  = [concat_statement n]
  /\ forall name, In name ["trim"; "scale"; "atrim"; "anullsrc"] ->
       List.filter (is_filter name)
                   (closing_statements n logo_idx logo_corner logo_safe_area loudnorm) = [].
Proof.
  unfold closing_statements.
  assert (forall name li, In name ["concat"; "trim"; "scale"; "atrim"; "anullsrc"] ->
            is_filter name (concat_statement n) = String.eqb name "concat"
            /\ is_filter name (overlay_statement li logo_corner logo_safe_area) = false
            /\ is_filter name "[vo]format=yuv420p[vout]" = false
            /\ is_filter name "[vcat]format=yuv420p[vout]" = false
            /\ is_filter name "[acat]loudnorm=I=-14:TP=-1.0:LRA=11[aout]" = false
            /\ is_filter name "[acat]anorm=2[aout]" = false) as H.
  { intros name li Hn. simpl in Hn.
    repeat (destruct Hn as [<- | Hn]; [repeat split; filter_eval |]); destruct Hn. }
  split.
  - destruct (H "concat" 0%Z ltac:(simpl; tauto)) as (C1 & _ & C3 & C4 & C5 & C6).
    destruct logo_idx as [li |];
      [destruct (H "concat" li ltac:(simpl; tauto)) as (_ & C2 & _) |];
      destruct loudnorm; cbn [app List.filter];
      rewrite ?C1, ?C2, ?C3, ?C4, ?C5, ?C6; reflexivity.
  - intros name Hn.
    assert (In name ["concat"; "trim"; "scale"; "atrim"; "anullsrc"]) as Hn'
      by (now right).
    assert (String.eqb name "concat" = false) as Hc.
    { simpl in Hn. repeat (destruct Hn as [<- | Hn]; [reflexivity |]). destruct Hn. }
    destruct (H name 0%Z Hn') as (C1 & _ & C3 & C4 & C5 & C6).
    destruct logo_idx as [li |];
      [destruct (H name li Hn') as (_ & C2 & _) |];
      destruct loudnorm; cbn [app List.filter];
      rewrite ?C1, ?Hc, ?C2, ?C3, ?C4, ?C5, ?C6; reflexivity.
Qed.

(** ** The graph text, filter by filter *)

Lemma filter_flat_map_none {A B : Type} (P : B -> bool) (f : A -> list B) (l : list A) :
  (forall x, List.filter P (f x) = []) -> List.filter P (flat_map f l) = [].
Proof.
  intros H. induction l as [| x l IH]; [reflexivity |].
  cbn [flat_map]. now rewrite List.filter_app, H, IH.
Qed.


Lemma statements_from_filter_one (P : string -> bool) (g : nat -> SegmentPayload.t -> string)
    (segments : list SegmentPayload.t) (audio_flags : gmap Z bool) (width height : Z)
    (i : nat) (rest : list SegmentPayload.t) :
  (forall i seg,
      List.filter P (segment_statements segments audio_flags width height i seg)
      = [g i seg]) ->
  List.filter P (statements_from segments audio_flags width height i rest)
  = imap (fun k => g (i + k)%nat) rest.
Proof.
  intros H. revert i. induction rest as [| seg rest IH]; intros i; [reflexivity |].
  cbn [statements_from imap]. rewrite List.filter_app, H, IH, Nat.add_0_r.
  cbn [app]. f_equal. apply imap_ext. intros k x _. simpl. f_equal. lia.
Qed.


Lemma uses_before_lt (segments : list SegmentPayload.t) (i : nat) (seg : SegmentPayload.t) :
  nth_error segments i = Some seg ->
  (uses_before segments i (SegmentPayload.src_index seg)
   < usage_count segments (SegmentPayload.src_index seg))%nat.
Proof.
  intros H. unfold uses_before.
  apply nth_error_split in H as (pre & rest & -> & <-).
  rewrite firstn_prefix, firstn_all by lia.
  rewrite usage_count_app, usage_count_cons, Z.eqb_refl. lia.
Qed.

(** A source that is used has its statements in the graph. *)
Lemma source_statements_In (segments : list SegmentPayload.t) (audio_flags : gmap Z bool)
    (src : Z) :
  usage_count segments src <> O ->
  let count := usage_count segments src in
  let l := source_statements segments audio_flags src in
  In (setsar_statement src) l
  /\ ((1 < count)%nat -> In (split_statement src count) l)
  /\ (default true (audio_flags !! src) = true ->
      In (aresample_statement src) l
      /\ ((1 < count)%nat -> In (asplit_statement src count) l)).
Proof.
  intros Hc. cbn zeta. unfold source_statements.
  destruct (usage_count segments src) as [| c]; [congruence |].
  destruct (Nat.ltb_spec 1 (S c)); destruct (default true (audio_flags !! src));
    cbn [app]; repeat split; intros; try lia; try discriminate; simpl; auto.
Qed.

(** Labels of branches are told apart by input and branch number. *)
Lemma branch_label_inj (prefix : string) (src src' : Z) (count count' n n' : nat) :
  branch_label prefix src count n = branch_label prefix src' count' n' ->
  src = src'
  /\ (1 <? count)%nat = (1 <? count')%nat
  /\ ((1 < count)%nat -> n = n').
Proof.
  assert (forall z, ~ occurs "b" (str_of_Z z)) as Hb.
  { intros z. eapply only_lacks; [apply only_str_of_Z | reflexivity]. }
  assert (forall k, str_of_nat k <> "ase") as Hase.
  { intros k E.
    assert (occurs "a" (str_of_nat k)) as Ha by (rewrite E; now left).
    revert Ha. eapply only_lacks; [apply only_str_of_nat | reflexivity]. }
  unfold branch_label, base_label.
  destruct (Nat.ltb_spec 1 count), (Nat.ltb_spec 1 count'); intros E;
    apply append_inj_l in E;
    (apply (append_split_at "b") in E as [Ez Er]; [| apply Hb | apply Hb]);
    apply str_of_Z_inj in Ez.
  - split; [exact Ez |]. split; [reflexivity |]. intros _. now apply str_of_nat_inj.
  - exfalso. now apply (Hase n).
  - exfalso. symmetry in Er. now apply (Hase n').
  - split; [exact Ez |]. split; [reflexivity |]. lia.
Qed.



(** ** Who reads a branch *)

Lemma eqb_lacks (c : ascii) (label pad : string) :
  occurs c pad -> ~ occurs c label -> String.eqb label pad = false.
Proof.
  intros Hp Hl. destruct (String.eqb_spec label pad) as [-> | NE]; [| reflexivity].
  exfalso. now apply Hl.
Qed.

Lemma occurs_app (c : ascii) (a b : string) :
  occurs c (a +:+ b) <-> occurs c a \/ occurs c b.
Proof. unfold occurs. rewrite list_ascii_app. apply in_app_iff. Qed.

Section BranchReaders.
Context (prefix : string) (idx : Z) (count n : nat).
Hypothesis prefix_chars : only label_chars prefix = true.

Let label : string := branch_label prefix idx count n.

Lemma label_clean : ~ occurs "]" label.
Proof.
  apply (only_lacks pad_chars); [| reflexivity]. now apply only_pad_branch.
Qed.

Lemma label_lacks (c : ascii) :
  existsb (Ascii.eqb c) (list_ascii_of_string label_chars) = false -> ~ occurs c label.
Proof. intros H. eapply only_lacks; [| exact H]. now apply only_label_branch. Qed.

Lemma label_has_b : occurs "b" label.
Proof.
  subst label. unfold branch_label, base_label.
  destruct (1 <? count)%nat; rewrite !occurs_app;
    [right; right; left; now left | right; right; now left].
Qed.

(** A statement whose first pad holds a character no branch label has
    does not read the branch. *)
Lemma reads_other (c : ascii) (pad rest : string) :
  existsb (Ascii.eqb c) (list_ascii_of_string label_chars) = false ->
  occurs c pad -> ~ occurs "]" pad ->
  reads label ("[" +:+ pad +:+ "]" +:+ rest) = false.
Proof.
  intros Hc Hp Hclean. rewrite reads_pad by (apply label_clean || exact Hclean).
  apply (eqb_lacks c); [exact Hp | now apply label_lacks].
Qed.

Lemma reads_setsar (src : Z) : reads label (setsar_statement src) = false.
Proof.
  rewrite setsar_statement_pad. apply (reads_other ":"); [reflexivity | | pad_clean].
  apply occurs_app. right. now left.
Qed.

Lemma reads_aresample (src : Z) : reads label (aresample_statement src) = false.
Proof.
  rewrite aresample_statement_pad. apply (reads_other ":"); [reflexivity | | pad_clean].
  apply occurs_app. right. now left.
Qed.

Lemma reads_scale (width height : Z) (i : nat) :
  reads label (scale_statement width height i) = false.
Proof.
  unfold scale_statement. apply (reads_other "t"); [reflexivity | | pad_clean].
  apply occurs_app. left. right. now left.
Qed.

Lemma reads_silence (seg : SegmentPayload.t) (i : nat) :
  reads label (silence_statement seg i) = false.
Proof. reflexivity. Qed.

Lemma reads_concat (m : nat) : reads label (concat_statement m) = false.
Proof.
  unfold concat_statement. destruct m as [| m]; [reflexivity |].
  cbn [seq flat_map app pads fold_right].
  assert (only "v-0123456789" ("v" +:+ str_of_nat 0) = true) as Hv.
  { rewrite only_app, (only_mono "-0123456789" "v-0123456789" _ eq_refl (only_str_of_nat 0)).
    reflexivity. }
  set (pad := "v" +:+ str_of_nat 0) in *.
  rewrite !append_assoc, reads_pad;
    [| apply label_clean | eapply only_lacks; [exact Hv | reflexivity]].
  destruct (String.eqb_spec label pad) as [E | NE]; [| reflexivity].
  exfalso. pose proof label_has_b as Hb. rewrite E in Hb. revert Hb.
  eapply only_lacks; [exact Hv | reflexivity].
Qed.

Lemma reads_literal (c : ascii) (pad rest : string) :
  existsb (Ascii.eqb c) (list_ascii_of_string label_chars) = false ->
  occurs c pad -> ~ occurs "]" pad ->
  reads label (String "[" (pad +:+ String "]" rest)) = false.
Proof. apply reads_other. Qed.

Lemma reads_closing (m : nat) (logo_idx : option Z) (logo_corner : string)
    (logo_safe_area : Q) (loudnorm : bool) :
  List.filter (reads label)
              (closing_statements m logo_idx logo_corner logo_safe_area loudnorm) = [].
Proof.
  assert (forall li, reads label (overlay_statement li logo_corner logo_safe_area) = false)
    as R2.
  { intros li. unfold overlay_statement.
    apply (reads_other "c"); [reflexivity | right; now left | pad_clean]. }
  assert (reads label "[vo]format=yuv420p[vout]" = false) as R3.
  { apply (reads_literal "o" "vo"); [reflexivity | right; now left | pad_clean]. }
  assert (reads label "[vcat]format=yuv420p[vout]" = false) as R4.
  { apply (reads_literal "c" "vcat"); [reflexivity | right; now left | pad_clean]. }
  assert (reads label "[acat]loudnorm=I=-14:TP=-1.0:LRA=11[aout]" = false) as R5.
  { apply (reads_literal "c" "acat"); [reflexivity | right; now left | pad_clean]. }
  assert (reads label "[acat]anorm=2[aout]" = false) as R6.
  { apply (reads_literal "c" "acat"); [reflexivity | right; now left | pad_clean]. }
  unfold closing_statements.
  destruct logo_idx as [li |], loudnorm; cbn [app List.filter];
    rewrite reads_concat, ?R2, ?R3, ?R4, ?R5, ?R6; reflexivity.
Qed.
End BranchReaders.

Lemma branch_label_head (a : ascii) (prefix : string) (src : Z) (count n : nat) :
  exists rest, branch_label (String a prefix) src count n = String a rest.
Proof. unfold branch_label, base_label. destruct (1 <? count)%nat; eexists; reflexivity. Qed.

(** The branch of segment [i] is branch [n] of input [idx] exactly when
    the segment is the [n]-th one of that input. *)
Lemma branch_of_eqb (segments : list SegmentPayload.t) (prefix : string) (idx : Z) (n i : nat)
    (seg : SegmentPayload.t) :
  (n < usage_count segments idx)%nat ->
  nth_error segments i = Some seg ->
  String.eqb (branch_label prefix idx (usage_count segments idx) n)
             (branch_of segments prefix i seg)
  = (SegmentPayload.src_index seg =? idx)%Z && (uses_before segments i idx =? n)%nat.
Proof.
  intros Hn Hi. pose proof (uses_before_lt segments i seg Hi) as Hu.
  unfold branch_of.
  destruct (String.eqb_spec (branch_label prefix idx (usage_count segments idx) n)
              (branch_label prefix (SegmentPayload.src_index seg)
                 (usage_count segments (SegmentPayload.src_index seg))
                 (uses_before segments i (SegmentPayload.src_index seg)))) as [E | NE].
  - apply branch_label_inj in E as (E1 & E2 & E3). rewrite <- E1 in *.
    rewrite Z.eqb_refl. symmetry. apply Nat.eqb_eq.
    destruct (Nat.ltb_spec 1 (usage_count segments idx)); [symmetry; now apply E3 | lia].
  - symmetry. apply andb_false_iff.
    destruct (Z.eqb_spec (SegmentPayload.src_index seg) idx) as [E | _]; [| now left].
    right. apply Nat.eqb_neq. intros Eu. apply NE. rewrite E, Eu. reflexivity.
Qed.

Section Readers.
Context (segments : list SegmentPayload.t) (audio_flags : gmap Z bool) (width height : Z).
Context (prefix : string) (idx : Z) (n : nat).
Context (reader : string -> SegmentPayload.t -> nat -> string).

Let label : string := branch_label prefix idx (usage_count segments idx) n.

Hypothesis in_count : (n < usage_count segments idx)%nat.
Hypothesis segment_reads :
  forall i seg,
    nth_error segments i = Some seg ->
    List.filter (reads label) (segment_statements segments audio_flags width height i seg)
    = if (SegmentPayload.src_index seg =? idx)%Z && (uses_before segments i idx =? n)%nat
      then [reader label seg i] else [].

(** Of the segments [rest] that follow [pre], the one that is the [n]-th
    of input [idx], if it is among them, reads the branch, and no other
    does. *)
Lemma readers_from (rest pre : list SegmentPayload.t) :
  segments = pre ++ rest ->
  ((n < usage_count pre idx)%nat ->
   List.filter (reads label)
               (statements_from segments audio_flags width height (length pre) rest) = [])
  /\ ((usage_count pre idx <= n)%nat ->
      exists i seg,
        nth_error segments i = Some seg
        /\ SegmentPayload.src_index seg = idx
        /\ uses_before segments i idx = n
        /\ List.filter (reads label)
                       (statements_from segments audio_flags width height (length pre) rest)
           = [reader label seg i]).
Proof.
  revert pre. induction rest as [| seg rest IH]; intros pre Hseg.
  - split; [reflexivity |]. intros H. rewrite app_nil_r in Hseg. subst pre. lia.
  - assert (nth_error segments (length pre) = Some seg) as Hi.
    { rewrite Hseg, nth_error_app2, Nat.sub_diag by lia. reflexivity. }
    assert (uses_before segments (length pre) idx = usage_count pre idx) as Hu.
    { unfold uses_before. rewrite Hseg, firstn_prefix, firstn_all by lia. reflexivity. }
    assert (usage_count (pre ++ [seg]) idx
            = (usage_count pre idx
               + if (SegmentPayload.src_index seg =? idx)%Z then 1 else 0)%nat) as Hc.
    { rewrite usage_count_app, usage_count_cons. change (usage_count [] idx) with 0%nat.
      destruct (_ =? _)%Z; lia. }
    destruct (IH (pre ++ [seg])) as [IH1 IH2]; [now rewrite <- app_assoc |].
    replace (length (pre ++ [seg])) with (S (length pre)) in IH1, IH2
      by (rewrite length_app; simpl; lia).
    cbn [statements_from]. rewrite List.filter_app, (segment_reads _ _ Hi), Hu.
    destruct (Z.eqb_spec (SegmentPayload.src_index seg) idx) as [Es | Ns];
      [destruct (Nat.eqb_spec (usage_count pre idx) n) as [En | Nn] |]; cbn [andb app].
    + split; [lia |]. intros _. exists (length pre), seg.
      rewrite IH1 by lia. repeat split; [exact Hi | exact Es | now rewrite Hu].
    + split; [intros H; apply IH1; lia |]. intros H. apply IH2. lia.
    + split; [intros H; apply IH1; lia |]. intros H. apply IH2. lia.
Qed.
End Readers.

(** X13: in the graph text [build_filter_complex] returns, every branch of
    an input that is used is read exactly once.  For an input [idx] in
    range used by [count >= 1] segments the text holds the statement that
    declares its base video stream and, when [count > 1], the split of
    that stream into the [count] branch labels; among the statements of
    the graph, exactly one has branch [n] (the base stream when
    [count = 1]) as its first input pad, and it is the trim of the [n]-th
    segment of that input.  The same holds for the audio branches and the
    audio trims when the input has audio.  The graph has one trim statement
    per segment, and labels of different inputs or branch numbers are
    different texts. *)
Theorem build_filter_complex_branches_read_once
    (segments : list SegmentPayload.t) (inputs_count : Z)
    (logo_idx : option Z) (width height : Z) (source_audio : option (gmap Z bool))
    (logo_corner : string) (logo_safe_area : Q) (loudnorm synth : bool)
    (graph video_label audio_label : string) (idx : Z) (n : nat) :
  build_filter_complex segments inputs_count logo_idx width height source_audio
                       logo_corner logo_safe_area loudnorm synth
  = Ok (graph, video_label, audio_label) ->
  (0 <= idx < inputs_count)%Z ->
  (n < usage_count segments idx)%nat ->
  let count := usage_count segments idx in
  let nth_of_input := fun i seg =>
    nth_error segments i = Some seg
    /\ SegmentPayload.src_index seg = idx
    /\ uses_before segments i idx = n in
  In (setsar_statement idx) (statements graph)
  /\ ((1 < count)%nat -> In (split_statement idx count) (statements graph))
  /\ (exists i seg,
        nth_of_input i seg
        /\ List.filter (reads (branch_label "v" idx count n)) (statements graph)
           = [trim_statement (branch_label "v" idx count n) seg i])
  /\ (default true (audio_flags_of source_audio inputs_count !! idx) = true ->
      In (aresample_statement idx) (statements graph)
      /\ ((1 < count)%nat -> In (asplit_statement idx count) (statements graph))
      /\ exists i seg,
           nth_of_input i seg
           /\ List.filter (reads (branch_label "a" idx count n)) (statements graph)
              = [atrim_statement (branch_label "a" idx count n) seg i])
  /\ length (List.filter (is_filter "trim") (statements graph)) = length segments
  /\ (forall prefix idx' n',
        (n' < usage_count segments idx')%nat ->
        branch_label prefix idx count n
        = branch_label prefix idx' (usage_count segments idx') n' ->
        idx = idx' /\ n = n').
Proof.
  intros H Hrange Hn count nth_of_input.
  pose proof (build_filter_complex_statements _ _ _ _ _ _ _ _ _ _ _ _ _ H) as Hs.
  cbn zeta in Hs. set (audio_flags := audio_flags_of source_audio inputs_count) in *.
  rewrite Hs.
  assert (usage_count segments idx <> O) as Hc by lia.
  destruct (source_statements_In segments audio_flags idx Hc) as (S1 & S2 & S3).
  assert (forall s, In s (source_statements segments audio_flags idx) ->
            In s (flat_map (source_statements segments audio_flags) (py_range inputs_count)
                  ++ statements_from segments audio_flags width height 0 segments
                  ++ closing_statements (length segments) logo_idx logo_corner
                       logo_safe_area loudnorm)) as Hsrc.
  { intros s Hs'. apply in_or_app. left. apply in_flat_map. exists idx.
    split; [now apply py_range_In | exact Hs']. }
  (* no statement of an input reads a branch *)
  assert (forall a, a = "v"%char \/ a = "a"%char ->
            List.filter (reads (branch_label (String a EmptyString) idx count n))
              (flat_map (source_statements segments audio_flags) (py_range inputs_count))
            = []) as Hnone.
  { intros a Ha. apply filter_flat_map_none. intros src. apply filter_none. intros s Hin.
    assert (only label_chars (String a EmptyString) = true) as Hp
      by (destruct Ha as [-> | ->]; reflexivity).
    assert (forall b c', (1 <? c')%nat = true -> c' = usage_count segments src ->
              b = "v"%char \/ b = "a"%char ->
              reads (branch_label (String a EmptyString) idx count n)
                    ("[" +:+ base_label (String b EmptyString) src +:+ "]" +:+
                     (if Ascii.eqb b "v" then "split=" else "asplit=") +:+ str_of_nat c'
                     +:+ pads (map (branch_label (String b EmptyString) src c') (seq 0 c')))
              = false) as Hsplit.
    { intros b c' H1 Ec' Hb.
      rewrite reads_pad;
        [| now apply label_clean
         | apply (only_lacks pad_chars); [| reflexivity];
           apply only_pad_base; destruct Hb as [-> | ->]; reflexivity].
      destruct (String.eqb_spec (branch_label (String a EmptyString) idx count n)
                  (base_label (String b EmptyString) src)) as [E | NE]; [| reflexivity].
      exfalso.
      assert (a = b) as <-.
      { destruct (branch_label_head a EmptyString idx count n) as [r1 E1].
        rewrite E1 in E. unfold base_label in E.
        change (String b EmptyString +:+ str_of_Z src +:+ "base")
          with (String b (str_of_Z src +:+ "base")) in E. now injection E. }
      change (base_label (String a EmptyString) src)
        with (branch_label (String a EmptyString) src 1 0) in E.
      apply branch_label_inj in E as (E1 & E2 & _). subst src count c'.
      rewrite H1 in E2. discriminate. }
    unfold source_statements in Hin.
    destruct (usage_count segments src) as [| c] eqn:Ecs; [destruct Hin |].
    destruct (1 <? S c)%nat eqn:E1; destruct (default true (audio_flags !! src));
      cbn [app] in Hin;
      repeat (destruct Hin as [<- | Hin];
              [first [ now apply reads_setsar
                     | now apply reads_aresample
                     | apply (Hsplit "v"%char (S c) E1 eq_refl); now left
                     | apply (Hsplit "a"%char (S c) E1 eq_refl); now right ] |]);
      destruct Hin. }
  assert (forall i seg prefix, only label_chars prefix = true ->
            ~ occurs "]" (branch_of segments prefix i seg)) as Hclean
    by (intros; now apply branch_of_clean).
  (* the video branches *)
  assert (forall i seg,
            nth_error segments i = Some seg ->
            List.filter (reads (branch_label "v" idx count n))
                        (segment_statements segments audio_flags width height i seg)
            = if (SegmentPayload.src_index seg =? idx)%Z
                 && (uses_before segments i idx =? n)%nat
              then [trim_statement (branch_label "v" idx count n) seg i] else []) as Hv.
  { intros i seg Hi. unfold segment_statements. cbn [List.filter].
    rewrite (reads_scale "v" idx count n eq_refl).
    assert (reads (branch_label "v" idx count n)
                  (audio_statement segments audio_flags i seg) = false) as ->.
    { unfold audio_statement.
      destruct (default true (audio_flags !! SegmentPayload.src_index seg));
        [| now apply reads_silence].
      unfold atrim_statement.
      rewrite reads_pad by (first [now apply label_clean | now apply Hclean]).
      destruct (String.eqb_spec (branch_label "v" idx count n)
                  (branch_of segments "a" i seg)) as [E | NE]; [| reflexivity].
      exfalso. unfold branch_of in E.
      destruct (branch_label_head "v" EmptyString idx count n) as [r1 E1].
      destruct (branch_label_head "a" EmptyString (SegmentPayload.src_index seg)
                  (usage_count segments (SegmentPayload.src_index seg))
                  (uses_before segments i (SegmentPayload.src_index seg))) as [r2 E2].
      rewrite E1, E2 in E. discriminate. }
    unfold trim_statement at 1.
    rewrite reads_pad by (first [now apply label_clean | now apply Hclean]).
    unfold count. rewrite (branch_of_eqb segments "v" idx n i seg Hn Hi).
    destruct (Z.eqb_spec (SegmentPayload.src_index seg) idx) as [Es | Ns];
      [destruct (Nat.eqb_spec (uses_before segments i idx) n) as [En | Nn] |];
      cbn [andb]; try reflexivity.
    unfold branch_of. rewrite Es, En. reflexivity. }
  split; [now apply Hsrc |]. split; [intros; now apply Hsrc, S2 |].
  split; [| split; [| split]].
  - destruct (readers_from segments audio_flags width height "v" idx n trim_statement
                Hn Hv segments [] eq_refl) as [_ Hex].
    destruct Hex as (i & seg & Hi & Es & Eu & Hf); [apply Nat.le_0_l |].
    exists i, seg. split; [repeat split; assumption |].
    rewrite !List.filter_app, (Hnone "v"%char) by now left.
    rewrite (reads_closing "v" idx count n eq_refl), app_nil_r. exact Hf.
  - intros Ha. destruct (S3 Ha) as [A1 A2].
    split; [now apply Hsrc |]. split; [intros; now apply Hsrc, A2 |].
    assert (forall i seg,
              nth_error segments i = Some seg ->
              List.filter (reads (branch_label "a" idx count n))
                          (segment_statements segments audio_flags width height i seg)
              = if (SegmentPayload.src_index seg =? idx)%Z
                   && (uses_before segments i idx =? n)%nat
                then [atrim_statement (branch_label "a" idx count n) seg i] else []) as Hau.
    { intros i seg Hi. unfold segment_statements. cbn [List.filter].
      rewrite (reads_scale "a" idx count n eq_refl).
      assert (reads (branch_label "a" idx count n)
                    (trim_statement (branch_of segments "v" i seg) seg i) = false) as ->.
      { unfold trim_statement.
        rewrite reads_pad by (first [now apply label_clean | now apply Hclean]).
        destruct (String.eqb_spec (branch_label "a" idx count n)
                    (branch_of segments "v" i seg)) as [E | NE]; [| reflexivity].
        exfalso. unfold branch_of in E.
        destruct (branch_label_head "a" EmptyString idx count n) as [r1 E1].
        destruct (branch_label_head "v" EmptyString (SegmentPayload.src_index seg)
                    (usage_count segments (SegmentPayload.src_index seg))
                    (uses_before segments i (SegmentPayload.src_index seg))) as [r2 E2].
        rewrite E1, E2 in E. discriminate. }
      unfold audio_statement.
      destruct (Z.eqb_spec (SegmentPayload.src_index seg) idx) as [Es | Ns].
      - rewrite Es, Ha. unfold atrim_statement at 1.
        rewrite reads_pad by (first [now apply label_clean | now apply Hclean]).
        unfold count. rewrite (branch_of_eqb segments "a" idx n i seg Hn Hi).
        rewrite Es, Z.eqb_refl.
        destruct (Nat.eqb_spec (uses_before segments i idx) n) as [En | Nn];
          cbn [andb]; try reflexivity.
        unfold branch_of. rewrite Es, En. reflexivity.
      - cbn [andb].
        destruct (default true (audio_flags !! SegmentPayload.src_index seg));
          [| now rewrite (reads_silence "a" idx count n)].
        unfold atrim_statement.
        rewrite reads_pad by (first [now apply label_clean | now apply Hclean]).
        unfold count. rewrite (branch_of_eqb segments "a" idx n i seg Hn Hi).
        destruct (Z.eqb_spec (SegmentPayload.src_index seg) idx); [congruence |].
        reflexivity. }
    destruct (readers_from segments audio_flags width height "a" idx n atrim_statement
                Hn Hau segments [] eq_refl) as [_ Hex].
    destruct Hex as (i & seg & Hi & Es & Eu & Hf); [apply Nat.le_0_l |].
    exists i, seg. split; [repeat split; assumption |].
    rewrite !List.filter_app, (Hnone "a"%char) by now right.
    rewrite (reads_closing "a" idx count n eq_refl), app_nil_r. exact Hf.
  - destruct (closing_statements_filter (length segments) logo_idx logo_corner
                logo_safe_area loudnorm) as [_ Hcn].
    rewrite !List.filter_app, filter_flat_map_none, Hcn, app_nil_r;
      [| simpl; tauto | intros; apply source_statements_filter; simpl; tauto].
    cbn [app].
    rewrite (statements_from_filter_one _
               (fun i seg => trim_statement (branch_of segments "v" i seg) seg i))
      by (intros; apply segment_statements_filter).
    apply length_imap.
  - intros prefix idx' n' Hn' E.
    apply branch_label_inj in E as (E1 & E2 & E3). split; [exact E1 |]. subst idx'.
    fold count in Hn', E2, E3 |- *.
    destruct (Nat.ltb_spec 1 count); [now apply E3 | unfold count in *; lia].
Qed.

Lemma witness_build_filter_complex_branches_read_once :
  exists graph,
    build_filter_complex fx_payload 2 None 1080 1920
      (Some (list_to_map [(0%Z, true); (1%Z, true)])) "bottom_right" (8 # 10) true true
    = Ok (graph, "[vout]", "[aout]")
    /\ In "[v0base]split=2[v0b0][v0b1]" (statements graph)
    /\ exists i seg,
         nth_error fx_payload i = Some seg
         /\ List.filter (reads "v0b1") (statements graph)
            = [trim_statement "v0b1" seg i].
Proof.
  assert (exists graph,
             build_filter_complex fx_payload 2 None 1080 1920
               (Some (list_to_map [(0%Z, true); (1%Z, true)])) "bottom_right" (8 # 10)
               true true
             = Ok (graph, "[vout]", "[aout]")) as [graph E]
    by (eexists; vm_compute; reflexivity).
  exists graph. split; [exact E |].
  destruct (build_filter_complex_branches_read_once fx_payload 2 None 1080 1920
              (Some (list_to_map [(0%Z, true); (1%Z, true)])) "bottom_right" (8 # 10)
              true true graph "[vout]" "[aout]" 0%Z 1%nat E)
    as (_ & Hsplit & (i & seg & (Hi & _) & Hf) & _);
    [lia | vm_compute; lia |].
  split; [apply Hsplit; vm_compute; lia |].
  exists i, seg. split; [exact Hi | exact Hf].
Defined.
